(** * dppy: exact samplers for projection DPPs

    A shallow embedding of [dppy/finite_dpps/projection_kernel_sampler.py]
    (the dispatcher and the Cholesky, Gram-Schmidt and Schur samplers) and of
    the numerical helpers of [dppy/utils.py], followed by the properties of
    the specification that were checked against it and by further
    properties of the code.

    Numbers.  The samplers are numpy code over [float64] or [complex128]
    arrays.  The embedding works in exact arithmetic: a [float64] is a
    canonical rational [Qc], a [complex128] a pair of them.  [np.sqrt] is not
    rational-valued; it is a parameter [np_sqrt] of the two samplers that
    call it.  Division is [Qcdiv] (so [x / 0 = 0], where numpy produces
    inf or nan and a warning). *)

From Stdlib Require Import QArith Qcanon Qcabs Qround ZArith Lia Lqa.
From stdpp Require Import base option list strings gmap.

Local Open Scope Qc_scope.

(** ** Python exceptions and results *)

Inductive exn : Type :=
| AssertionError
| ValueError
| TypeError
| IndexError
| KeyError.

Inductive result (A : Type) : Type :=
| Ok (a : A)
| Raise (e : exn).
Arguments Ok {A} a.
Arguments Raise {A} e.

Definition is_ok {A} (r : result A) : bool :=
  match r with Ok _ => true | Raise _ => false end.

(** ** Exact numbers *)

Definition Qcleb (x y : Qc) : bool := Qle_bool x y.
Definition Qcltb (x y : Qc) : bool := negb (Qle_bool y x).

Definition Qc_of_Z (n : Z) : Qc := Q2Qc (inject_Z n).

Definition half : Qc := Q2Qc (1 # 2).

(** [np.rint]: round to the nearest integer, ties to the even one. *)
Definition rint (q : Qc) : Z :=
  let f := Qfloor q in
  let r := q - Qc_of_Z f in
  if Qcltb r half then f
  else if Qcltb half r then (f + 1)%Z
  else if Z.even f then f else (f + 1)%Z.

Definition sumQc (l : list Qc) : Qc := foldr Qcplus 0 l.

(** A [complex128] value. *)
Record complex : Type := Cx { re : Qc; im : Qc }.

Definition cadd (x y : complex) : complex := Cx (re x + re y) (im x + im y).
Definition csub (x y : complex) : complex := Cx (re x - re y) (im x - im y).
Definition copp (x : complex) : complex := Cx (- re x) (- im x).
Definition cmul (x y : complex) : complex :=
  Cx (re x * re y - im x * im y) (re x * im y + im x * re y).
Definition cconj (x : complex) : complex := Cx (re x) (- im x).
Definition cdiv (x y : complex) : complex :=
  let n := re y * re y + im y * im y in
  Cx ((re x * re y + im x * im y) / n) ((im x * re y - re x * im y) / n).

(** ** Array element types

    The operations numpy applies to the entries of an array, and the two
    facts about a dtype the samplers depend on: whether [np.iscomplexobj]
    holds, and what an entry becomes when it is stored in a [float64]
    array. *)
Class DType (T : Type) : Type := {
  iscomplexobj : bool;
  dt_zero : T;
  dt_of_real : Qc → T;     (* a float stored into an array of this dtype *)
  dt_real : T → Qc;        (* [.real] *)
  dt_imag : T → Qc;        (* [.imag] *)
  dt_conj : T → T;         (* [np.conj] *)
  dt_add : T → T → T;
  dt_sub : T → T → T;
  dt_mul : T → T → T;
  dt_div : T → T → T;
  dt_opp : T → T;
}.

#[export] Instance float64 : DType Qc := {|
  iscomplexobj := false;
  dt_zero := 0;
  dt_of_real x := x;
  dt_real x := x;
  dt_imag _ := 0;
  dt_conj x := x;
  dt_add := Qcplus;
  dt_sub := Qcminus;
  dt_mul := Qcmult;
  dt_div := Qcdiv;
  dt_opp := Qcopp;
|}.

#[export] Instance complex128 : DType complex := {|
  iscomplexobj := true;
  dt_zero := Cx 0 0;
  dt_of_real x := Cx x 0;
  dt_real := re;
  dt_imag := im;
  dt_conj := cconj;
  dt_add := cadd;
  dt_sub := csub;
  dt_mul := cmul;
  dt_div := cdiv;
  dt_opp := copp;
|}.

#[export] Instance dtype_inhabited `{DType T} : Inhabited T := populate dt_zero.

Declare Scope dt_scope.
Delimit Scope dt_scope with dt.
Infix "+" := dt_add : dt_scope.
Infix "-" := dt_sub : dt_scope.
Infix "*" := dt_mul : dt_scope.
Infix "/" := dt_div : dt_scope.

(** The laws of the element operations that the Hermitian swap relies on. *)
Class DTypeLaws (T : Type) `{DType T} : Prop := {
  dt_conj_involutive : ∀ x : T, dt_conj (dt_conj x) = x;
  dt_real_fixed : ∀ x : T, dt_conj x = x → dt_of_real (dt_real x) = x;
  dt_of_real_imag : ∀ q : Qc, dt_imag (dt_of_real q : T) = 0;
}.

Local Close Scope Qc_scope.

(** ** numpy arrays

    A 1-D array is a list, a 2-D array a list of rows.  Reads are total
    ([!!!] returns [dt_zero] out of range, where numpy raises [IndexError]);
    every read below is at an index smaller than the length of the array it
    reads when the kernel is square. *)
Abbreviation matrix T := (list (list T)) (only parsing).

Section Arrays.
Context {T : Type} `{DType T}.

Definition get2 (A : matrix T) (r c : nat) : T := (A !!! r) !!! c.

(** [A[r, c] = v] *)
Definition set2 (A : matrix T) (r c : nat) (v : T) : matrix T :=
  alter (λ row, <[c := v]> row) r A.

(** [A.diagonal()] *)
Definition diagonal (A : matrix T) : list T :=
  omap id (imap (λ i row, row !! i) A).

Definition dt_sum (l : list T) : T := foldr dt_add dt_zero l.

(** [np.trace(A)] *)
Definition trace (A : matrix T) : T := dt_sum (diagonal A).

(** [x.dot(y)] for two 1-D arrays: no conjugation. *)
Definition dot (x y : list T) : T := dt_sum (zip_with dt_mul x y).

(** [np.zeros_like(K, shape=(n, m))] *)
Definition zeros (n m : nat) : matrix T := replicate n (replicate m dt_zero).

(** [A[r, :n]] and [A[:, c]] *)
Definition row_prefix (A : matrix T) (r n : nat) : list T := take n (A !!! r).
Definition column (A : matrix T) (c : nat) : list T := (λ row, row !!! c) <$> A.

(** Is [A] an [N]x[N] array? *)
Definition square (N : nat) (A : matrix T) : Prop :=
  length A = N ∧ ∀ row, row ∈ A → length row = N.

(** [np.rint(np.trace(K)).astype(int)]: for a complex trace [astype]
    keeps the real part. *)
Definition rank_of (K : matrix T) : Z := rint (dt_real (trace K)).
End Arrays.

(** [ground_set[rem]]: the indices whose mask entry is [True]. *)
Definition masked (rem : list bool) : list nat :=
  omap id (imap (λ i (b : bool), if b then Some i else None) rem).

(** [x[rem]] for a 1-D array [x]. *)
Definition select {A} (rem : list bool) (x : list A) : list A :=
  omap id (zip_with (λ (b : bool) v, if b then Some v else None) rem x).

(** [x[:n]] for a Python integer [n] (a negative [n] counts from the end). *)
Definition py_take {A} (n : Z) (x : list A) : list A :=
  if (0 <=? n)%Z then take (Z.to_nat n) x
  else take (length x - Z.to_nat (- n)) x.

(** [range(n)] *)
Definition py_range (n : Z) : list nat := seq 0 (Z.to_nat n).

(** ** The random source

    A [np.random.RandomState] is the stream of uniform draws it will
    produce and the number of draws consumed so far. *)
Record RandomState : Type := { rs_stream : nat → Qc; rs_pos : nat }.

(** [random_sample()] returns floats in the half-open interval [0, 1). *)
Definition uniform_draws (r : RandomState) : Prop :=
  ∀ n, (0 <= rs_stream r n)%Qc ∧ (rs_stream r n < 1)%Qc.

(** The [random_state] argument of a sampler.  [None] stands for numpy's
    global generator and an integer for the generator seeded with it; both
    carry the [RandomState] numpy resolves them to. *)
Inductive seed : Type :=
| SeedNone (global : RandomState)
| SeedInt (n : Z) (seeded : RandomState)
| SeedInstance (r : RandomState)
| SeedOther.

(** [dppy.utils.check_random_state] *)
Definition check_random_state (s : seed) : result RandomState :=
  match s with
  | SeedNone g => Ok g
  | SeedInt _ r => Ok r
  | SeedInstance r => Ok r
  | SeedOther => Raise ValueError
  end.

(** ** State and exceptions

    A sampler runs against the array the caller passed as [K] (numpy arrays
    are passed by reference) and the generator [rng]. *)
Record World (T : Type) : Type := { w_K : matrix T; w_rng : RandomState }.
Arguments w_K {T} w.
Arguments w_rng {T} w.

Definition M (T A : Type) : Type := World T → result A * World T.

Definition ret {T A} (a : A) : M T A := λ w, (Ok a, w).
Definition raise {T A} (e : exn) : M T A := λ w, (Raise e, w).
Definition bind {T A B} (m : M T A) (k : A → M T B) : M T B :=
  λ w, match m w with
       | (Ok a, w') => k a w'
       | (Raise e, w') => (Raise e, w')
       end.
Definition read_K {T} : M T (matrix T) := λ w, (Ok (w_K w), w).

Notation "x <~ m ;; k" := (bind m (λ x, k))
  (at level 100, m at next level, right associativity).

(** A [for] loop whose body may [break]. *)
Inductive ctl (S : Type) : Type :=
| Continue (s : S)
| Break (s : S).
Arguments Continue {S} s.
Arguments Break {S} s.

Definition ctl_state {S : Type} (c : ctl S) : S :=
  match c with Continue s => s | Break s => s end.

Definition is_break {S : Type} (c : ctl S) : bool :=
  match c with Continue _ => false | Break _ => true end.

Fixpoint for_in {T S} (body : nat → S → M T (ctl S)) (xs : list nat) (s : S)
  : M T S :=
  match xs with
  | [] => ret s
  | x :: xs' =>
      c <~ body x s ;;
      match c with
      | Continue s' => for_in body xs' s'
      | Break s' => ret s'
      end
  end.

(** ** [RandomState.choice(a, p=p)]

    numpy rejects an empty [a], a [p] of another length, a negative
    probability and a [p] whose sum is further than [sqrt(eps) = 2^-26] from
    1, all before it draws.  It then draws one uniform [u], normalises the
    cumulative sums of [p] by the last one and returns [a] at
    [searchsorted(cdf, u, side='right')], the number of entries of the
    (non-decreasing) [cdf] that are at most [u]. *)
Local Open Scope Qc_scope.

Definition atol : Qc := Q2Qc (1 # 67108864).

Fixpoint cumsum_from (acc : Qc) (p : list Qc) : list Qc :=
  match p with
  | [] => []
  | x :: p' => (acc + x) :: cumsum_from (acc + x) p'
  end.
Definition cumsum (p : list Qc) : list Qc := cumsum_from 0 p.

Fixpoint searchsorted_right (cdf : list Qc) (u : Qc) : nat :=
  match cdf with
  | [] => O
  | x :: cdf' =>
      if Qcleb x u then S (searchsorted_right cdf' u)
      else searchsorted_right cdf' u
  end.

Definition draw {T} : M T Qc := λ w,
  let r := w_rng w in
  (Ok (rs_stream r (rs_pos r)),
   {| w_K := w_K w;
      w_rng := {| rs_stream := rs_stream r; rs_pos := S (rs_pos r) |} |}).

Definition choice {T} (a : list nat) (p : list Qc) : M T nat :=
  if bool_decide (a = []) then raise ValueError
  else if negb (length p =? length a) then raise ValueError
  else if existsb (λ x, Qcltb x 0) p then raise ValueError
  else if Qcltb atol (Qcabs (sumQc p - 1)) then raise ValueError
  else
    u <~ draw ;;
    let cdf := cumsum p in
    let cdf := (λ x, x / default 0 (last cdf)) <$> cdf in
    match a !! searchsorted_right cdf u with
    | Some x => ret x
    | None => raise IndexError
    end.

Local Close Scope Qc_scope.

(** What a call leaves behind: its result, the caller's array [K] after the
    call and the number of uniform draws it consumed. *)
Record outcome (T : Type) : Type := {
  o_result : result (list nat);
  o_K : matrix T;
  o_draws : nat;
}.
Arguments o_result {T} o.
Arguments o_K {T} o.
Arguments o_draws {T} o.

(** [rng = check_random_state(random_state)], then the body of a sampler. *)
Definition call_sampler {T} (body : M T (list nat)) (K : matrix T)
    (random_state : seed) : outcome T :=
  match check_random_state random_state with
  | Raise e => {| o_result := Raise e; o_K := K; o_draws := 0 |}
  | Ok rng =>
      let '(r, w) := body {| w_K := K; w_rng := rng |} in
      {| o_result := r; o_K := w_K w;
         o_draws := rs_pos (w_rng w) - rs_pos rng |}
  end.

(** [x[j_t] = x[t_j]] with [j_t = [j, t]] and [t_j = [t, j]]: the right-hand
    side is a copy, position [j] is written first. *)
Definition swap_at {A} `{Inhabited A} (j t : nat) (x : list A) : list A :=
  <[t := x !!! j]> (<[j := x !!! t]> x).

(** The selection weights [np.abs(w) / (rank - it)]. *)
Definition weights (rank : Z) (it : nat) (w : list Qc) : list Qc :=
  (λ x, Qcabs x / Qc_of_Z (rank - Z.of_nat it))%Qc <$> w.

(** ** [orthogonal_projection_kernel_sampler_Chol] *)
Section Chol.
Context {T : Type} `{DType T}.
Variable np_sqrt : Qc → Qc.

(** The Hermitian swap of indices [j] and [t] of [A], one definition per
    statement of the source. *)

(** [A[T1, j_t] = A[T1, t_j]] with [T1 = slice(t + 1, N)] *)
Definition bottom_swap (j t : nat) (A : matrix T) : matrix T :=
  imap (λ r row,
          if decide (t < r) then <[t := row !!! j]> (<[j := row !!! t]> row)
          else row) A.

(** [tmp = A[J1, j].copy(); np.conj(A[t, J1], out=A[J1, j]);
    np.conj(tmp, out=A[t, J1])] with [J1 = slice(j + 1, t)].  The first
    [np.conj] reads row [t] and writes rows strictly between [j] and [t],
    so it reads entries of [A] as they were. *)
Definition inner_swap (j t : nat) (A : matrix T) : matrix T :=
  let tmp := λ r, get2 A r j in
  let A1 :=
    imap (λ r row,
            if decide (j < r < t) then <[j := dt_conj (get2 A t r)]> row
            else row) A in
  alter (imap (λ c x, if decide (j < c < t) then dt_conj (tmp c) else x))
        t A1.

(** [A[t, j] = A[t, j].conj()] *)
Definition corner_swap (j t : nat) (A : matrix T) : matrix T :=
  set2 A t j (dt_conj (get2 A t j)).

(** [A[j_t, j_t] = A[t_j, t_j].real] *)
Definition diagonal_swap (j t : nat) (A : matrix T) : matrix T :=
  let new_j := dt_of_real (dt_real (get2 A t t)) in
  let new_t := dt_of_real (dt_real (get2 A j j)) in
  set2 (set2 A j j new_j) t t new_t.

(** [A[j_t, :j] = A[t_j, :j]] *)
Definition left_swap (j t : nat) (A : matrix T) : matrix T :=
  let row_j := A !!! j in
  let row_t := A !!! t in
  let overwrite (src : list T) :=
    imap (λ c x, if decide (c < j) then src !!! c else x) in
  alter (overwrite row_j) t (alter (overwrite row_t) j A).

Definition hermitian_swap (j t : nat) (A : matrix T) : matrix T :=
  left_swap j t
    (diagonal_swap j t
       (corner_swap j t
          (inner_swap j t
             (bottom_swap j t A)))).

(** [A[J2, j] -= A[J2, :j].dot(A[j, :j].conj()); A[J2, j] /= A[j, j]]
    with [J2 = slice(j + 1, N)] *)
Definition form_column (j : nat) (A : matrix T) : matrix T :=
  let pivot_row := dt_conj <$> row_prefix A j j in
  let A1 :=
    imap (λ r row,
            if decide (j < r)
            then <[j := (row !!! j - dot (take j row) pivot_row)%dt]> row
            else row) A in
  let pivot := get2 A1 j j in
  imap (λ r row,
          if decide (j < r) then <[j := (row !!! j / pivot)%dt]> row
          else row) A1.

(** [d[J2] -= A[J2, j].real ** 2 + A[J2, j].imag ** 2] for a complex [A],
    [d[J2] -= A[J2, j] ** 2] otherwise *)
Definition update_diagonal (j : nat) (A : matrix T) (d : list Qc)
  : list Qc :=
  imap (λ r x,
          if decide (j < r) then
            let a := get2 A r j in
            if iscomplexobj
            then (x - (dt_real a * dt_real a + dt_imag a * dt_imag a))%Qc
            else (x - dt_real (a * a)%dt)%Qc
          else x) d.

Record chol_state : Type := {
  chol_A : matrix T;
  chol_d : list Qc;
  ground_set : list nat;
}.

(** One iteration of [for j in range(size)]. *)
Definition chol_body (N : nat) (rank size : Z) (j : nat) (s : chol_state)
  : M T (ctl chol_state) :=
  t <~ choice (seq j (N - j)) (weights rank j (drop j (chol_d s))) ;;
  let A := hermitian_swap j t (chol_A s) in
  let gs := swap_at j t (ground_set s) in
  let d := swap_at j t (chol_d s) in
  let A := set2 A j j (dt_of_real (np_sqrt (d !!! j))) in
  if bool_decide (Z.of_nat j = size - 1)%Z then
    ret (Break {| chol_A := A; chol_d := d; ground_set := gs |})
  else
    let A := form_column j A in
    let d := update_diagonal j A d in
    ret (Continue {| chol_A := A; chol_d := d; ground_set := gs |}).

Definition chol_init (K : matrix T) : chol_state :=
  {| chol_A := K;                         (* [A = K.copy()] *)
     chol_d := dt_real <$> diagonal K;    (* [np.copy(A.diagonal().real)] *)
     ground_set := seq 0 (length K) |}.   (* [np.arange(N)] *)

(** The sampler up to and including its loop, run over the first [upto]
    iterations only when [upto] is given: the state at the start of
    iteration [upto].  Returns [size] as the sampler resolved it. *)
Definition chol_loop (size : option Z) (upto : option nat)
  : M T (Z * chol_state) :=
  K <~ read_K ;;
  let rank := rank_of K in
  let size := default rank size in
  if bool_decide (size ≤ rank)%Z then
    let steps := from_option (λ n, take n (py_range size)) (py_range size)
                             upto in
    s <~ for_in (chol_body (length K) rank size) steps (chol_init K) ;;
    ret (size, s)
  else raise AssertionError.

Definition chol_sampler (size : option Z) : M T (list nat) :=
  r <~ chol_loop size None ;;
  ret (py_take r.1 (ground_set r.2)).     (* [ground_set[:size].tolist()] *)

Definition orthogonal_projection_kernel_sampler_Chol (K : matrix T)
    (size : option Z) (random_state : seed) : outcome T :=
  call_sampler (chol_sampler size) K random_state.
End Chol.

(** ** [orthogonal_projection_kernel_sampler_GS] *)
Section GS.
Context {T : Type} `{DType T}.
Variable np_sqrt : Qc → Qc.

Record gs_state : Type := {
  gs_rem : list bool;
  gs_sample : list nat;
  norm_2 : list Qc;
  gs_c : matrix T;
}.

(** [c[rem, it] = K[rem, j] - c[rem, :it].dot(c[j, :it])] *)
Definition gs_new_column (K : matrix T) (rem : list bool) (it j : nat)
    (c : matrix T) : matrix T :=
  let c_j := row_prefix c j it in
  imap (λ r row,
          if (rem !!! r : bool)
          then <[it := (get2 K r j - dot (take it row) c_j)%dt]> row
          else row) c.

(** [c[rem, it] /= np.sqrt(norm_2[j])] *)
Definition gs_normalise (rem : list bool) (it : nat) (nj : Qc)
    (c : matrix T) : matrix T :=
  imap (λ r row,
          if (rem !!! r : bool)
          then <[it := (row !!! it / dt_of_real (np_sqrt nj))%dt]> row
          else row) c.

(** [norm_2[rem] -= c[rem, it] ** 2].  The in-place subtraction writes
    into a [float64] array; numpy casts its result with the [same_kind]
    rule, which has no cast from [complex128] to [float64]: for a complex
    [c] the statement raises [UFuncTypeError], a [TypeError], whatever the
    values are.  For a real [c] it subtracts the square of the entry. *)
Definition gs_deflate (rem : list bool) (it : nat) (c : matrix T)
    (n2 : list Qc) : result (list Qc) :=
  if iscomplexobj then Raise TypeError
  else Ok (imap (λ r x,
                   if (rem !!! r : bool)
                   then (x - dt_real (get2 c r it * get2 c r it)%dt)%Qc
                   else x) n2).

(** One iteration of [for it in range(size)]. *)
Definition gs_body (rank size : Z) (it : nat) (s : gs_state)
  : M T (ctl gs_state) :=
  K <~ read_K ;;
  j <~ choice (masked (gs_rem s))
              (weights rank it (select (gs_rem s) (norm_2 s))) ;;
  let sample := <[it := j]> (gs_sample s) in
  let rem := <[j := false]> (gs_rem s) in
  if bool_decide (Z.of_nat it = size - 1)%Z then
    ret (Break {| gs_rem := rem; gs_sample := sample;
                  norm_2 := norm_2 s; gs_c := gs_c s |})
  else
    let c := gs_new_column K rem it j (gs_c s) in
    let c := gs_normalise rem it (norm_2 s !!! j) c in
    match gs_deflate rem it c (norm_2 s) with
    | Raise e => raise e
    | Ok n2 =>
        ret (Continue {| gs_rem := rem; gs_sample := sample;
                         norm_2 := n2; gs_c := c |})
    end.

(** The sampler up to and including its loop (see [chol_loop]). *)
Definition gs_loop (size : option Z) (upto : option nat)
  : M T gs_state :=
  K <~ read_K ;;
  let N := length K in
  let rank := rank_of K in
  let size := default rank size in
  if bool_decide (size ≤ rank)%Z then
    (* [np.zeros(size, dtype=int)] refuses a negative dimension *)
    if bool_decide (size < 0)%Z then raise ValueError
    else
      let init :=
        {| gs_rem := replicate N true;
           gs_sample := replicate (Z.to_nat size) 0;
           norm_2 := dt_real <$> diagonal K;
           gs_c := zeros N (Z.to_nat size) |} in
      let steps := from_option (λ n, take n (py_range size)) (py_range size)
                               upto in
      for_in (gs_body rank size) steps init
  else raise AssertionError.

Definition gs_sampler (size : option Z) : M T (list nat) :=
  s <~ gs_loop size None ;;
  ret (gs_sample s).                      (* [sample.tolist()] *)

Definition orthogonal_projection_kernel_sampler_GS (K : matrix T)
    (size : option Z) (random_state : seed) : outcome T :=
  call_sampler (gs_sampler size) K random_state.
End GS.

(** ** [projection_kernel_sampler_Schur] *)
Section Schur.
Context {T : Type} `{DType T}.

Record schur_state : Type := {
  sc_rem : list bool;
  sc_sample : list nat;
  schur : list Qc;
  K1 : matrix T;
}.

(** [M[:n, :n]] *)
Definition block (n : nat) (A : matrix T) : matrix T := take n <$> take n A.

(** [A.dot(x)] and [x.dot(A)] for a 2-D [A] and a 1-D [x]. *)
Definition mat_vec (A : matrix T) (x : list T) : list T :=
  (λ row, dot row x) <$> A.
Definition vec_mat (x : list T) (A : matrix T) (cols : nat) : list T :=
  (λ b, dot x (column A b)) <$> seq 0 cols.

(** [it == 0]: [K1[0, 0] = 1.0 / K[j, j]] *)
Definition schur_first (K : matrix T) (j : nat) (k1 : matrix T)
  : matrix T :=
  set2 k1 0 0 (dt_of_real 1 / get2 K j j)%dt.

(** [it == 1]:
    [K1[:2, :2] = np.array([[K[j, j], -K[j, i]], [-K[j, i], K[i, i]]])]
    then [K1[:2, :2] /= K[i, i] * K[j, j] - K[j, i] ** 2] *)
Definition schur_second (K : matrix T) (i j : nat) (k1 : matrix T)
  : matrix T :=
  let det := (get2 K i i * get2 K j j - get2 K j i * get2 K j i)%dt in
  let k1 := set2 k1 0 0 (get2 K j j) in
  let k1 := set2 k1 0 1 (dt_opp (get2 K j i)) in
  let k1 := set2 k1 1 0 (dt_opp (get2 K j i)) in
  let k1 := set2 k1 1 1 (get2 K i i) in
  imap (λ a row,
          if decide (a < 2)
          then imap (λ b x, if decide (b < 2) then (x / det)%dt else x) row
          else row) k1.

(** [1 < it < size - 1]: the Woodbury update, with [Y = slice(0, it)]. *)
Definition schur_woodbury (K : matrix T) (sample : list nat) (it j : nat)
    (k1 : matrix T) : matrix T :=
  let sY := take it sample in
  let k1YY := block it k1 in
  let tmp1 := mat_vec k1YY ((λ y, get2 K y j) <$> sY) in
  let K_jY := (λ y, get2 K j y) <$> sY in
  let schur_j := (get2 K j j - dot K_jY tmp1)%dt in
  let tmp2 := (λ x, x / schur_j)%dt <$> vec_mat K_jY k1YY it in
  (* [K1[Y, Y] += np.outer(tmp1, tmp2)] *)
  let k1 :=
    imap (λ a row,
            if decide (a < it)
            then imap (λ b x,
                         if decide (b < it)
                         then (x + tmp1 !!! a * tmp2 !!! b)%dt else x) row
            else row) k1 in
  (* [K1[Y, it] = -tmp1 / schur_j] *)
  let k1 :=
    imap (λ a row,
            if decide (a < it)
            then <[it := (dt_opp (tmp1 !!! a) / schur_j)%dt]> row
            else row) k1 in
  (* [K1[it, Y] = -tmp2] *)
  let k1 :=
    alter (imap (λ b x, if decide (b < it) then dt_opp (tmp2 !!! b) else x))
          it k1 in
  (* [K1[it, it] = 1.0 / schur_j] *)
  set2 k1 it it (dt_of_real 1 / schur_j)%dt.

(** Modelled from the spec: [dppy.utils.inner1d], imported by the sampler
    and absent from [dppy/utils.py] as given.  The spec has
    [schur[r] = K[r,r] − K[r,Y]·K⁻¹_YY·K[Y,r]]: with [axis=1] it is the
    row-wise sum of the element-wise products of two 2-D arrays. *)
Definition inner1d (X Z : matrix T) : list T :=
  zip_with dot X Z.

(** [Y = slice(0, it + 1); K_iY = K[np.ix_(rem, sample[Y])];
    K_Yi = K[np.ix_(sample[Y], rem)];
    schur[rem] = K[rem, rem] - inner1d(K_iY.dot(K1[Y, Y]), K_Yi.T, axis=1)].
    The rows of [K_iY] and of [K_Yi.T] are computed for every index and
    used at the remaining ones; the [float64] array [schur] receives the
    real parts. *)
Definition schur_update (K : matrix T) (rem : list bool)
    (sample : list nat) (it : nat) (k1 : matrix T) (sch : list Qc)
  : list Qc :=
  let sY := take (S it) sample in
  let k1YY := block (S it) k1 in
  let K_iY := (λ r, (λ y, get2 K r y) <$> sY) <$> seq 0 (length K) in
  let K_YiT := (λ r, (λ y, get2 K y r) <$> sY) <$> seq 0 (length K) in
  let prod := (λ row, vec_mat row k1YY (S it)) <$> K_iY in
  let corr := inner1d prod K_YiT in
  imap (λ r x,
          if (rem !!! r : bool)
          then dt_real (get2 K r r - corr !!! r)%dt
          else x) sch.

(** One iteration of [for it in range(size)]. *)
Definition schur_body (rank size : Z) (it : nat) (s : schur_state)
  : M T (ctl schur_state) :=
  K <~ read_K ;;
  j <~ choice (masked (sc_rem s))
              (weights rank it (select (sc_rem s) (schur s))) ;;
  let sample := <[it := j]> (sc_sample s) in
  let rem := <[j := false]> (sc_rem s) in
  let finish k1 :=
    ret (Continue {| sc_rem := rem; sc_sample := sample;
                     schur := schur_update K rem sample it k1 (schur s);
                     K1 := k1 |}) in
  if decide (it = 0) then finish (schur_first K j (K1 s))
  else if decide (it = 1) then
    finish (schur_second K (sample !!! 0) j (K1 s))
  else if bool_decide (Z.of_nat it < size - 1)%Z then
    finish (schur_woodbury K sample it j (K1 s))
  else
    ret (Break {| sc_rem := rem; sc_sample := sample;
                  schur := schur s; K1 := K1 s |}).

(** The sampler up to and including its loop (see [chol_loop]). *)
Definition schur_loop (size : option Z) (upto : option nat)
  : M T schur_state :=
  K <~ read_K ;;
  let rank := rank_of K in
  let size := default rank size in
  if bool_decide (size ≤ rank)%Z then
    (* [np.zeros(size, dtype=int)] refuses a negative dimension *)
    if bool_decide (size < 0)%Z then raise ValueError
    else
      let init :=
        {| sc_rem := replicate (length K) true;
           sc_sample := replicate (Z.to_nat size) 0;
           schur := dt_real <$> diagonal K;
           K1 := zeros (Z.to_nat size) (Z.to_nat size) |} in
      let steps := from_option (λ n, take n (py_range size)) (py_range size)
                               upto in
      for_in (schur_body rank size) steps init
  else raise AssertionError.

Definition schur_sampler (size : option Z) : M T (list nat) :=
  s <~ schur_loop size None ;;
  ret (sc_sample s).                      (* [sample.tolist()] *)

Definition projection_kernel_sampler_Schur (K : matrix T)
    (size : option Z) (random_state : seed) : outcome T :=
  call_sampler (schur_sampler size) K random_state.
End Schur.

(** ** The dispatcher *)

(** The Python values a keyword argument of [projection_kernel_sampler] can
    hold. *)
Inductive pyval : Type :=
| PyNone
| PyBool (b : bool)
| PyInt (n : Z)
| PyStr (s : string).

(** Python truthiness: [None], [False], [0] and the empty string are falsy. *)
Definition truthy (v : pyval) : bool :=
  match v with
  | PyNone => false
  | PyBool b => b
  | PyInt n => negb (n =? 0)%Z
  | PyStr s => negb (String.eqb s "")
  end.

(** [params.get(key)]: [None] when the key is absent. *)
Definition params_get (params : gmap string pyval) (key : string) : pyval :=
  default PyNone (params !! key).

(** The three sampler functions, as the values the [samplers] dictionaries
    hold. *)
Inductive sampler : Type := GS | Chol | Schur.

(** [samplers.get(mode, default)] on a dictionary with string keys: a key
    that is not a string is never found. *)
Definition samplers_get (samplers : gmap string sampler) (mode : pyval)
    (dflt : sampler) : sampler :=
  match mode with
  | PyStr s => default dflt (samplers !! s)
  | _ => dflt
  end.

(** [samplers[key]] *)
Definition samplers_item (samplers : gmap string sampler) (key : string)
  : result sampler :=
  match samplers !! key with
  | Some f => Ok f
  | None => Raise KeyError
  end.

Definition select_generic_projection_kernel_sampler (mode : pyval)
  : result sampler :=
  let samplers : gmap string sampler := {[ "Schur" := Schur ]} in
  match samplers_item samplers "Schur" with
  | Raise e => Raise e
  | Ok dflt => Ok (samplers_get samplers mode dflt)
  end.

Definition select_orthogonal_projection_kernel_sampler (mode : pyval)
  : result sampler :=
  let samplers : gmap string sampler :=
    <[ "GS" := GS ]> (<[ "Chol" := Chol ]> {[ "Schur" := Schur ]}) in
  match samplers_item samplers "GS" with
  | Raise e => Raise e
  | Ok dflt => Ok (samplers_get samplers mode dflt)
  end.

Section Dispatch.
Context {T : Type} `{DType T}.
Variable np_sqrt : Qc → Qc.

(** Modelled from the spec: the DPP object, whose class is not part of the
    sources at hand.  The dispatcher reads three attributes of it and
    calls [compute_L()] or [compute_K()] before it reads [L] or [K]
    ("may trigger lazy construction of the kernel matrix"): the two fields
    hold what that call followed by that read yields. *)
Record FiniteDPP : Type := {
  projection : bool;
  kernel_type : string;
  hermitian : bool;
  compute_L : result (matrix T);
  compute_K : result (matrix T);
}.

(** What the dispatcher did, in order. *)
Inductive event : Type :=
| CalledComputeL
| CalledComputeK
| Selected (among_orthogonal : bool) (mode : pyval) (chosen : sampler)
| Invoked (f : sampler) (size : pyval).

Record dispatched : Type := {
  d_result : result (list nat);
  d_events : list event;
  d_draws : nat;
}.

Definition failed (e : exn) (evs : list event) : dispatched :=
  {| d_result := Raise e; d_events := evs; d_draws := 0 |}.

(** [sampler(kernel, size=size, random_state=random_state)].  A [bool] is
    a Python [int]; a string fails at [size <= rank], after
    [check_random_state]. *)
Definition invoke (f : sampler) (kernel : matrix T) (size : pyval)
    (random_state : seed) : outcome T :=
  let run sz :=
    match f with
    | GS => orthogonal_projection_kernel_sampler_GS np_sqrt kernel sz
              random_state
    | Chol => orthogonal_projection_kernel_sampler_Chol np_sqrt kernel sz
                random_state
    | Schur => projection_kernel_sampler_Schur kernel sz random_state
    end in
  match size with
  | PyNone => run None
  | PyInt n => run (Some n)
  | PyBool b => run (Some (Z.b2z b))
  | PyStr _ =>
      {| o_result :=
           match check_random_state random_state with
           | Raise e => Raise e
           | Ok _ => Raise TypeError
           end;
         o_K := kernel; o_draws := 0 |}
  end.

Definition projection_kernel_sampler (dpp : FiniteDPP)
    (random_state : seed) (params : gmap string pyval) : dispatched :=
  if negb (projection dpp) then failed AssertionError []
  else
    let size := params_get params "size" in
    let kernel :=
      if String.eqb (kernel_type dpp) "likelihood" then
        if negb (truthy size) then inl (ValueError, [])
        else match compute_L dpp with
             | Raise e => inl (e, [CalledComputeL])
             | Ok L => inr (L, [CalledComputeL])
             end
      else match compute_K dpp with
           | Raise e => inl (e, [CalledComputeK])
           | Ok K => inr (K, [CalledComputeK])
           end in
    match kernel with
    | inl (e, evs) => failed e evs
    | inr (kernel, evs) =>
        let mode := params_get params "mode" in
        let selected :=
          if hermitian dpp
          then select_orthogonal_projection_kernel_sampler mode
          else select_generic_projection_kernel_sampler mode in
        match selected with
        | Raise e => failed e evs
        | Ok f =>
            let o := invoke f kernel size random_state in
            {| d_result := o_result o;
               d_events :=
                 evs ++ [Selected (hermitian dpp) mode f; Invoked f size];
               d_draws := o_draws o |}
        end
    end.
End Dispatch.

(** * Vocabulary of the specification *)

(** The transposition of [j] and [t]. *)
Definition transposition (j t i : nat) : nat :=
  if decide (i = j) then t else if decide (i = t) then j else i.

Section Vocabulary.
Context {T : Type} `{DType T}.

(** The product of two matrices whose rows have length [n], and the
    identity. *)
Definition mat_mul (n : nat) (A B : matrix T) : matrix T :=
  (λ row, vec_mat row B n) <$> A.

Definition identity (n : nat) : matrix T :=
  (λ r, (λ c, if decide (r = c) then dt_of_real 1%Qc else dt_zero)
          <$> seq 0 n) <$> seq 0 n.

(** [B] is the inverse of the [n]x[n] matrix [G]. *)
Definition is_inverse (n : nat) (B G : matrix T) : Prop :=
  mat_mul n B G = identity n ∧ mat_mul n G B = identity n.

(** The Gram block [K[Y, Y]] of the indices [Y], in their order. *)
Definition gram (K : matrix T) (Y : list nat) : matrix T :=
  (λ r, (λ c, get2 K r c) <$> Y) <$> Y.

(** A projection kernel: [K² = K]. *)
Definition projection_kernel (N : nat) (K : matrix T) : Prop :=
  square N K ∧ mat_mul N K K = K.

(** A Hermitian matrix. *)
Definition hermitian_matrix (N : nat) (A : matrix T) : Prop :=
  square N A ∧ ∀ r c, r < N → c < N → get2 A r c = dt_conj (get2 A c r).

(** The [N]x[N] matrix with entries [f r c]. *)
Definition tabulate (N : nat) (f : nat → nat → T) : matrix T :=
  (λ r, (λ c, f r c) <$> seq 0 N) <$> seq 0 N.

(** [P·A·Pᵀ] for the permutation matrix [P] that exchanges [j] and [t]:
    its entry [(r, c)] is the entry of [A] at the exchanged indices. *)
Definition permuted (j t N : nat) (A : matrix T) : matrix T :=
  tabulate N (λ r c, get2 A (transposition j t r) (transposition j t c)).

(** The Hermitian matrix that the diagonal and the lower triangle of [B]
    stand for. *)
Definition hermitian_completion (N : nat) (B : matrix T) : matrix T :=
  tabulate N (λ r c, if decide (c ≤ r) then get2 B r c
                     else dt_conj (get2 B c r)).
End Vocabulary.

(** * Concrete inputs

    Kernels, generators and DPP objects at which the properties below are
    evaluated. *)

Definition qz (n : Z) : Qc := Q2Qc (inject_Z n).
Definition qq (a : Z) (b : positive) : Qc := Q2Qc (a # b).

(** A square root that is exact on the squares of rationals (and rounds
    numerator and denominator down elsewhere). *)
Definition sqrt_of_square (x : Qc) : Qc :=
  Q2Qc (Z.sqrt (Qnum x) # Pos.sqrt (Qden x)).

(** A generator whose every draw is [u]. *)
Definition constant_rng (u : Qc) : RandomState :=
  {| rs_stream := λ _, u; rs_pos := 0 |}.

(** The rank-1 projection [v·vᵗ] with [v = [1, 0, 0]ᵗ]. *)
Definition K_e0 : matrix Qc :=
  [ [qz 1; qz 0; qz 0];
    [qz 0; qz 0; qz 0];
    [qz 0; qz 0; qz 0] ].

(** The 3x3 identity, a projection of rank 3. *)
Definition K_id3 : matrix Qc :=
  [ [qz 1; qz 0; qz 0];
    [qz 0; qz 1; qz 0];
    [qz 0; qz 0; qz 1] ].

(** A projection of rank 3 that is not symmetric ([K² = K] is
    [K_oblique_projection] below). *)
Definition K_oblique : matrix Qc :=
  [ [qz 1;    qz 0; qz 0; qz 0];
    [qz (-2); qz 1; qz 0; qz (-1)];
    [qz 0;    qz 0; qz 1; qz 0];
    [qz (-2); qz 0; qz 0; qz 0] ].

(** A complex Hermitian projection of rank 2: [v·v*] for
    [v = [3/5, 4i/5]], and a 1 on the diagonal. *)
Definition K_complex : matrix complex :=
  [ [Cx (qq 9 25) (qz 0);  Cx (qz 0) (qq (-12) 25); Cx (qz 0) (qz 0)];
    [Cx (qz 0) (qq 12 25); Cx (qq 16 25) (qz 0);    Cx (qz 0) (qz 0)];
    [Cx (qz 0) (qz 0);     Cx (qz 0) (qz 0);        Cx (qz 1) (qz 0)] ].

(** The symmetric projection [I - u·uᵗ/5], [u] the all-ones vector: rank 4. *)
Definition K_centering : matrix Qc :=
  tabulate 5 (λ r c, if decide (r = c) then qq 4 5 else qq (-1) 5).

(** The generator that always draws 0, and the state a sampler called on
    [K_oblique] with it starts from. *)
Definition w_oblique : World Qc :=
  {| w_K := K_oblique; w_rng := constant_rng (qz 0) |}.

(** The entries of a rational matrix as reduced fractions. *)
Definition entries_Q (A : matrix Qc) : list (list Q) := map (map this) A.

Definition entries_C (A : matrix complex) : list (list (Q * Q)) :=
  map (map (λ z, (this (re z), this (im z)))) A.

Definition dpp_L_e0 : FiniteDPP :=
  {| projection := true; kernel_type := "likelihood"; hermitian := true;
     compute_L := Ok K_e0; compute_K := Ok K_e0 |}.

(** * What a run does to the generator

    Used to state what a call consumes. *)

(** The generator of [w'] is the one of [w] after [n] more draws, and the
    array [K] is untouched. *)
Definition advanced {T : Type} (n : nat) (w w' : World T) : Prop :=
  w_K w' = w_K w
  ∧ rs_stream (w_rng w') = rs_stream (w_rng w)
  ∧ rs_pos (w_rng w') = rs_pos (w_rng w) + n.

(** * [dppy/utils.py]

    The helpers of [dppy.utils] that work on arrays of numbers.  Arrays
    are [float64] arrays, in exact arithmetic as above: infinities and nan
    are not represented. *)

(** ** [elementary_symmetric_polynomials] *)

(** [for m in range(0, n): E[i, m + 1] = E[i, m] + x[m] * E[i - 1, m]] *)
Definition esp_row (x : list Qc) (i : nat) (E : matrix Qc) : matrix Qc :=
  foldl (λ E m, set2 E i (S m)
                 (get2 E i m + x !!! m * get2 E (i - 1)%nat m)%Qc)
        E (seq 0 (length x)).

(** [k] is a Python integer and [x] a 1-D array.  [np.zeros] refuses a
    negative dimension with [ValueError]; [E[0, :] = 1.0] raises
    [IndexError] on an array without rows. *)
Definition elementary_symmetric_polynomials (k : Z) (x : list Qc)
  : result (matrix Qc) :=
  let n := length x in
  if bool_decide (k + 1 < 0)%Z then Raise ValueError
  else
    let E := zeros (Z.to_nat (k + 1)) (S n) in
    if bool_decide (k + 1 = 0)%Z then Raise IndexError
    else
      let E := <[0 := replicate (S n) 1%Qc]> E in
      Ok (foldl (λ E i, esp_row x i E) E (seq 1 (Z.to_nat k))).

(** The elementary symmetric polynomial [e_i] of the numbers [l]: the sum,
    over the choices of [i] positions of [l], of the product of the numbers
    at these positions. *)
Fixpoint sublists {A : Type} (l : list A) : list (list A) :=
  match l with
  | [] => [[]]
  | a :: l' => sublists l' ++ (cons a <$> sublists l')
  end.

Definition prodQc (l : list Qc) : Qc := foldr Qcmult 1%Qc l.

Definition esp (i : nat) (l : list Qc) : Qc :=
  sumQc (prodQc <$> filter (λ s, length s = i) (sublists l)).

(** The shape of a 2-D array. *)
Definition has_shape {A : Type} (R C : nat) (E : list (list A)) : Prop :=
  length E = R ∧ ∀ row, row ∈ E → length row = C.

(** ** The checks on the entries of an array

    [array] is [None] or an array, here the list of its entries whatever
    its shape; [tol] is the tolerance the caller passed. *)

(** The [float64] nearest to [1e-8], the default of [tol]. *)
Definition tol_default : Qc :=
  Q2Qc (3022314549036573 # 302231454903657293676544).

(** [eq_0_or_1 = np.abs(array) <= tol], then
    [np.logical_xor(eq_0_or_1, np.abs(1 - array) <= tol, out=eq_0_or_1)] *)
Definition check_equal_to_O_or_1 (array : option (list Qc)) (tol : Qc)
  : result unit :=
  match array with
  | None => Ok ()
  | Some a =>
      let eq_0_or_1 := (λ v, Qcleb (Qcabs v) tol) <$> a in
      let eq_0_or_1 :=
        zip_with xorb eq_0_or_1 ((λ v, Qcleb (Qcabs (1 - v)) tol) <$> a) in
      if forallb id eq_0_or_1 then Ok () else Raise ValueError
  end.

(** [in_01 = -tol <= array], then
    [np.logical_and(in_01, array <= 1.0 + tol, out=in_01)] *)
Definition check_in_01 (array : option (list Qc)) (tol : Qc) : result unit :=
  match array with
  | None => Ok ()
  | Some a =>
      let in_01 := (λ v, Qcleb (- tol) v) <$> a in
      let in_01 := zip_with andb in_01 ((λ v, Qcleb v (1 + tol)) <$> a) in
      if forallb id in_01 then Ok () else Raise ValueError
  end.

(** [np.all(array >= -tol)] *)
Definition check_geq_0 (array : option (list Qc)) (tol : Qc) : result unit :=
  match array with
  | None => Ok ()
  | Some a =>
      if forallb id ((λ v, Qcleb (- tol) v) <$> a) then Ok ()
      else Raise ValueError
  end.

(** ** [kernel_minimum] *)

(** [np.minimum] on two numbers. *)
Definition np_minimum (a b : Qc) : Qc := if Qcleb a b then a else b.

(** [x] and [y] are arrays, given by their entries in the order of
    [ravel()]; the two checks run with the default tolerance. *)
Definition kernel_minimum (x : list Qc) (y : option (list Qc))
  : result (matrix Qc) :=
  match check_in_01 (Some x) tol_default with
  | Raise e => Raise e
  | Ok _ =>
      let checked :=
        match y with
        | None => Ok x
        | Some y =>
            match check_in_01 (Some y) tol_default with
            | Raise e => Raise e
            | Ok _ => Ok y
            end
        end in
      match checked with
      | Raise e => Raise e
      | Ok y => Ok ((λ a, np_minimum a <$> y) <$> x)
      end
  end.

(** ** [stable_filter] and [stable_invert_root] *)

(** [np.finfo(np.float64).eps] *)
Definition float64_eps : Qc := Q2Qc (1 # 4503599627370496).

(** [np.abs(v).max()] of a non-empty array. *)
Definition max_abs (v : list Qc) : Qc :=
  foldr (λ a m, if Qcleb m (Qcabs a) then Qcabs a else m) 0%Qc v.

(** [thresh = np.abs(eigenval).max() * max(eigenval.shape) * eps] for a
    non-empty 1-D array. *)
Definition stable_thresh (eigenval : list Qc) : Qc :=
  (max_abs eigenval * Qc_of_Z (Z.of_nat (length eigenval)) * float64_eps)%Qc.

(** [eigenvec] is a 2-D array given by its rows (an array without rows has
    shape [(0, 0)]), [eigenval] a 1-D array.  [np.isclose(a, 0.0,
    atol=thresh)] is [abs(a) <= thresh + rtol * abs(0.0)]; [.max()] of an
    empty array raises [ValueError]; [m = sum(stable_eig)] counts the
    [True] entries. *)
Definition stable_filter (eigenvec : matrix Qc) (eigenval : list Qc)
  : result (matrix Qc * list Qc) :=
  let n := length eigenvec in
  if negb (forallb (λ row, length row =? n) eigenvec
           && (length eigenval =? n))
  then Raise ValueError
  else if bool_decide (eigenval = []) then Raise ValueError
  else
    let thresh := stable_thresh eigenval in
    let stable_eig :=
      (λ a, negb (Qcleb (Qcabs a) thresh)) <$> eigenval in
    if existsb (λ a, Qcleb a (- thresh)) eigenval then Raise ValueError
    else
      let m := length (filter (λ b : bool, b = true) stable_eig) in
      let eigenvec_thin := select stable_eig <$> eigenvec in
      let eigenval_thin := select stable_eig eigenval in
      if negb (forallb (λ row, length row =? m) eigenvec_thin
               && (length eigenvec_thin =? n)
               && (length eigenval_thin =? m))
      then Raise ValueError
      else Ok (eigenvec_thin, eigenval_thin).

(** [(1 / np.sqrt(eigenval_thin)).reshape(-1, 1)] is a column. *)
Definition stable_invert_root (np_sqrt : Qc → Qc) (eigenvec : matrix Qc)
    (eigenval : list Qc) : result (matrix Qc * matrix Qc) :=
  match stable_filter eigenvec eigenval with
  | Raise e => Raise e
  | Ok (eigenvec_thin, eigenval_thin) =>
      Ok (eigenvec_thin, (λ a, [(1 / np_sqrt a)%Qc]) <$> eigenval_thin)
  end.

(** ** The checks on matrices

    [matrix] is [None] or a 2-D [float64] array given by its rows (an array
    without rows has shape [(0, 0)]); [indices] is [None] or a list of
    Python integers. *)

(** [matrix.shape != (matrix.shape[0],) * 2] *)
Definition check_square (matrix : option (matrix Qc)) : result unit :=
  match matrix with
  | None => Ok ()
  | Some A =>
      if forallb (λ row, length row =? length A) A then Ok ()
      else Raise ValueError
  end.

(** An index into an axis of length [n]: negative indices count from the
    end. *)
Definition py_index (n : nat) (i : Z) : option nat :=
  if bool_decide (0 ≤ i < Z.of_nat n)%Z then Some (Z.to_nat i)
  else if bool_decide (- Z.of_nat n ≤ i < 0)%Z
       then Some (Z.to_nat (Z.of_nat n + i))
       else None.

(** [idx = range(min(10, n)) if indices is None else indices], as used to
    index an axis of length [n]: an index out of bounds raises
    [IndexError]. *)
Definition checked_indices (n : nat) (indices : option (list Z))
  : result (list nat) :=
  match indices with
  | None => Ok (seq 0 (10 `min` n))
  | Some l =>
      match mapM (py_index n) l with
      | Some idx => Ok idx
      | None => Raise IndexError
      end
  end.

(** The [float64] nearest to [1e-5]: the defaults of [np.allclose] are this
    [rtol] and [atol = 1e-8]. *)
Definition rtol_default : Qc :=
  Q2Qc (5902958103587057 # 590295810358705651712).

(** [np.isclose(a, b)]: [abs(a - b) <= atol + rtol * abs(b)] *)
Definition isclose (a b : Qc) : bool :=
  Qcleb (Qcabs (a - b)) (tol_default + rtol_default * Qcabs b)%Qc.

(** [np.allclose(A, B)] for two 2-D arrays of the same shape. *)
Definition allclose (A B : matrix Qc) : bool :=
  forallb id (zip_with (λ a b, forallb id (zip_with isclose a b)) A B).

(** [M = matrix[np.ix_(idx, idx)]], then
    [np.allclose(M.conj().T, M)]. *)
Definition check_hermitian (matrix : option (matrix Qc))
    (indices : option (list Z)) : result unit :=
  match check_square matrix with
  | Raise e => Raise e
  | Ok _ =>
      match matrix with
      | None => Ok ()
      | Some A =>
          match checked_indices (length A) indices with
          | Raise e => Raise e
          | Ok idx =>
              let M := gram A idx in
              let Mt := (λ r, (λ c, get2 A c r) <$> idx) <$> idx in
              if allclose Mt M then Ok () else Raise ValueError
          end
      end
  end.

(** [np.allclose(M[idx, :].dot(M[:, idx]), M[np.ix_(idx, idx)])] *)
Definition check_projection (matrix : option (matrix Qc))
    (indices : option (list Z)) : result unit :=
  match check_square matrix with
  | Raise e => Raise e
  | Ok _ =>
      match matrix with
      | None => Ok ()
      | Some A =>
          match checked_indices (length A) indices with
          | Raise e => Raise e
          | Ok idx =>
              let MM := (λ r, (λ c, dot (A !!! r) (column A c)) <$> idx)
                          <$> idx in
              if allclose MM (gram A idx) then Ok () else Raise ValueError
          end
      end
  end.

(** [matrix.shape[1]] *)
Definition ncols {A : Type} (M : list (list A)) : nat :=
  from_option length 0 (head M).

(** [U = matrix[:, idx]], then
    [np.allclose(U.T.dot(U), np.eye(len(idx)))]: no square shape is asked
    for, and [idx] indexes the columns. *)
Definition check_orthonormal_columns (matrix : option (matrix Qc))
    (indices : option (list Z)) : result unit :=
  match matrix with
  | None => Ok ()
  | Some M =>
      match checked_indices (ncols M) indices with
      | Raise e => Raise e
      | Ok idx =>
          let UtU := (λ a, (λ b, dot (column M a) (column M b)) <$> idx)
                       <$> idx in
          if allclose UtU (identity (length idx)) then Ok ()
          else Raise ValueError
      end
  end.

(** ** [kernel_linear] and [kernel_polynomial] *)

(** The points [x]: one point as a 1-D array, or several as the rows of a
    2-D array. *)
Inductive points : Type :=
| Point (v : list Qc)
| Points (rows : matrix Qc).

(** [np.atleast_2d] *)
Definition atleast_2d (x : points) : matrix Qc :=
  match x with
  | Point v => [v]
  | Points rows => rows
  end.

(** [x.dot(y.T)]: the inner dimensions have to agree. *)
Definition kernel_linear (x : points) (y : option points)
  : result (matrix Qc) :=
  let x := atleast_2d x in
  let y := from_option atleast_2d x y in
  if ncols x =? ncols y
  then Ok ((λ r, (λ s, dot r s) <$> y) <$> x)
  else Raise ValueError.

(** [np.power(kernel_xy, p, out=kernel_xy)] for a degree [p] that is a
    non-negative integer. *)
Definition kernel_polynomial (x : points) (y : option points) (p : nat)
  : result (matrix Qc) :=
  match kernel_linear x y with
  | Raise e => Raise e
  | Ok kernel_xy =>
      Ok ((λ row : list Qc, (λ v, v ^ p)%Qc <$> row) <$> kernel_xy)
  end.

(** * Properties *)

(** ** The dispatcher *)

Lemma select_orthogonal_spec (mode : string) :
  select_orthogonal_projection_kernel_sampler (PyStr mode) =
  Ok (if decide (mode = "Chol") then Chol
      else if decide (mode = "Schur") then Schur
      else GS).
Proof.
  unfold select_orthogonal_projection_kernel_sampler, samplers_item.
  rewrite lookup_insert_eq. cbn [samplers_get]. f_equal.
  destruct (decide (mode = "GS")) as [->|Hgs].
  { rewrite lookup_insert_eq. reflexivity. }
  rewrite lookup_insert_ne by congruence.
  destruct (decide (mode = "Chol")) as [->|Hchol].
  { rewrite lookup_insert_eq. reflexivity. }
  rewrite lookup_insert_ne by congruence.
  destruct (decide (mode = "Schur")) as [->|Hschur].
  { rewrite lookup_singleton_eq. reflexivity. }
  rewrite lookup_singleton_ne by congruence. reflexivity.
Qed.

Lemma select_generic_spec (mode : pyval) :
  select_generic_projection_kernel_sampler mode = Ok Schur.
Proof.
  unfold select_generic_projection_kernel_sampler, samplers_item.
  rewrite lookup_singleton_eq. f_equal.
  destruct mode as [| | |s]; try reflexivity.
  cbn [samplers_get].
  destruct (decide (s = "Schur")) as [->|Hs].
  - rewrite lookup_singleton_eq. reflexivity.
  - rewrite lookup_singleton_ne by congruence. reflexivity.
Qed.

(** C8.  For every mode string the selector for Hermitian kernels returns,
    without raising, the sampler named by the mode when the mode is "GS",
    "Chol" or "Schur" and the GS sampler for every other string; the
    selector for non-Hermitian kernels returns the Schur sampler for every
    mode string; and whenever [projection_kernel_sampler] invokes a sampler,
    it is the one its selector returned: on a non-Hermitian kernel never GS
    nor Chol. *)
Theorem dispatcher_mode_selection :
  ∀ mode : string,
    (select_orthogonal_projection_kernel_sampler (PyStr mode) =
       Ok (if decide (mode = "Chol") then Chol
           else if decide (mode = "Schur") then Schur
           else GS))
    ∧ select_generic_projection_kernel_sampler (PyStr mode) = Ok Schur
    ∧ ∀ (T : Type) (dT : DType T) (np_sqrt : Qc → Qc) (dpp : FiniteDPP)
        (random_state : seed) (params : gmap string pyval) f size,
        params !! "mode" = Some (PyStr mode) →
        Invoked f size ∈
          d_events (projection_kernel_sampler np_sqrt dpp random_state params) →
        f = if hermitian dpp
            then (if decide (mode = "Chol") then Chol
                  else if decide (mode = "Schur") then Schur
                  else GS)
            else Schur.
Proof.
  intros mode. split; [apply select_orthogonal_spec|].
  split; [apply select_generic_spec|].
  intros T dT np_sqrt dpp random_state params f size Hmode.
  assert (Hm : params_get params "mode" = PyStr mode).
  { unfold params_get. by rewrite Hmode. }
  unfold projection_kernel_sampler. rewrite Hm.
  rewrite select_orthogonal_spec, select_generic_spec.
  destruct (projection dpp); cbn [negb]; [|cbn; by intros ?%elem_of_nil].
  intros Hin.
  repeat case_match; simplify_eq; cbn in Hin;
    rewrite ?elem_of_app, ?elem_of_cons, ?elem_of_nil in Hin;
    intuition (try discriminate; congruence).
Qed.

Lemma mandatory_size_check {T : Type} `{DType T} (np_sqrt : Qc → Qc)
    (dpp : FiniteDPP) (random_state : seed) (params : gmap string pyval) :
  projection dpp = true →
  kernel_type dpp = "likelihood" →
  truthy (params_get params "size") = false →
  projection_kernel_sampler np_sqrt dpp random_state params =
  {| d_result := Raise ValueError; d_events := []; d_draws := 0 |}.
Proof.
  intros Hproj Hkind Hfalsy. unfold projection_kernel_sampler.
  rewrite Hproj, Hkind, Hfalsy. reflexivity.
Qed.

(** C7.  For a projection DPP (the dispatcher asserts [dpp.projection]
    first) whose kernel type is "likelihood", called without a [size]
    keyword, [projection_kernel_sampler] raises [ValueError]; it has then
    called neither [compute_L] nor a selector nor a sampler, and no random
    draw was consumed. *)
Theorem likelihood_without_size_raises :
  ∀ (T : Type) (dT : DType T) (np_sqrt : Qc → Qc) (dpp : FiniteDPP)
    (random_state : seed) (params : gmap string pyval),
    projection dpp = true →
    kernel_type dpp = "likelihood" →
    params !! "size" = None →
    projection_kernel_sampler np_sqrt dpp random_state params =
    {| d_result := Raise ValueError; d_events := []; d_draws := 0 |}.
Proof.
  intros T dT np_sqrt dpp random_state params Hproj Hkind Hsize.
  apply mandatory_size_check; [done..|].
  unfold params_get. by rewrite Hsize.
Qed.

(** C10.  For a projection DPP whose kernel type is "likelihood", a [size]
    keyword holding a falsy value ([0] in particular) makes
    [projection_kernel_sampler] raise the very [ValueError] that a call
    without [size] raises, again before [compute_L], a selector or a sampler
    is called. *)
Theorem likelihood_falsy_size_raises :
  ∀ (T : Type) (dT : DType T) (np_sqrt : Qc → Qc) (dpp : FiniteDPP)
    (random_state : seed) (params : gmap string pyval) (v : pyval),
    projection dpp = true →
    kernel_type dpp = "likelihood" →
    params !! "size" = Some v →
    truthy v = false →
    projection_kernel_sampler np_sqrt dpp random_state params =
      {| d_result := Raise ValueError; d_events := []; d_draws := 0 |}
    ∧ projection_kernel_sampler np_sqrt dpp random_state params =
      projection_kernel_sampler np_sqrt dpp random_state
                                (delete "size" params).
Proof.
  intros T dT np_sqrt dpp random_state params v Hproj Hkind Hsize Hfalsy.
  assert (Hhere : truthy (params_get params "size") = false).
  { unfold params_get. by rewrite Hsize. }
  assert (Hgone : truthy (params_get (delete "size" params) "size") = false).
  { unfold params_get. by rewrite lookup_delete_eq. }
  rewrite !mandatory_size_check by done. done.
Qed.

Lemma likelihood_without_size_raises_witness :
  projection dpp_L_e0 = true
  ∧ kernel_type dpp_L_e0 = "likelihood"
  ∧ (∅ : gmap string pyval) !! "size" = None
  ∧ projection_kernel_sampler sqrt_of_square dpp_L_e0
      (SeedInstance (constant_rng (qz 0))) ∅ =
    {| d_result := Raise ValueError; d_events := []; d_draws := 0 |}.
Proof.
  split; [reflexivity|]. split; [reflexivity|]. split; [reflexivity|].
  apply (likelihood_without_size_raises Qc float64 sqrt_of_square dpp_L_e0
           (SeedInstance (constant_rng (qz 0))) ∅);
    reflexivity.
Defined.

Lemma likelihood_falsy_size_raises_witness :
  truthy (PyInt 0) = false
  ∧ projection_kernel_sampler sqrt_of_square dpp_L_e0
      (SeedInstance (constant_rng (qz 0))) {[ "size" := PyInt 0 ]} =
    {| d_result := Raise ValueError; d_events := []; d_draws := 0 |}.
Proof.
  split; [reflexivity|].
  apply (likelihood_falsy_size_raises Qc float64 sqrt_of_square dpp_L_e0
           (SeedInstance (constant_rng (qz 0))) {[ "size" := PyInt 0 ]}
           (PyInt 0));
    reflexivity.
Defined.

(** ** Requests larger than the rank *)

Lemma oversize_assertion {T : Type} `{DType T} (np_sqrt : Qc → Qc)
    (size : Z) (w : World T) :
  (rank_of (w_K w) < size)%Z →
  chol_sampler np_sqrt (Some size) w = (Raise AssertionError, w)
  ∧ gs_sampler np_sqrt (Some size) w = (Raise AssertionError, w)
  ∧ schur_sampler (Some size) w = (Raise AssertionError, w).
Proof.
  intros Hsize.
  unfold chol_sampler, chol_loop, gs_sampler, gs_loop, schur_sampler,
    schur_loop, bind, read_K, raise.
  cbn [default from_option id].
  rewrite !bool_decide_eq_false_2 by lia. done.
Qed.

(** C6.  When the requested size exceeds [round(trace(K))], each of the
    three samplers raises (the [AssertionError] of [assert size <= rank], or
    the [ValueError] of [check_random_state] when the random source itself
    is invalid) instead of returning a sample; no uniform draw has been
    consumed, the caller's array [K] is as it was, and the body of the
    sampler leaves the whole state it runs against untouched: the failure
    precedes the creation of any working array. *)
Theorem oversize_request_fails_atomically :
  ∀ (T : Type) (dT : DType T) (np_sqrt : Qc → Qc) (K : matrix T) (size : Z)
    (random_state : seed),
    (rank_of K < size)%Z →
    let failure :=
      {| o_result :=
           match check_random_state random_state with
           | Ok _ => Raise AssertionError
           | Raise e => Raise e
           end;
         o_K := K; o_draws := 0 |} in
    orthogonal_projection_kernel_sampler_Chol np_sqrt K (Some size)
      random_state = failure
    ∧ orthogonal_projection_kernel_sampler_GS np_sqrt K (Some size)
        random_state = failure
    ∧ projection_kernel_sampler_Schur K (Some size) random_state = failure
    ∧ ∀ rng : RandomState,
        let w := {| w_K := K; w_rng := rng |} in
        chol_sampler np_sqrt (Some size) w = (Raise AssertionError, w)
        ∧ gs_sampler np_sqrt (Some size) w = (Raise AssertionError, w)
        ∧ schur_sampler (Some size) w = (Raise AssertionError, w).
Proof.
  intros T dT np_sqrt K size random_state Hsize failure.
  assert (Hbody : ∀ rng : RandomState,
             let w := {| w_K := K; w_rng := rng |} in
             chol_sampler np_sqrt (Some size) w = (Raise AssertionError, w)
             ∧ gs_sampler np_sqrt (Some size) w = (Raise AssertionError, w)
             ∧ schur_sampler (Some size) w = (Raise AssertionError, w)).
  { intros rng w. by apply oversize_assertion. }
  unfold orthogonal_projection_kernel_sampler_Chol,
    orthogonal_projection_kernel_sampler_GS, projection_kernel_sampler_Schur,
    call_sampler, failure.
  destruct (check_random_state random_state) as [rng|e]; [|done].
  destruct (Hbody rng) as (-> & -> & ->). cbn.
  rewrite Nat.sub_diag. done.
Qed.

Lemma oversize_request_fails_atomically_witness :
  (rank_of K_e0 < 2)%Z
  ∧ orthogonal_projection_kernel_sampler_Chol sqrt_of_square K_e0 (Some 2%Z)
      (SeedInstance (constant_rng (qz 0))) =
    {| o_result := Raise AssertionError; o_K := K_e0; o_draws := 0 |}
  ∧ orthogonal_projection_kernel_sampler_GS sqrt_of_square K_e0 (Some 2%Z)
      (SeedInstance (constant_rng (qz 0))) =
    {| o_result := Raise AssertionError; o_K := K_e0; o_draws := 0 |}
  ∧ projection_kernel_sampler_Schur K_e0 (Some 2%Z)
      (SeedInstance (constant_rng (qz 0))) =
    {| o_result := Raise AssertionError; o_K := K_e0; o_draws := 0 |}.
Proof.
  assert (Hrank : (rank_of K_e0 < 2)%Z) by (vm_compute; reflexivity).
  split; [exact Hrank|].
  pose proof (oversize_request_fails_atomically Qc float64 sqrt_of_square
                K_e0 2%Z (SeedInstance (constant_rng (qz 0))) Hrank) as Hf.
  cbn zeta in Hf. destruct Hf as (Hc & Hg & Hs & _).
  split; [exact Hc|]. split; [exact Hg|exact Hs].
Defined.

(** ** Evaluating exact numbers *)

Lemma Qc_this_inj (x y : Qc) : this x = this y → x = y.
Proof. intros E. apply Qc_is_canon. rewrite E. reflexivity. Qed.

Lemma complex_this_inj (x y : complex) :
  this (re x) = this (re y) → this (im x) = this (im y) → x = y.
Proof.
  destruct x, y. cbn. intros ?%Qc_this_inj ?%Qc_this_inj. by subst.
Qed.

Lemma map_map_inj {A B : Type} (f : A → B) (X Y : list (list A)) :
  (∀ x y, f x = f y → x = y) →
  map (map f) X = map (map f) Y → X = Y.
Proof.
  intros Hf. revert Y.
  induction X as [|a X IH]; intros [|b Y] E; try discriminate; [done|].
  cbn in E. injection E as Eab EXY. f_equal; [|by apply IH].
  clear -Eab Hf. revert b Eab.
  induction a as [|x a IHa]; intros [|y b] E; try discriminate; [done|].
  cbn in E. injection E as Exy Eab. f_equal; [by apply Hf|by apply IHa].
Qed.

Lemma entries_Q_inj (A B : matrix Qc) : entries_Q A = entries_Q B → A = B.
Proof. apply map_map_inj, Qc_this_inj. Qed.

Lemma entries_C_inj (A B : matrix complex) :
  entries_C A = entries_C B → A = B.
Proof.
  apply map_map_inj. intros x y E. injection E as Ere Eim.
  by apply complex_this_inj.
Qed.

Ltac qc_eval := apply Qc_this_inj; vm_compute; reflexivity.
Ltac qc_differ :=
  let E := fresh in
  intros E; apply (f_equal this) in E; vm_compute in E; discriminate E.
Ltac mat_eval := apply entries_Q_inj; vm_compute; reflexivity.
Ltac mat_differ :=
  let E := fresh in
  intros E; apply (f_equal entries_Q) in E; vm_compute in E; discriminate E.

Ltac row_eval :=
  match goal with
  | |- ?a = ?b => cut ([a] = [b]); [congruence|mat_eval]
  end.

Lemma square_concrete {T : Type} (N : nat) (A : list (list T)) :
  length A = N →
  forallb (λ row, length row =? N) A = true →
  length A = N ∧ ∀ row, row ∈ A → length row = N.
Proof.
  intros HA Hrows. split; [done|]. intros row Hin.
  rewrite forallb_forall in Hrows. apply Nat.eqb_eq, Hrows.
  by apply list_elem_of_In.
Qed.

(** ** Weighted choice *)

Lemma searchsorted_right_below (cdf : list Qc) (u : Qc) :
  (u < 1)%Qc →
  forallb (λ c, Qcleb 1 c) cdf = true →
  searchsorted_right cdf u = 0.
Proof.
  intros Hu. induction cdf as [|c cdf IH]; [done|].
  cbn [forallb searchsorted_right]. intros [Hc Hrest]%andb_prop.
  rewrite (IH Hrest).
  assert (Hle : Qcleb c u = false); [|by rewrite Hle].
  unfold Qcleb in *. apply not_true_is_false. intros Hcu.
  apply Qle_bool_iff in Hc, Hcu.
  apply (Qclt_not_le u 1 Hu). unfold Qcle. eapply Qle_trans; eassumption.
Qed.

(** When the whole mass of [p] sits on the first candidate, [choice]
    returns it whatever the draw in [0, 1) is. *)
Lemma choice_certain {T : Type} (a : list nat) (p : list Qc) (x : nat)
    (w : World T) :
  a !! 0 = Some x →
  negb (length p =? length a) = false →
  existsb (λ x, Qcltb x 0) p = false →
  Qcltb atol (Qcabs (sumQc p - 1)) = false →
  forallb (λ c, Qcleb 1 c)
          ((λ x, x / default 0 (last (cumsum p)))%Qc <$> cumsum p) = true →
  (rs_stream (w_rng w) (rs_pos (w_rng w)) < 1)%Qc →
  choice a p w = (Ok x, snd (draw w)).
Proof.
  intros Ha Hlen Hneg Hsum Hcdf Hu. unfold choice.
  rewrite bool_decide_eq_false_2 by (intros ->; discriminate).
  rewrite Hlen, Hneg, Hsum. unfold bind. cbn [draw fst snd].
  rewrite searchsorted_right_below by done. rewrite Ha. done.
Qed.

(** ** The rank-1 scenario *)

(** C9.  On the 3x3 rank-1 kernel [v·vᵗ], [v = [1, 0, 0]ᵗ], called without
    a size, each of the three samplers returns exactly [[0]] for every
    random source, that is every valid [random_state] whose generator draws
    in [0, 1) (and, for the two samplers that take square roots, whatever
    [np.sqrt] returns); the selection weights of the only step are
    [[1, 0, 0]]. *)
Theorem rank_one_kernel_returns_singleton :
  ∀ (np_sqrt : Qc → Qc) (random_state : seed) (rng : RandomState),
    check_random_state random_state = Ok rng →
    uniform_draws rng →
    o_result (orthogonal_projection_kernel_sampler_Chol np_sqrt K_e0 None
                random_state) = Ok [0]
    ∧ o_result (orthogonal_projection_kernel_sampler_GS np_sqrt K_e0 None
                  random_state) = Ok [0]
    ∧ o_result (projection_kernel_sampler_Schur K_e0 None random_state)
      = Ok [0]
    ∧ weights (rank_of K_e0) 0 (dt_real <$> diagonal K_e0)
      = [qz 1; qz 0; qz 0].
Proof.
  intros np_sqrt random_state rng Hrs Hu.
  assert (Hrank : rank_of K_e0 = 1%Z) by (vm_compute; reflexivity).
  specialize (Hu (rs_pos rng)) as [_ Hu].
  unfold orthogonal_projection_kernel_sampler_Chol,
    orthogonal_projection_kernel_sampler_GS, projection_kernel_sampler_Schur,
    call_sampler.
  rewrite Hrs. split; [|split; [|split]].
  - unfold chol_sampler, chol_loop. unfold bind at 1 2. unfold read_K.
    cbn [w_K]. rewrite Hrank. cbn [default from_option id].
    rewrite bool_decide_eq_true_2 by lia.
    change (py_range 1) with [0].
    cbn [for_in]. unfold chol_body at 1. unfold bind.
    erewrite (choice_certain _ _ 0);
      [|reflexivity|vm_compute; reflexivity..|exact Hu].
    rewrite bool_decide_eq_true_2 by lia. reflexivity.
  - unfold gs_sampler, gs_loop. unfold bind at 1 2. unfold read_K.
    cbn [w_K]. rewrite Hrank. cbn [default from_option id].
    rewrite bool_decide_eq_true_2 by lia.
    rewrite bool_decide_eq_false_2 by lia.
    change (py_range 1) with [0].
    cbn [for_in]. unfold gs_body at 1. unfold bind, read_K.
    erewrite (choice_certain _ _ 0);
      [|reflexivity|vm_compute; reflexivity..|exact Hu].
    rewrite bool_decide_eq_true_2 by lia. reflexivity.
  - unfold schur_sampler, schur_loop. unfold bind at 1 2. unfold read_K.
    cbn [w_K]. rewrite Hrank. cbn [default from_option id].
    rewrite bool_decide_eq_true_2 by lia.
    rewrite bool_decide_eq_false_2 by lia.
    change (py_range 1) with [0].
    cbn [for_in]. unfold schur_body at 1. unfold bind, read_K.
    erewrite (choice_certain _ _ 0);
      [|reflexivity|vm_compute; reflexivity..|exact Hu].
    reflexivity.
  - row_eval.
Qed.

Lemma constant_rng_uniform : uniform_draws (constant_rng (qq 1 2)).
Proof. intros n. split; vm_compute; [discriminate 1|reflexivity]. Defined.

Lemma rank_one_kernel_returns_singleton_witness :
  check_random_state (SeedInstance (constant_rng (qq 1 2)))
    = Ok (constant_rng (qq 1 2))
  ∧ uniform_draws (constant_rng (qq 1 2))
  ∧ o_result (orthogonal_projection_kernel_sampler_Chol sqrt_of_square K_e0
                None (SeedInstance (constant_rng (qq 1 2)))) = Ok [0]
  ∧ o_result (orthogonal_projection_kernel_sampler_GS sqrt_of_square K_e0
                None (SeedInstance (constant_rng (qq 1 2)))) = Ok [0]
  ∧ o_result (projection_kernel_sampler_Schur K_e0 None
                (SeedInstance (constant_rng (qq 1 2)))) = Ok [0]
  ∧ weights (rank_of K_e0) 0 (dt_real <$> diagonal K_e0)
    = [qz 1; qz 0; qz 0].
Proof.
  split; [reflexivity|]. split; [exact constant_rng_uniform|].
  exact (rank_one_kernel_returns_singleton sqrt_of_square
           (SeedInstance (constant_rng (qq 1 2))) (constant_rng (qq 1 2))
           eq_refl constant_rng_uniform).
Defined.

(** ** The second step of the Schur sampler *)

Lemma K_oblique_projection : projection_kernel 4 K_oblique.
Proof. split; [by apply square_concrete|mat_eval]. Qed.

(** C1.  The block [K1[:2, :2]] stored at step [it = 1] is not always the
    inverse of the 2x2 Gram block of the two selected indices.  On the
    non-symmetric projection [K_oblique] (default size, every draw 0) the
    run selects [i = 0] then [j = 1]; after step [it = 1] the block holds
    [[-1/3, -2/3], [-2/3, -1/3]], which is not the inverse of the Gram block
    [[K[i,i], K[i,j]], [K[j,i], K[j,j]]] = [[1, 0], [-2, 1]]: that inverse
    is [[1, 0], [2, 1]].  The source writes [K[j, i]] where the inverse has
    [K[i, j]]. *)
Theorem schur_second_step_block_not_inverse :
  projection_kernel 4 K_oblique
  ∧ ∃ s : schur_state,
      (schur_loop None (Some 2) w_oblique).1 = Ok s
      ∧ take 2 (sc_sample s) = [0; 1]
      ∧ block 2 (K1 s) = [ [qq (-1) 3; qq (-2) 3]; [qq (-2) 3; qq (-1) 3] ]
      ∧ ¬ is_inverse 2 (block 2 (K1 s)) (gram K_oblique [0; 1])
      ∧ is_inverse 2 [ [qz 1; qz 0]; [qz 2; qz 1] ] (gram K_oblique [0; 1]).
Proof.
  split; [exact K_oblique_projection|].
  eexists. split; [vm_compute; reflexivity|].
  split; [reflexivity|].
  split; [mat_eval|].
  split.
  - intros [E _]. revert E. mat_differ.
  - split; mat_eval.
Qed.

(** On symmetric kernels the closed form of step [it = 1] is the inverse. *)

Lemma schur_second_block (K : matrix Qc) (i j n : nat) (k1 : matrix Qc) :
  square n k1 → 2 ≤ n →
  let det := (get2 K i i * get2 K j j - get2 K j i * get2 K j i)%Qc in
  block 2 (schur_second K i j k1) =
  [ [ (get2 K j j / det)%Qc; (- get2 K j i / det)%Qc ];
    [ (- get2 K j i / det)%Qc; (get2 K i i / det)%Qc ] ].
Proof.
  intros [Hlen Hrows] Hn det.
  destruct k1 as [|r0 [|r1 rest]]; cbn in Hlen; try lia.
  assert (H0 : length r0 = n) by (apply Hrows; set_solver).
  assert (H1 : length r1 = n) by (apply Hrows; set_solver).
  destruct r0 as [|a [|b r0]]; cbn in H0; try lia.
  destruct r1 as [|c [|d r1]]; cbn in H1; try lia.
  reflexivity.
Qed.

Lemma schur_second_inverse_when_symmetric (K : matrix Qc) (i j n : nat)
    (k1 : matrix Qc) :
  square n k1 → 2 ≤ n →
  get2 K i j = get2 K j i →
  (get2 K i i * get2 K j j - get2 K j i * get2 K j i)%Qc ≠ 0%Qc →
  is_inverse 2 (block 2 (schur_second K i j k1)) (gram K [i; j]).
Proof.
  intros Hk1 Hn Hsym Hdet.
  rewrite (schur_second_block K i j n) by done.
  unfold is_inverse, mat_mul, vec_mat, gram, identity, dot, dt_sum, column.
  cbn. rewrite Hsym.
  split; repeat f_equal; repeat case_decide; try lia; field; exact Hdet.
Qed.

(** ** The sum of the residuals *)

(** C2.  The residuals of the un-selected indices do not always sum to
    [rank - it].  In the Schur sampler on the non-symmetric projection
    [K_oblique], whose trace is exactly 3 (default size, every draw 0), at
    the start of step [it = 2] the un-selected indices are 2
    and 3 and [schur] holds 1 and 4/3 there: the sum is 7/3, not
    [rank - it = 1]; the selection weights sum to 7/3, not 1, and
    [rng.choice] rejects them, so the sampler raises [ValueError] instead of
    returning a sample.  The cause is the wrong block [K1[:2, :2]] of step
    [it = 1]. *)
Theorem schur_residuals_miss_rank_minus_it :
  projection_kernel 4 K_oblique
  ∧ dt_real (trace K_oblique) = qz 3
  ∧ rank_of K_oblique = 3%Z
  ∧ (∃ s : schur_state,
       (schur_loop None (Some 2) w_oblique).1 = Ok s
       ∧ masked (sc_rem s) = [2; 3]
       ∧ select (sc_rem s) (schur s) = [qz 1; qq 4 3]
       ∧ sumQc (select (sc_rem s) (schur s)) = qq 7 3
       ∧ sumQc (select (sc_rem s) (schur s)) ≠ Qc_of_Z (3 - 2)
       ∧ sumQc (weights 3 2 (select (sc_rem s) (schur s))) ≠ qz 1)
  ∧ o_result (projection_kernel_sampler_Schur K_oblique None
                (SeedInstance (constant_rng (qz 0)))) = Raise ValueError.
Proof.
  split; [exact K_oblique_projection|].
  split; [qc_eval|].
  split; [vm_compute; reflexivity|].
  split; [|vm_compute; reflexivity].
  eexists. split; [vm_compute; reflexivity|].
  split; [reflexivity|].
  split; [row_eval|].
  split; [qc_eval|].
  split; qc_differ.
Qed.

(** On a symmetric projection the same sampler keeps the sum of the
    residuals at [rank - it]: on [K_centering] (every draw 1/2) the sums at
    the start of steps 0 to 3 are 4, 3, 2 and 1, and after the Woodbury
    step [it = 2] the block [K1[:3, :3]] is the inverse of the Gram block of
    the three selected indices. *)
Lemma schur_residuals_on_symmetric_kernel :
  let w := {| w_K := K_centering; w_rng := constant_rng (qq 1 2) |} in
  let residual_sum n :=
    match (schur_loop None (Some n) w).1 with
    | Ok s => Some (this (sumQc (select (sc_rem s) (schur s))))
    | Raise _ => None
    end in
  rank_of K_centering = 4%Z
  ∧ residual_sum <$> [0; 1; 2; 3] = [Some 4; Some 3; Some 2; Some 1]%Q
  ∧ (∃ s, (schur_loop None (Some 3) w).1 = Ok s
          ∧ take 3 (sc_sample s) = [2; 3; 1]
          ∧ mat_mul 3 (block 3 (K1 s)) (gram K_centering [2; 3; 1])
            = identity 3)
  ∧ o_result (projection_kernel_sampler_Schur K_centering None
                (SeedInstance (constant_rng (qq 1 2)))) = Ok [2; 3; 1; 4].
Proof.
  cbn zeta. split; [vm_compute; reflexivity|].
  split; [vm_compute; reflexivity|].
  split; [|vm_compute; reflexivity].
  eexists. split; [vm_compute; reflexivity|].
  split; [reflexivity|mat_eval].
Qed.

(** ** Complex kernels in the Gram-Schmidt sampler *)

Lemma K_complex_hermitian : hermitian_matrix 3 K_complex.
Proof.
  split; [by apply square_concrete|].
  intros r c Hr Hc.
  destruct r as [|[|[|r]]]; try lia; destruct c as [|[|[|c]]]; try lia;
    apply complex_this_inj; vm_compute; reflexivity.
Qed.

Lemma K_complex_projection : projection_kernel 3 K_complex.
Proof.
  split; [by apply square_concrete|].
  apply entries_C_inj. vm_compute. reflexivity.
Qed.

(** C4.  The Gram-Schmidt sampler does not complete its steps on a complex
    Hermitian projection, and its deflation is not by the squared
    magnitude.  On [K_complex] (default size 2, every draw 0) step 0
    selects [j = 0] and forms [c[1, 0] = 4i/5]; the deflation
    [norm_2[rem] -= c[rem, it] ** 2] then subtracts a complex array from a
    [float64] one in place, which numpy refuses: the sampler raises
    [TypeError] and returns no sample.  What the statement computes is the
    plain square [c[1, 0] ** 2 = -16/25], not the squared magnitude
    [|c[1, 0]|² = 16/25] that the Cholesky sampler subtracts. *)
Theorem gs_complex_kernel_raises :
  hermitian_matrix 3 K_complex
  ∧ projection_kernel 3 K_complex
  ∧ (∀ np_sqrt : Qc → Qc,
       o_result (orthogonal_projection_kernel_sampler_GS np_sqrt
                   K_complex None (SeedInstance (constant_rng (qz 0))))
       = Raise TypeError)
  ∧ let rem := [false; true; true] in
    let c := gs_normalise sqrt_of_square rem 0 (qq 9 25)
               (gs_new_column K_complex rem 0 0 (zeros 3 2)) in
    get2 c 1 0 = Cx (qz 0) (qq 4 5)
    ∧ cmul (get2 c 1 0) (get2 c 1 0) = Cx (qq (-16) 25) (qz 0)
    ∧ (re (get2 c 1 0) * re (get2 c 1 0)
       + im (get2 c 1 0) * im (get2 c 1 0))%Qc = qq 16 25
    ∧ gs_deflate rem 0 c [qq 9 25; qq 16 25; qz 1] = Raise TypeError.
Proof.
  split; [exact K_complex_hermitian|].
  split; [exact K_complex_projection|].
  split; [intros np_sqrt; vm_compute; reflexivity|].
  cbn zeta.
  split; [apply complex_this_inj; vm_compute; reflexivity|].
  split; [apply complex_this_inj; vm_compute; reflexivity|].
  split; [qc_eval|reflexivity].
Qed.

(** ** Runs that return *)

Lemma bind_ok {T A B : Type} (m : M T A) (k : A → M T B) (w w' : World T)
    (b : B) :
  bind m k w = (Ok b, w') →
  ∃ a w1, m w = (Ok a, w1) ∧ k a w1 = (Ok b, w').
Proof.
  unfold bind. destruct (m w) as [[a|e] w1]; [eauto|discriminate].
Qed.

Lemma call_sampler_ok {T : Type} (body : M T (list nat)) (K : matrix T)
    (random_state : seed) (sample : list nat) :
  o_result (call_sampler body K random_state) = Ok sample →
  ∃ rng w', body {| w_K := K; w_rng := rng |} = (Ok sample, w').
Proof.
  unfold call_sampler.
  destruct (check_random_state random_state) as [rng|e]; [|discriminate].
  destruct (body _) as [r w'] eqn:Hbody. cbn. intros ->. eauto.
Qed.

(** [choice] returns one of the candidates. *)
Lemma choice_elem_of {T : Type} (a : list nat) (p : list Qc) (w w' : World T)
    (x : nat) :
  choice a p w = (Ok x, w') → x ∈ a.
Proof.
  unfold choice.
  repeat (case_match; [intros; discriminate|]).
  intros (u & w1 & _ & Hres)%bind_ok.
  destruct (a !! _) as [y|] eqn:Hy; [|discriminate].
  injection Hres as -> _. by eapply list_elem_of_lookup_2.
Qed.

(** A loop over [range(n)] started at iteration [start]: an invariant of
    the iterations that continue, and a property of every state the loop
    can end in. *)
Lemma for_in_invariant {T St : Type} (body : nat → St → M T (ctl St))
    (Inv : nat → St → Prop) (Q : St → Prop) (n : nat) :
  (∀ k s w c w', k < n → Inv k s → body k s w = (Ok c, w') →
     match c with Continue s' => Inv (S k) s' | Break s' => Q s' end) →
  (∀ s, Inv n s → Q s) →
  ∀ len start s w s' w',
    start + len = n → Inv start s →
    for_in body (seq start len) s w = (Ok s', w') → Q s'.
Proof.
  intros Hstep Hend len.
  induction len as [|len IH]; intros start s w s' w' Hn Hinv; cbn [seq for_in].
  - unfold ret. intros [= <- _]. apply Hend.
    by replace n with start by lia.
  - intros (c & w1 & Hbody & Hrest)%bind_ok.
    pose proof (Hstep start s w c w1 ltac:(lia) Hinv Hbody) as Hc.
    destruct c as [s1|s1].
    + eapply (IH (S start)); [lia|exact Hc|exact Hrest].
    + unfold ret in Hrest. by injection Hrest as <- _.
Qed.

Lemma elem_of_masked (rem : list bool) (x : nat) :
  x ∈ masked rem ↔ rem !! x = Some true.
Proof.
  unfold masked. rewrite list_elem_of_omap. split.
  - intros (o & Ho & Hx). apply elem_of_lookup_imap in Ho as (i & b & -> & Hb).
    destruct b; cbn in Hx; by simplify_eq.
  - intros Hx. exists (Some x). split; [|done].
    apply elem_of_lookup_imap. by exists x, true.
Qed.

(** *** Samplers that keep a mask of the remaining indices *)

(** The first [k] entries of [sample] are pairwise distinct and are masked
    out of [rem]. *)
Definition selected_prefix (N n k : nat) (rem : list bool)
    (sample : list nat) : Prop :=
  length rem = N ∧ length sample = n ∧ NoDup (take k sample)
  ∧ ∀ x, x ∈ take k sample → rem !! x = Some false.

Lemma selected_prefix_init (N n : nat) :
  selected_prefix N n 0 (replicate N true) (replicate n 0).
Proof.
  unfold selected_prefix. rewrite !length_replicate, take_0.
  repeat split; [constructor|]. by intros x ?%elem_of_nil.
Qed.

Lemma selected_prefix_step (N n k j : nat) (rem : list bool)
    (sample : list nat) :
  selected_prefix N n k rem sample → k < n → j ∈ masked rem →
  selected_prefix N n (S k) (<[j := false]> rem) (<[k := j]> sample).
Proof.
  intros (Hrem & Hlen & Hnodup & Hmask) Hk Hj%elem_of_masked.
  assert (Hjlt : j < length rem) by by eapply lookup_lt_Some.
  assert (Htake : take (S k) (<[k := j]> sample) = take k sample ++ [j]).
  { rewrite (take_S_r _ _ j) by (apply list_lookup_insert_eq; lia).
    by rewrite take_insert_ge. }
  unfold selected_prefix. rewrite !length_insert, Htake.
  repeat split; [done..| |].
  - apply NoDup_app. repeat split; [done| |apply NoDup_singleton].
    intros x Hx ->%list_elem_of_singleton. apply Hmask in Hx. congruence.
  - intros x [Hx| ->%list_elem_of_singleton]%elem_of_app.
    + rewrite list_lookup_insert_ne; [by apply Hmask|].
      intros ->. apply Hmask in Hx. congruence.
    + by apply list_lookup_insert_eq.
Qed.

Lemma selected_prefix_full (N n : nat) (rem : list bool) (sample : list nat) :
  selected_prefix N n n rem sample →
  length sample = n ∧ NoDup sample ∧ ∀ x, x ∈ sample → x < N.
Proof.
  intros (Hrem & Hlen & Hnodup & Hmask).
  rewrite take_ge in Hnodup, Hmask by lia.
  repeat split; [done..|]. intros x Hx%Hmask.
  rewrite <- Hrem. by eapply lookup_lt_Some.
Qed.

Lemma gs_body_ok {T : Type} `{DType T} (np_sqrt : Qc → Qc) (rank size : Z)
    (it : nat) (s : gs_state) (w w' : World T) (c : ctl gs_state) :
  gs_body np_sqrt rank size it s w = (Ok c, w') →
  ∃ j, j ∈ masked (gs_rem s)
       ∧ gs_rem (ctl_state c) = <[j := false]> (gs_rem s)
       ∧ gs_sample (ctl_state c) = <[it := j]> (gs_sample s)
       ∧ (is_break c = true → Z.of_nat it = (size - 1)%Z).
Proof.
  unfold gs_body.
  intros (K & w1 & _ & (j & w2 & Hj%choice_elem_of & Hrest)%bind_ok)%bind_ok.
  exists j. split; [done|]. revert Hrest.
  case_bool_decide as Hlast.
  - unfold ret. by intros [= <- _].
  - destruct (gs_deflate _ _ _ _) as [n2|e]; [|discriminate].
    unfold ret. intros [= <- _]. cbn. repeat split; [done..|discriminate].
Qed.

Lemma schur_body_ok {T : Type} `{DType T} (rank size : Z) (it : nat)
    (s : schur_state) (w w' : World T) (c : ctl schur_state) :
  schur_body rank size it s w = (Ok c, w') →
  ∃ j, j ∈ masked (sc_rem s)
       ∧ sc_rem (ctl_state c) = <[j := false]> (sc_rem s)
       ∧ sc_sample (ctl_state c) = <[it := j]> (sc_sample s)
       ∧ (is_break c = true → (size - 1 ≤ Z.of_nat it)%Z).
Proof.
  unfold schur_body.
  intros (K & w1 & _ & (j & w2 & Hj%choice_elem_of & Hrest)%bind_ok)%bind_ok.
  exists j. split; [done|]. revert Hrest. unfold ret.
  repeat case_decide; try case_bool_decide; intros [= <- _]; cbn;
    repeat split; try done; try discriminate; lia.
Qed.

Lemma gs_sampler_ok {T : Type} `{DType T} (np_sqrt : Qc → Qc)
    (size : option Z) (w w' : World T) (sample : list nat) :
  gs_sampler np_sqrt size w = (Ok sample, w') →
  Z.of_nat (length sample) = default (rank_of (w_K w)) size
  ∧ NoDup sample ∧ ∀ x, x ∈ sample → x < length (w_K w).
Proof.
  unfold gs_sampler. intros (s & w1 & Hloop & Hret)%bind_ok.
  unfold ret in Hret. injection Hret as <- _.
  unfold gs_loop in Hloop.
  apply bind_ok in Hloop as (K & w0 & HK & Hloop).
  unfold read_K in HK. injection HK as <- <-.
  set (sz := default (rank_of (w_K w)) size) in *.
  case_bool_decide as Hrank; [|discriminate].
  case_bool_decide as Hneg; [discriminate|].
  cbn [from_option] in Hloop. unfold py_range in Hloop.
  set (n := Z.to_nat sz) in *.
  enough (Hfull : selected_prefix (length (w_K w)) n n (gs_rem s)
                                  (gs_sample s)).
  { apply selected_prefix_full in Hfull as (Hlen & ? & ?).
    repeat split; [|done..]. rewrite Hlen. unfold n. lia. }
  revert Hloop.
  apply (for_in_invariant _
           (λ k s, selected_prefix (length (w_K w)) n k (gs_rem s)
                                   (gs_sample s))
           (λ s, selected_prefix (length (w_K w)) n n (gs_rem s)
                                 (gs_sample s)) n);
    [|done|lia|apply selected_prefix_init].
  intros k s0 wa c wb Hk Hinv (j & Hj & Hrem & Hsample & Hbreak)%gs_body_ok.
  pose proof (selected_prefix_step _ _ _ _ _ _ Hinv Hk Hj) as Hnext.
  rewrite <- Hrem, <- Hsample in Hnext.
  destruct c as [s1|s1]; [by cbn in *|cbn in *].
  assert (Hn : n = S k) by (specialize (Hbreak eq_refl); unfold n in *; lia).
  rewrite Hn in Hnext |- *. done.
Qed.

Lemma schur_sampler_ok {T : Type} `{DType T} (size : option Z)
    (w w' : World T) (sample : list nat) :
  schur_sampler size w = (Ok sample, w') →
  Z.of_nat (length sample) = default (rank_of (w_K w)) size
  ∧ NoDup sample ∧ ∀ x, x ∈ sample → x < length (w_K w).
Proof.
  unfold schur_sampler. intros (s & w1 & Hloop & Hret)%bind_ok.
  unfold ret in Hret. injection Hret as <- _.
  unfold schur_loop in Hloop.
  apply bind_ok in Hloop as (K & w0 & HK & Hloop).
  unfold read_K in HK. injection HK as <- <-.
  set (sz := default (rank_of (w_K w)) size) in *.
  case_bool_decide as Hrank; [|discriminate].
  case_bool_decide as Hneg; [discriminate|].
  cbn [from_option] in Hloop. unfold py_range in Hloop.
  set (n := Z.to_nat sz) in *.
  enough (Hfull : selected_prefix (length (w_K w)) n n (sc_rem s)
                                  (sc_sample s)).
  { apply selected_prefix_full in Hfull as (Hlen & ? & ?).
    repeat split; [|done..]. rewrite Hlen. unfold n. lia. }
  revert Hloop.
  apply (for_in_invariant _
           (λ k s, selected_prefix (length (w_K w)) n k (sc_rem s)
                                   (sc_sample s))
           (λ s, selected_prefix (length (w_K w)) n n (sc_rem s)
                                 (sc_sample s)) n);
    [|done|lia|apply selected_prefix_init].
  intros k s0 wa c wb Hk Hinv
         (j & Hj & Hrem & Hsample & Hbreak)%schur_body_ok.
  pose proof (selected_prefix_step _ _ _ _ _ _ Hinv Hk Hj) as Hnext.
  rewrite <- Hrem, <- Hsample in Hnext.
  destruct c as [s1|s1]; [by cbn in *|cbn in *].
  assert (Hn : n = S k) by (specialize (Hbreak eq_refl); unfold n in *; lia).
  rewrite Hn in Hnext |- *. done.
Qed.

(** *** The permuted ground set of the Cholesky sampler *)

Lemma swap_at_lookup {A : Type} `{Inhabited A} (j t i : nat) (x : list A) :
  j < length x → t < length x →
  swap_at j t x !! i =
  x !! (if decide (i = t) then j else if decide (i = j) then t else i).
Proof.
  intros Hj Ht. unfold swap_at.
  destruct (decide (i = t)) as [->|Hit].
  { rewrite list_lookup_insert_eq by (rewrite length_insert; lia).
    symmetry. by apply list_lookup_lookup_total_lt. }
  rewrite list_lookup_insert_ne by done.
  destruct (decide (i = j)) as [->|Hij].
  { rewrite list_lookup_insert_eq by lia.
    symmetry. by apply list_lookup_lookup_total_lt. }
  by rewrite list_lookup_insert_ne.
Qed.

Lemma swap_at_length {A : Type} `{Inhabited A} (j t : nat) (x : list A) :
  length (swap_at j t x) = length x.
Proof. unfold swap_at. by rewrite !length_insert. Qed.

Lemma swap_at_NoDup {A : Type} `{Inhabited A} (j t : nat) (x : list A) :
  j < length x → t < length x → NoDup x → NoDup (swap_at j t x).
Proof.
  intros Hj Ht Hx. apply NoDup_alt. intros a b v.
  rewrite !swap_at_lookup by done. intros Ha Hb.
  pose proof (NoDup_lookup _ _ _ _ Hx Ha Hb).
  repeat case_decide; lia.
Qed.

Lemma swap_at_elem_of {A : Type} `{Inhabited A} (j t : nat) (x : list A)
    (v : A) :
  j < length x → t < length x → v ∈ swap_at j t x → v ∈ x.
Proof.
  intros Hj Ht (i & Hi)%list_elem_of_lookup_1.
  rewrite swap_at_lookup in Hi by done. by eapply list_elem_of_lookup_2.
Qed.

Lemma chol_body_ok {T : Type} `{DType T} (np_sqrt : Qc → Qc) (N : nat)
    (rank size : Z) (j : nat) (s : chol_state) (w w' : World T)
    (c : ctl chol_state) :
  chol_body np_sqrt N rank size j s w = (Ok c, w') →
  ∃ t, j ≤ t < N
       ∧ ground_set (ctl_state c) = swap_at j t (ground_set s)
       ∧ (is_break c = true → Z.of_nat j = (size - 1)%Z).
Proof.
  unfold chol_body.
  intros (t & w1 & Ht%choice_elem_of & Hrest)%bind_ok.
  apply elem_of_seq in Ht. exists t. split; [lia|]. revert Hrest.
  unfold ret. case_bool_decide; intros [= <- _]; cbn;
    repeat split; try done; discriminate.
Qed.

Lemma chol_sampler_ok {T : Type} `{DType T} (np_sqrt : Qc → Qc)
    (size : option Z) (w w' : World T) (sample : list nat) :
  (0 ≤ default (rank_of (w_K w)) size)%Z →
  chol_sampler np_sqrt size w = (Ok sample, w') →
  Z.of_nat (length sample) = default (rank_of (w_K w)) size
  ∧ NoDup sample ∧ ∀ x, x ∈ sample → x < length (w_K w).
Proof.
  intros Hpos. unfold chol_sampler.
  intros ([sz s] & w1 & Hloop & Hret)%bind_ok.
  unfold ret in Hret. injection Hret as <- _. cbn [fst snd].
  unfold chol_loop in Hloop.
  apply bind_ok in Hloop as (K & w0 & HK & Hloop).
  unfold read_K in HK. injection HK as <- <-.
  set (N := length (w_K w)) in *.
  case_bool_decide as Hrank; [|discriminate].
  apply bind_ok in Hloop as (s1 & w2 & Hloop & Hret).
  unfold ret in Hret. injection Hret as <- <- _.
  cbn [from_option] in Hloop. unfold py_range in Hloop.
  set (sz := default (rank_of (w_K w)) size) in *.
  set (n := Z.to_nat sz) in *.
  enough (Hend : n ≤ N ∧ length (ground_set s1) = N ∧ NoDup (ground_set s1)
                 ∧ ∀ x, x ∈ ground_set s1 → x < N).
  { destruct Hend as (Hn & Hlen & Hnodup & Hlt).
    unfold py_take. rewrite (proj2 (Z.leb_le 0 sz)) by done. fold n.
    repeat split.
    - rewrite length_take_le by lia. unfold n. lia.
    - eapply sublist_NoDup; [done|apply sublist_take].
    - intros x (i & Hi & _)%elem_of_take.
      eapply Hlt, list_elem_of_lookup_2, Hi. }
  revert Hloop.
  apply (for_in_invariant _
           (λ k s, k ≤ N ∧ length (ground_set s) = N ∧ NoDup (ground_set s)
                   ∧ ∀ x, x ∈ ground_set s → x < N)
           (λ s, n ≤ N ∧ length (ground_set s) = N ∧ NoDup (ground_set s)
                 ∧ ∀ x, x ∈ ground_set s → x < N) n);
    [|done|lia|].
  - intros k s0 wa c wb Hk (HkN & Hlen & Hnodup & Hlt)
           (t & Ht & Hgs & Hbreak)%chol_body_ok.
    assert (Hnext : S k ≤ N ∧ length (ground_set (ctl_state c)) = N
                    ∧ NoDup (ground_set (ctl_state c))
                    ∧ ∀ x, x ∈ ground_set (ctl_state c) → x < N).
    { rewrite Hgs, swap_at_length. repeat split; [lia|done| |].
      - apply swap_at_NoDup; [lia..|done].
      - intros x Hx%swap_at_elem_of; [by apply Hlt|lia..]. }
    destruct c as [s2|s2]; [by cbn in *|cbn in *].
    assert (Hn : n = S k)
      by (specialize (Hbreak eq_refl); unfold n in *; lia).
    rewrite Hn. done.
  - cbn. rewrite length_seq. repeat split; [lia|apply NoDup_seq|].
    intros x Hx%elem_of_seq. lia.
Qed.

(** C5.  Whenever a sampler returns a sample on a kernel [K] with [N] rows,
    the sample has exactly [size] entries, where [size] is the requested
    size, or [round(trace(K))] when none was requested; its entries are
    pairwise distinct and lie in [0, N).  The size is a count: for the
    Cholesky sampler, which slices [ground_set[:size]], it is taken
    non-negative, as the interface specifies (the other two samplers raise
    on a negative size and return nothing). *)
Theorem returned_sample_size_and_distinctness :
  ∀ (T : Type) (dT : DType T) (np_sqrt : Qc → Qc) (K : matrix T)
    (size : option Z) (random_state : seed) (sample : list nat),
    let k := default (rank_of K) size in
    let well_formed :=
      Z.of_nat (length sample) = k
      ∧ NoDup sample
      ∧ ∀ x, x ∈ sample → x < length K in
    ((0 ≤ k)%Z →
     o_result (orthogonal_projection_kernel_sampler_Chol np_sqrt K size
                 random_state) = Ok sample →
     well_formed)
    ∧ (o_result (orthogonal_projection_kernel_sampler_GS np_sqrt K size
                   random_state) = Ok sample →
       well_formed)
    ∧ (o_result (projection_kernel_sampler_Schur K size random_state)
         = Ok sample →
       well_formed).
Proof.
  intros T dT np_sqrt K size random_state sample k well_formed.
  unfold orthogonal_projection_kernel_sampler_Chol,
    orthogonal_projection_kernel_sampler_GS, projection_kernel_sampler_Schur.
  split; [|split].
  - intros Hk (rng & w' & Hrun)%call_sampler_ok.
    by apply chol_sampler_ok in Hrun.
  - intros (rng & w' & Hrun)%call_sampler_ok.
    by apply gs_sampler_ok in Hrun.
  - intros (rng & w' & Hrun)%call_sampler_ok.
    by apply schur_sampler_ok in Hrun.
Qed.

Lemma returned_sample_size_and_distinctness_witness :
  let rs := SeedInstance (constant_rng (qq 1 2)) in
  ((0 ≤ default (rank_of K_id3) (Some 2%Z))%Z
   ∧ o_result (orthogonal_projection_kernel_sampler_Chol sqrt_of_square
                 K_id3 (Some 2%Z) rs) = Ok [1; 2]
   ∧ o_result (orthogonal_projection_kernel_sampler_GS sqrt_of_square
                 K_id3 (Some 2%Z) rs) = Ok [1; 2]
   ∧ o_result (projection_kernel_sampler_Schur K_id3 (Some 2%Z) rs)
     = Ok [1; 2])
  ∧ Z.of_nat (length [1; 2]) = 2%Z
  ∧ NoDup [1; 2]
  ∧ ∀ x, x ∈ [1; 2] → x < length K_id3.
Proof.
  intros rs.
  assert (Hk : (0 ≤ default (rank_of K_id3) (Some 2%Z))%Z)
    by (vm_compute; discriminate 1).
  assert (Hchol : o_result (orthogonal_projection_kernel_sampler_Chol
                              sqrt_of_square K_id3 (Some 2%Z) rs)
                  = Ok [1; 2]) by (vm_compute; reflexivity).
  assert (Hgs : o_result (orthogonal_projection_kernel_sampler_GS
                            sqrt_of_square K_id3 (Some 2%Z) rs)
                = Ok [1; 2]) by (vm_compute; reflexivity).
  assert (Hschur : o_result (projection_kernel_sampler_Schur K_id3
                               (Some 2%Z) rs)
                   = Ok [1; 2]) by (vm_compute; reflexivity).
  split; [by repeat split|].
  destruct (returned_sample_size_and_distinctness Qc float64 sqrt_of_square
              K_id3 (Some 2%Z) rs [1; 2]) as (Hc & _ & _).
  exact (Hc Hk Hchol).
Defined.
(** ** The Hermitian swap *)

Ltac index_cases :=
  repeat case_decide; destruct_and?; subst; try done;
  try (exfalso; intuition lia).

Section HermitianSwap.
Context {T : Type} `{DType T}.

Lemma square_row (N : nat) (A : matrix T) (r : nat) :
  square N A → r < N → length (A !!! r) = N.
Proof.
  intros [Hlen Hrows] Hr.
  destruct (lookup_lt_is_Some_2 A r ltac:(lia)) as [row Hrow].
  rewrite (list_lookup_total_correct _ _ _ Hrow).
  apply Hrows. by eapply list_elem_of_lookup_2.
Qed.

Lemma square_imap (N : nat) (A : matrix T) (f : nat → list T → list T) :
  square N A → (∀ r row, length (f r row) = length row) →
  square N (imap f A).
Proof.
  intros [Hlen Hrows] Hf. split; [by rewrite length_imap|].
  intros row (i & y & -> & Hy)%elem_of_lookup_imap.
  rewrite Hf. apply Hrows. by eapply list_elem_of_lookup_2.
Qed.

Lemma square_alter (N : nat) (A : matrix T) (f : list T → list T) (i : nat) :
  square N A → (∀ row, length (f row) = length row) →
  square N (alter f i A).
Proof.
  intros [Hlen Hrows] Hf. split; [by rewrite length_alter|].
  intros row (k & Hk)%list_elem_of_lookup_1.
  rewrite list_lookup_alter in Hk. case_decide; subst.
  - apply fmap_Some in Hk as (y & Hy & ->). rewrite Hf.
    apply Hrows. by eapply list_elem_of_lookup_2.
  - apply Hrows. by eapply list_elem_of_lookup_2.
Qed.

Lemma get2_imap (A : matrix T) (f : nat → list T → list T) (r c : nat) :
  r < length A → get2 (imap f A) r c = f r (A !!! r) !!! c.
Proof.
  intros Hr. unfold get2.
  destruct (lookup_lt_is_Some_2 A r Hr) as [row Hrow].
  rewrite (list_lookup_total_correct A r row Hrow).
  rewrite (list_lookup_total_correct (imap f A) r (f r row)); [done|].
  by rewrite list_lookup_imap, Hrow.
Qed.

Lemma get2_alter (A : matrix T) (f : list T → list T) (i r c : nat) :
  i < length A →
  get2 (alter f i A) r c =
  if decide (i = r) then f (A !!! r) !!! c else get2 A r c.
Proof.
  intros Hi. unfold get2. rewrite list_lookup_total_alter.
  index_cases.
Qed.

Lemma get2_set2 (N : nat) (A : matrix T) (i k r c : nat) (v : T) :
  square N A → i < N → k < N →
  get2 (set2 A i k v) r c =
  if decide (i = r ∧ k = c) then v else get2 A r c.
Proof.
  intros HA Hi Hk. unfold set2.
  rewrite get2_alter by (destruct HA; lia).
  destruct (decide (i = r)) as [->|Hne].
  - rewrite list_lookup_total_insert, (square_row N) by done.
    index_cases.
  - index_cases.
Qed.

Lemma square_set2 (N : nat) (A : matrix T) (i k : nat) (v : T) :
  square N A → square N (set2 A i k v).
Proof. intros HA. apply square_alter; [done|]. intros. apply length_insert. Qed.

Lemma imap_row (A : matrix T) (f : nat → list T → list T) (r : nat) :
  r < length A → imap f A !!! r = f r (A !!! r).
Proof.
  intros Hr.
  destruct (lookup_lt_is_Some_2 A r Hr) as [row Hrow].
  rewrite (list_lookup_total_correct A r row Hrow).
  apply list_lookup_total_correct. by rewrite list_lookup_imap, Hrow.
Qed.

Lemma imap_entry (row : list T) (g : nat → T → T) (c : nat) :
  c < length row → imap g row !!! c = g c (row !!! c).
Proof.
  intros Hc.
  destruct (lookup_lt_is_Some_2 row c Hc) as [x Hx].
  rewrite (list_lookup_total_correct row c x Hx).
  apply list_lookup_total_correct. by rewrite list_lookup_imap, Hx.
Qed.

Lemma bottom_swap_get (N : nat) (A : matrix T) (j t r c : nat) :
  square N A → j < N → t < N → r < N →
  get2 (bottom_swap j t A) r c =
  if decide (t < r) then get2 A r (transposition j t c) else get2 A r c.
Proof.
  intros HA Hj Ht Hr. unfold bottom_swap.
  rewrite get2_imap by (destruct HA; lia).
  case_decide; [|done].
  rewrite !list_lookup_total_insert, !length_insert, (square_row N) by done.
  unfold get2, transposition. index_cases.
Qed.

Lemma square_bottom_swap (N : nat) (A : matrix T) (j t : nat) :
  square N A → square N (bottom_swap j t A).
Proof.
  intros HA. apply square_imap; [done|]. intros r row.
  case_decide; [|done]. by rewrite !length_insert.
Qed.

Lemma inner_swap_get (N : nat) (A : matrix T) (j t r c : nat) :
  square N A → j < N → t < N → r < N → c < N →
  get2 (inner_swap j t A) r c =
  if decide (r = t ∧ j < c < t) then dt_conj (get2 A c j)
  else if decide (j < r < t ∧ c = j) then dt_conj (get2 A t r)
  else get2 A r c.
Proof.
  intros HA Hj Ht Hr Hc. unfold inner_swap.
  assert (Hlen : length A = N) by by destruct HA.
  rewrite get2_alter by (rewrite length_imap; lia).
  rewrite imap_row by lia.
  destruct (decide (t = r)) as [->|Hne].
  - rewrite decide_False by lia.
    rewrite imap_entry by (rewrite (square_row N); done).
    unfold get2. index_cases.
  - rewrite get2_imap by lia.
    case_decide.
    + rewrite list_lookup_total_insert, (square_row N) by done.
      unfold get2. index_cases.
    + unfold get2. index_cases.
Qed.

Lemma square_inner_swap (N : nat) (A : matrix T) (j t : nat) :
  square N A → square N (inner_swap j t A).
Proof.
  intros HA. apply square_alter; [|intros; apply length_imap].
  apply square_imap; [done|]. intros r row.
  case_decide; [|done]. by rewrite !length_insert.
Qed.

Lemma alter_overwrite_get (N : nat) (A : matrix T) (src : list T)
    (j i r c : nat) :
  square N A → i < N → r < N → c < N →
  get2 (alter (imap (λ c x, if decide (c < j) then src !!! c else x)) i A)
       r c =
  if decide (i = r ∧ c < j) then src !!! c else get2 A r c.
Proof.
  intros HA Hi Hr Hc.
  rewrite get2_alter by (destruct HA; lia).
  destruct (decide (i = r)) as [->|Hir].
  - rewrite imap_entry by (rewrite (square_row N); done).
    unfold get2. index_cases.
  - index_cases.
Qed.

Lemma left_swap_get (N : nat) (A : matrix T) (j t r c : nat) :
  square N A → j < N → t < N → r < N → c < N →
  get2 (left_swap j t A) r c =
  if decide (c < j) then get2 A (transposition j t r) c else get2 A r c.
Proof.
  intros HA Hj Ht Hr Hc. unfold left_swap.
  rewrite (alter_overwrite_get N);
    [|apply square_alter; [done|intros; apply length_imap]|done..].
  rewrite (alter_overwrite_get N) by done.
  unfold transposition, get2. index_cases.
Qed.

Lemma square_left_swap (N : nat) (A : matrix T) (j t : nat) :
  square N A → square N (left_swap j t A).
Proof.
  intros HA. unfold left_swap.
  apply square_alter; [|intros; apply length_imap].
  apply square_alter; [done|intros; apply length_imap].
Qed.
End HermitianSwap.

Section HermitianSwapMain.
Context {T : Type} `{DTypeLaws T}.

Lemma square_corner_swap (N : nat) (A : matrix T) (j t : nat) :
  square N A → square N (corner_swap j t A).
Proof. apply square_set2. Qed.

Lemma square_diagonal_swap (N : nat) (A : matrix T) (j t : nat) :
  square N A → square N (diagonal_swap j t A).
Proof. intros HA. by do 2 apply square_set2. Qed.

Lemma square_hermitian_swap (N : nat) (A : matrix T) (j t : nat) :
  square N A → square N (hermitian_swap j t A).
Proof.
  intros HA. apply square_left_swap, square_diagonal_swap,
    square_corner_swap, square_inner_swap, square_bottom_swap, HA.
Qed.

Lemma corner_swap_get (N : nat) (A : matrix T) (j t r c : nat) :
  square N A → j < N → t < N →
  get2 (corner_swap j t A) r c =
  if decide (t = r ∧ j = c) then dt_conj (get2 A t j) else get2 A r c.
Proof. intros HA Hj Ht. unfold corner_swap. by rewrite (get2_set2 N). Qed.

Lemma diagonal_swap_get (N : nat) (A : matrix T) (j t r c : nat) :
  square N A → j < N → t < N →
  get2 (diagonal_swap j t A) r c =
  if decide (t = r ∧ t = c) then dt_of_real (dt_real (get2 A j j))
  else if decide (j = r ∧ j = c) then dt_of_real (dt_real (get2 A t t))
  else get2 A r c.
Proof.
  intros HA Hj Ht. unfold diagonal_swap.
  rewrite (get2_set2 N) by (try apply square_set2; done).
  by rewrite (get2_set2 N).
Qed.

Lemma hermitian_diagonal (N : nat) (A : matrix T) (r : nat) :
  hermitian_matrix N A → r < N →
  dt_of_real (dt_real (get2 A r r)) = get2 A r r.
Proof.
  intros [_ HA] Hr. apply dt_real_fixed. symmetry. by apply HA.
Qed.

Lemma hermitian_swap_lower (N : nat) (A : matrix T) (j t r c : nat) :
  hermitian_matrix N A → j ≤ t → t < N → c ≤ r → r < N →
  get2 (hermitian_swap j t A) r c =
  get2 A (transposition j t r) (transposition j t c).
Proof.
  intros HA Hjt Ht Hcr Hr.
  pose proof HA as [Hsq Hherm].
  pose proof (square_bottom_swap N A j t Hsq) as H1.
  pose proof (square_inner_swap N _ j t H1) as H2.
  pose proof (square_corner_swap N _ j t H2) as H3.
  pose proof (square_diagonal_swap N _ j t H3) as H4.
  unfold hermitian_swap.
  rewrite (left_swap_get N) by (done || lia).
  unfold transposition.
  repeat case_decide; subst; try (exfalso; lia).
  all: rewrite (diagonal_swap_get N) by (done || lia).
  all: repeat case_decide; destruct_and?; subst; try (exfalso; lia).
  all: rewrite ?(corner_swap_get N) by (done || lia).
  all: repeat case_decide; destruct_and?; subst; try (exfalso; lia).
  all: rewrite ?(inner_swap_get N) by (done || lia).
  all: repeat case_decide; destruct_and?; subst; try (exfalso; lia).
  all: rewrite ?(bottom_swap_get N) by (done || lia).
  all: unfold transposition.
  all: repeat case_decide; destruct_and?; subst; try (exfalso; lia).
  all: try done.
  all: rewrite ?(hermitian_diagonal N) by (done || lia); try done.
  all: try (symmetry; apply Hherm; lia).
  rewrite <- (Hherm j j) by lia. by apply (hermitian_diagonal N).
Qed.

Lemma hermitian_swap_diagonal_real (N : nat) (A : matrix T) (j t r : nat) :
  hermitian_matrix N A → j ≤ t → t < N → r < N →
  dt_imag (get2 (hermitian_swap j t A) r r) = 0%Qc.
Proof.
  intros HA Hjt Ht Hr.
  rewrite (hermitian_swap_lower N) by (done || lia).
  rewrite <- (hermitian_diagonal N) by (done || unfold transposition;
                                         repeat case_decide; lia).
  apply dt_of_real_imag.
Qed.
End HermitianSwapMain.

#[export] Instance float64_laws : DTypeLaws Qc.
Proof. split; done. Qed.

#[export] Instance complex128_laws : DTypeLaws complex.
Proof.
  split.
  - intros [a b]. cbn. unfold cconj. cbn. by rewrite Qcopp_involutive.
  - intros [a b]. cbn. unfold cconj. cbn. intros [= Hb]. f_equal.
    assert (Hsum : (b + b = 0)%Qc) by (rewrite <- Hb at 1; ring).
    assert (Hmul : ((1 + 1) * b = 0)%Qc) by (rewrite <- Hsum; ring).
    apply Qcmult_integral in Hmul as [Hmul|Hmul]; [discriminate Hmul|done].
  - done.
Qed.

Section Tabulate.
Context {T : Type} `{DType T}.

Lemma get2_tabulate (N : nat) (f : nat → nat → T) (r c : nat) :
  r < N → c < N → get2 (tabulate N f) r c = f r c.
Proof.
  intros Hr Hc. unfold get2, tabulate.
  rewrite (list_lookup_total_correct _ r ((λ c, f r c) <$> seq 0 N)).
  - apply list_lookup_total_correct.
    by rewrite list_lookup_fmap, lookup_seq_lt.
  - by rewrite list_lookup_fmap, lookup_seq_lt.
Qed.

Lemma square_tabulate (N : nat) (f : nat → nat → T) : square N (tabulate N f).
Proof.
  unfold tabulate. split; [by rewrite length_fmap, length_seq|].
  intros row (r & -> & _)%list_elem_of_fmap.
  by rewrite length_fmap, length_seq.
Qed.

Lemma tabulate_ext (N : nat) (f g : nat → nat → T) :
  (∀ r c, r < N → c < N → f r c = g r c) → tabulate N f = tabulate N g.
Proof.
  intros Hfg. unfold tabulate.
  apply list_fmap_ext. intros i r [-> Hr]%lookup_seq.
  apply list_fmap_ext. intros k c [-> Hc]%lookup_seq.
  by apply Hfg.
Qed.
End Tabulate.

Lemma transposition_lt (j t N i : nat) :
  j < N → t < N → i < N → transposition j t i < N.
Proof. unfold transposition. intros. repeat case_decide; lia. Qed.

Lemma transposition_involutive (j t i : nat) :
  transposition j t (transposition j t i) = i.
Proof. unfold transposition. repeat case_decide; lia. Qed.

(** C3.  For a Hermitian [N]x[N] matrix [A] and [j <= t < N], the five
    sub-swaps of the Cholesky sampler leave a square array that agrees with
    [P·A·Pᵀ] ([P] exchanging [j] and [t]) on the diagonal and on the whole
    lower triangle, the entries the sampler reads afterwards (rows [j] and
    [t] left of column [j] included); its diagonal is real; and the
    Hermitian matrix which that diagonal and lower triangle stand for is
    [P·A·Pᵀ] itself, which is Hermitian. *)
Theorem hermitian_swap_conjugates_by_transposition :
  ∀ (T : Type) (dT : DType T) (laws : DTypeLaws T) (N : nat) (A : matrix T)
    (j t : nat),
    hermitian_matrix N A → j ≤ t → t < N →
    let B := hermitian_swap j t A in
    square N B
    ∧ (∀ r c, c ≤ r → r < N →
         get2 B r c = get2 (permuted j t N A) r c)
    ∧ (∀ r, r < N → dt_imag (get2 B r r) = 0%Qc)
    ∧ hermitian_completion N B = permuted j t N A
    ∧ hermitian_matrix N (permuted j t N A).
Proof.
  intros T dT laws N A j t HA Hjt Ht B.
  pose proof HA as [Hsq Hherm].
  split; [by apply square_hermitian_swap|].
  split.
  { intros r c Hcr Hr. unfold permuted.
    rewrite get2_tabulate by lia. by apply (hermitian_swap_lower N). }
  split; [intros r Hr; by apply (hermitian_swap_diagonal_real N)|].
  split.
  - apply tabulate_ext. intros r c Hr Hc. case_decide.
    + by apply (hermitian_swap_lower N).
    + unfold B. rewrite (hermitian_swap_lower N) by (done || lia).
      symmetry. apply Hherm; apply transposition_lt; lia.
  - split; [apply square_tabulate|].
    intros r c Hr Hc. unfold permuted. rewrite !get2_tabulate by done.
    apply Hherm; apply transposition_lt; lia.
Qed.

Lemma hermitian_swap_conjugates_by_transposition_witness :
  hermitian_matrix 3 K_complex ∧ 0 ≤ 1 ∧ 1 < 3
  ∧ square 3 (hermitian_swap 0 1 K_complex)
  ∧ (∀ r c, c ≤ r → r < 3 →
       get2 (hermitian_swap 0 1 K_complex) r c =
       get2 (permuted 0 1 3 K_complex) r c)
  ∧ (∀ r, r < 3 → dt_imag (get2 (hermitian_swap 0 1 K_complex) r r) = 0%Qc)
  ∧ hermitian_completion 3 (hermitian_swap 0 1 K_complex) =
    permuted 0 1 3 K_complex
  ∧ hermitian_matrix 3 (permuted 0 1 3 K_complex).
Proof.
  split; [exact K_complex_hermitian|]. split; [lia|]. split; [lia|].
  exact (hermitian_swap_conjugates_by_transposition complex complex128
           complex128_laws 3 K_complex 0 1 K_complex_hermitian
           ltac:(lia) ltac:(lia)).
Defined.

(** The swap does not touch the strict upper triangle outside the rows it
    rewrites: on [K_complex] the entry [(0, 1)] keeps its old value, so the
    array as a whole is no longer Hermitian; only its diagonal and lower
    triangle are meaningful, as in the sampler. *)
Lemma hermitian_swap_upper_triangle_stale :
  entries_C (hermitian_swap 0 1 K_complex) =
  [ [(16 # 25, 0); (0, -12 # 25); (0, 0)];
    [(0, -12 # 25); (9 # 25, 0); (0, 0)];
    [(0, 0); (0, 0); (1, 0)] ]%Q.
Proof. vm_compute. reflexivity. Qed.

(** ** The Gram-Schmidt sampler on complex arrays, in general *)

(** On a [complex128] kernel no iteration of the Gram-Schmidt loop gets past
    its deflation: an iteration that does not raise is the last one. *)
Lemma gs_complex_body_breaks (np_sqrt : Qc → Qc) (rank size : Z) (it : nat)
    (s : gs_state) (w w' : World complex) (c : ctl gs_state) :
  gs_body np_sqrt rank size it s w = (Ok c, w') → is_break c = true.
Proof.
  unfold gs_body.
  intros (K & w1 & _ & (j & w2 & _ & Hrest)%bind_ok)%bind_ok.
  revert Hrest. case_bool_decide.
  - unfold ret. by intros [= <- _].
  - unfold gs_deflate. cbn. discriminate.
Qed.

(** Hence the sampler returns on a complex kernel only when at most one
    index is requested. *)
Lemma gs_complex_returns_at_most_one (np_sqrt : Qc → Qc)
    (K : matrix complex) (size : option Z) (random_state : seed)
    (sample : list nat) :
  o_result (orthogonal_projection_kernel_sampler_GS np_sqrt K size
              random_state) = Ok sample →
  length sample ≤ 1.
Proof.
  unfold orthogonal_projection_kernel_sampler_GS.
  intros (rng & w' & Hrun)%call_sampler_ok.
  pose proof (gs_sampler_ok _ _ _ _ _ Hrun) as (Hlen & _ & _).
  cbn [w_K] in Hlen.
  unfold gs_sampler in Hrun.
  apply bind_ok in Hrun as (s & w1 & Hloop & _).
  unfold gs_loop in Hloop.
  apply bind_ok in Hloop as (K' & w0 & HK & Hloop).
  unfold read_K in HK. injection HK as <- <-. cbn [w_K] in Hloop.
  set (sz := default (rank_of K) size) in *.
  case_bool_decide; [|discriminate].
  case_bool_decide; [discriminate|].
  cbn [from_option] in Hloop. unfold py_range in Hloop.
  destruct (Z.to_nat sz) as [|[|n]] eqn:Hn; [lia..|].
  exfalso. cbn [seq for_in] in Hloop.
  apply bind_ok in Hloop as (c & w2 & Hbody & _).
  pose proof (gs_complex_body_breaks _ _ _ _ _ _ _ _ Hbody) as Hbreak.
  apply gs_body_ok in Hbody as (j & _ & _ & _ & Hlast).
  specialize (Hlast Hbreak). lia.
Qed.

(** * Further properties of the samplers *)

(** ** What a run does to the generator and to [K] *)

Lemma advanced_refl {T : Type} (w : World T) : advanced 0 w w.
Proof. unfold advanced. repeat split; lia. Qed.

Lemma advanced_trans {T : Type} (n m : nat) (w1 w2 w3 : World T) :
  advanced n w1 w2 → advanced m w2 w3 → advanced (n + m) w1 w3.
Proof.
  intros (HK1 & Hs1 & Hp1) (HK2 & Hs2 & Hp2). unfold advanced.
  repeat split; [congruence|congruence|lia].
Qed.

(** [choice] draws once when it returns and at most once when it raises. *)
Lemma choice_advanced {T : Type} (a : list nat) (p : list Qc)
    (w w' : World T) (r : result nat) :
  choice a p w = (r, w') →
  (is_ok r = true → advanced 1 w w')
  ∧ ∃ n, n ≤ 1 ∧ advanced n w w'.
Proof.
  unfold choice, raise.
  repeat (case_match;
          [intros [= <- <-]; split; [discriminate|];
           exists 0; split; [lia|apply advanced_refl]|]).
  unfold bind, draw, ret, raise. cbn.
  assert (Hadv : advanced 1 w
            {| w_K := w_K w;
               w_rng := {| rs_stream := rs_stream (w_rng w);
                           rs_pos := S (rs_pos (w_rng w)) |} |}).
  { unfold advanced. cbn. repeat split; lia. }
  case_match; intros [= <- <-]; (split; [done|]); exists 1; by split.
Qed.

(** A loop over [range(n)] whose iterations draw once each and break only
    in the last one. *)
Lemma for_in_advanced {T St : Type} (body : nat → St → M T (ctl St))
    (n : nat) :
  (∀ k s w c w', k < n → body k s w = (Ok c, w') →
     advanced 1 w w' ∧ (is_break c = true → S k = n)) →
  ∀ len start s w s' w',
    start + len = n →
    for_in body (seq start len) s w = (Ok s', w') → advanced len w w'.
Proof.
  intros Hbody len.
  induction len as [|len IH]; intros start s w s' w' Hn; cbn [seq for_in].
  - unfold ret. intros [= _ <-]. apply advanced_refl.
  - intros (c & w1 & Hstep & Hrest)%bind_ok.
    apply Hbody in Hstep as [Hadv Hbreak]; [|lia].
    destruct c as [s1|s1].
    + apply (advanced_trans 1 len _ w1); [done|].
      eapply (IH (S start)); [lia|exact Hrest].
    + unfold ret in Hrest. injection Hrest as _ <-.
      assert (len = 0) as -> by (specialize (Hbreak eq_refl); lia).
      done.
Qed.

(** Whatever happens, a loop over a list of [len] iterations whose
    iterations draw at most once leaves [K] alone and draws at most [len]
    times. *)
Lemma for_in_bounded {T St : Type} (body : nat → St → M T (ctl St)) :
  (∀ k s w r w', body k s w = (r, w') → ∃ n, n ≤ 1 ∧ advanced n w w') →
  ∀ xs s w r w',
    for_in body xs s w = (r, w') → ∃ n, n ≤ length xs ∧ advanced n w w'.
Proof.
  intros Hbody xs.
  induction xs as [|x xs IH]; intros s w r w'; cbn [for_in length].
  - unfold ret. intros [= _ <-]. exists 0. split; [lia|apply advanced_refl].
  - unfold bind. destruct (body x s w) as [[c|e] w1] eqn:Hstep.
    + apply Hbody in Hstep as (n1 & Hn1 & Hadv1).
      destruct c as [s1|s1].
      * intros (n2 & Hn2 & Hadv2)%IH. exists (n1 + n2).
        split; [lia|by eapply advanced_trans].
      * unfold ret. intros [= _ <-]. exists n1. split; [lia|done].
    + apply Hbody in Hstep as (n1 & Hn1 & Hadv1).
      intros [= _ <-]. exists n1. split; [lia|done].
Qed.

Lemma bind_choice_advanced {T A : Type} (a : list nat) (p : list Qc)
    (k : nat → M T A) (w w' : World T) (r : result A) :
  (∀ x w1 r1 w2, k x w1 = (r1, w2) → w2 = w1) →
  bind (choice a p) k w = (r, w') →
  (is_ok r = true → advanced 1 w w') ∧ ∃ n, n ≤ 1 ∧ advanced n w w'.
Proof.
  intros Hk. unfold bind.
  destruct (choice a p w) as [[x|e] w1] eqn:Hchoice.
  - intros Hrest. apply Hk in Hrest as ->.
    apply choice_advanced in Hchoice as [Hok Hany]. split; [|done].
    intros _. by apply Hok.
  - intros [= <- <-]. apply choice_advanced in Hchoice as [_ Hany].
    split; [discriminate|done].
Qed.

Lemma chol_body_advanced {T : Type} `{DType T} (np_sqrt : Qc → Qc)
    (N : nat) (rank size : Z) (j : nat) (s : chol_state) (w w' : World T)
    (r : result (ctl chol_state)) :
  chol_body np_sqrt N rank size j s w = (r, w') →
  (is_ok r = true → advanced 1 w w') ∧ ∃ n, n ≤ 1 ∧ advanced n w w'.
Proof.
  unfold chol_body. apply bind_choice_advanced.
  intros x w1 r1 w2. unfold ret. case_bool_decide; by intros [= _ <-].
Qed.

Lemma gs_body_advanced {T : Type} `{DType T} (np_sqrt : Qc → Qc)
    (rank size : Z) (it : nat) (s : gs_state) (w w' : World T)
    (r : result (ctl gs_state)) :
  gs_body np_sqrt rank size it s w = (r, w') →
  (is_ok r = true → advanced 1 w w') ∧ ∃ n, n ≤ 1 ∧ advanced n w w'.
Proof.
  unfold gs_body. unfold bind at 1. unfold read_K.
  apply bind_choice_advanced.
  intros x w1 r1 w2. unfold ret, raise.
  case_bool_decide; [by intros [= _ <-]|].
  destruct (gs_deflate _ _ _ _); by intros [= _ <-].
Qed.

Lemma schur_body_advanced {T : Type} `{DType T} (rank size : Z) (it : nat)
    (s : schur_state) (w w' : World T) (r : result (ctl schur_state)) :
  schur_body rank size it s w = (r, w') →
  (is_ok r = true → advanced 1 w w') ∧ ∃ n, n ≤ 1 ∧ advanced n w w'.
Proof.
  unfold schur_body. unfold bind at 1. unfold read_K.
  apply bind_choice_advanced.
  intros x w1 r1 w2. unfold ret.
  repeat case_decide; try case_bool_decide; by intros [= _ <-].
Qed.

Lemma call_sampler_effects {T : Type} (body : M T (list nat)) (K : matrix T)
    (random_state : seed) (bound : nat) :
  (∀ rng r w', body {| w_K := K; w_rng := rng |} = (r, w') →
     (is_ok r = true → advanced bound {| w_K := K; w_rng := rng |} w')
     ∧ ∃ n, n ≤ bound ∧ advanced n {| w_K := K; w_rng := rng |} w') →
  let o := call_sampler body K random_state in
  o_K o = K ∧ o_draws o ≤ bound
  ∧ (is_ok (o_result o) = true → o_draws o = bound).
Proof.
  intros Hbody. unfold call_sampler.
  destruct (check_random_state random_state) as [rng|e]; cbn;
    [|repeat split; [lia|discriminate]].
  destruct (body _) as [r w'] eqn:Hrun. cbn.
  apply Hbody in Hrun as [Hok (n & Hn & HK & _ & Hpos)]. cbn in *.
  repeat split; [done|lia|].
  intros Hr. destruct (Hok Hr) as (_ & _ & Hpos'). cbn in Hpos'. lia.
Qed.

(** The two facts together, for a loop over [range(bound)]. *)
Lemma for_in_effects {T St : Type} (body : nat → St → M T (ctl St))
    (bound : nat) :
  (∀ k s w r w', body k s w = (r, w') →
     (is_ok r = true → advanced 1 w w') ∧ ∃ n, n ≤ 1 ∧ advanced n w w') →
  (∀ k s w c w', k < bound → body k s w = (Ok c, w') →
     is_break c = true → S k = bound) →
  ∀ s w r w',
    for_in body (seq 0 bound) s w = (r, w') →
    (is_ok r = true → advanced bound w w')
    ∧ ∃ n, n ≤ bound ∧ advanced n w w'.
Proof.
  intros Hbody Hbreak s w r w' Hloop. split.
  - destruct r as [s'|e]; [intros _|discriminate]. revert Hloop.
    apply (for_in_advanced _ bound); [|lia].
    intros k s0 wa c wb Hk Hstep. split; [|by eapply Hbreak].
    by apply Hbody in Hstep as [Hadv _]; apply Hadv.
  - apply for_in_bounded in Hloop as (n & Hn & Hadv).
    + exists n. rewrite length_seq in Hn. done.
    + intros k s0 wa r0 wb Hstep. by apply Hbody in Hstep as [_ ?].
Qed.

Ltac no_draw :=
  intros [= <- <-]; split; [discriminate|];
  exists 0; split; [lia|apply advanced_refl].

Lemma gs_sampler_effects {T : Type} `{DType T} (np_sqrt : Qc → Qc)
    (size : option Z) (w w' : World T) (r : result (list nat)) :
  let bound := Z.to_nat (default (rank_of (w_K w)) size) in
  gs_sampler np_sqrt size w = (r, w') →
  (is_ok r = true → advanced bound w w')
  ∧ ∃ n, n ≤ bound ∧ advanced n w w'.
Proof.
  intros bound. unfold gs_sampler, gs_loop. unfold bind at 1 2.
  unfold read_K, raise. fold bound.
  case_bool_decide; [|no_draw]. case_bool_decide; [no_draw|].
  cbn [from_option]. unfold py_range. fold bound.
  destruct (for_in _ _ _ w) as [r1 w1] eqn:Hloop.
  apply for_in_effects in Hloop.
  - destruct r1; unfold ret; intros [= <- <-]; done.
  - intros. by eapply gs_body_advanced.
  - intros k s0 wa c wb Hk (j & _ & _ & _ & Hlast)%gs_body_ok Hb.
    specialize (Hlast Hb). unfold bound. lia.
Qed.

Lemma schur_sampler_effects {T : Type} `{DType T} (size : option Z)
    (w w' : World T) (r : result (list nat)) :
  let bound := Z.to_nat (default (rank_of (w_K w)) size) in
  schur_sampler size w = (r, w') →
  (is_ok r = true → advanced bound w w')
  ∧ ∃ n, n ≤ bound ∧ advanced n w w'.
Proof.
  intros bound. unfold schur_sampler, schur_loop. unfold bind at 1 2.
  unfold read_K, raise. fold bound.
  case_bool_decide; [|no_draw]. case_bool_decide; [no_draw|].
  cbn [from_option]. unfold py_range. fold bound.
  destruct (for_in _ _ _ w) as [r1 w1] eqn:Hloop.
  apply for_in_effects in Hloop.
  - destruct r1; unfold ret; intros [= <- <-]; done.
  - intros. by eapply schur_body_advanced.
  - intros k s0 wa c wb Hk (j & _ & _ & _ & Hlast)%schur_body_ok Hb.
    specialize (Hlast Hb). unfold bound in *. lia.
Qed.

Lemma chol_sampler_effects {T : Type} `{DType T} (np_sqrt : Qc → Qc)
    (size : option Z) (w w' : World T) (r : result (list nat)) :
  let bound := Z.to_nat (default (rank_of (w_K w)) size) in
  chol_sampler np_sqrt size w = (r, w') →
  (is_ok r = true → advanced bound w w')
  ∧ ∃ n, n ≤ bound ∧ advanced n w w'.
Proof.
  intros bound. unfold chol_sampler, chol_loop. unfold bind at 1 2 3.
  unfold read_K, raise. fold bound.
  case_bool_decide; [|no_draw].
  cbn [from_option]. unfold py_range. fold bound.
  destruct (for_in _ _ _ w) as [r1 w1] eqn:Hloop.
  apply for_in_effects in Hloop.
  - destruct r1; unfold ret; intros [= <- <-]; done.
  - intros. by eapply chol_body_advanced.
  - intros k s0 wa c wb Hk (t & _ & _ & Hlast)%chol_body_ok Hb.
    specialize (Hlast Hb). unfold bound. lia.
Qed.

Lemma sampler_effects {T : Type} `{DType T} (np_sqrt : Qc → Qc)
    (K : matrix T) (size : option Z) (random_state : seed) (o : outcome T) :
  o = orthogonal_projection_kernel_sampler_Chol np_sqrt K size random_state
  ∨ o = orthogonal_projection_kernel_sampler_GS np_sqrt K size random_state
  ∨ o = projection_kernel_sampler_Schur K size random_state →
  o_K o = K
  ∧ o_draws o ≤ Z.to_nat (default (rank_of K) size)
  ∧ (is_ok (o_result o) = true →
     o_draws o = Z.to_nat (default (rank_of K) size)).
Proof.
  intros [->|[->| ->]]; apply call_sampler_effects; intros rng r w' Hrun.
  - by apply chol_sampler_effects in Hrun.
  - by apply gs_sampler_effects in Hrun.
  - by apply schur_sampler_effects in Hrun.
Qed.

(** X1.  A call that returns a sample has consumed exactly one uniform draw
    per requested index: [size] draws, or [round(trace(K))] when no size
    was given. *)
Theorem returning_run_draws_once_per_index :
  ∀ (T : Type) (dT : DType T) (np_sqrt : Qc → Qc) (K : matrix T)
    (size : option Z) (random_state : seed) (o : outcome T),
    o = orthogonal_projection_kernel_sampler_Chol np_sqrt K size random_state
    ∨ o = orthogonal_projection_kernel_sampler_GS np_sqrt K size random_state
    ∨ o = projection_kernel_sampler_Schur K size random_state →
    is_ok (o_result o) = true →
    o_draws o = Z.to_nat (default (rank_of K) size).
Proof.
  intros T dT np_sqrt K size random_state o Ho Hok.
  by apply (sampler_effects np_sqrt K size random_state o Ho).
Qed.

Lemma returning_run_draws_once_per_index_witness :
  let o := orthogonal_projection_kernel_sampler_GS sqrt_of_square K_id3
             (Some 2%Z) (SeedInstance (constant_rng (qq 1 2))) in
  is_ok (o_result o) = true ∧ o_draws o = 2.
Proof.
  intros o. split; [vm_compute; reflexivity|].
  apply (returning_run_draws_once_per_index Qc float64 sqrt_of_square K_id3
           (Some 2%Z) (SeedInstance (constant_rng (qq 1 2))) o).
  - right. left. reflexivity.
  - vm_compute. reflexivity.
Defined.


(** ** The index that [choice] returns has a positive weight *)

Ltac qc_lra :=
  unfold Qcle, Qclt, Qcminus, Qcplus, Qcopp, Qcmult, Q2Qc in *;
  cbn [this] in *; rewrite ?Qred_correct in *; lra.

Lemma Qcleb_le (x y : Qc) : Qcleb x y = true ↔ (x <= y)%Qc.
Proof. unfold Qcleb, Qcle. apply Qle_bool_iff. Qed.

Lemma Qcleb_gt (x y : Qc) : Qcleb x y = false ↔ (y < x)%Qc.
Proof.
  rewrite <- not_true_iff_false, Qcleb_le. split.
  - apply Qcnot_le_lt.
  - intros Hlt Hle. by apply (Qclt_not_le _ _ Hlt).
Qed.

Lemma Qcltb_lt (x y : Qc) : Qcltb x y = true ↔ (x < y)%Qc.
Proof.
  unfold Qcltb. rewrite negb_true_iff. apply Qcleb_gt.
Qed.

Lemma Qcltb_ge (x y : Qc) : Qcltb x y = false ↔ (y <= x)%Qc.
Proof. unfold Qcltb. rewrite negb_false_iff. apply Qcleb_le. Qed.

Lemma Qcinv_pos (L : Qc) : (0 < L)%Qc → (0 < / L)%Qc.
Proof.
  intros HL. unfold Qclt in *.
  change (this (/ L)%Qc) with (Qred (/ this L)).
  rewrite Qred_correct. apply Qinv_lt_0_compat. exact HL.
Qed.

Lemma Qcdiv_le_mono (a b L : Qc) :
  (0 < L)%Qc → (a <= b)%Qc → (a / L <= b / L)%Qc.
Proof.
  intros HL Hab. unfold Qcdiv.
  apply Qcmult_le_compat_r; [done|].
  apply Qclt_le_weak. by apply Qcinv_pos.
Qed.

Lemma Qcdiv_lt_reg (a b L : Qc) :
  (0 < L)%Qc → (a / L < b / L)%Qc → (a < b)%Qc.
Proof.
  intros HL Hab. apply Qcnot_le_lt. intros Hba.
  apply (Qclt_not_le _ _ Hab). by apply Qcdiv_le_mono.
Qed.

Lemma searchsorted_right_above (L acc u : Qc) (p : list Qc) :
  (0 < L)%Qc → Forall (λ q, (0 <= q)%Qc) p → (u < acc / L)%Qc →
  searchsorted_right ((λ x, (x / L)%Qc) <$> cumsum_from acc p) u = 0.
Proof.
  intros HL Hp. revert acc.
  induction Hp as [|q p Hq Hp IH]; intros acc Hu; [done|].
  cbn [cumsum_from fmap list_fmap searchsorted_right].
  assert (Hnext : (u < (acc + q) / L)%Qc).
  { eapply Qclt_le_trans; [exact Hu|].
    apply Qcdiv_le_mono; [done|qc_lra]. }
  rewrite (proj2 (Qcleb_gt _ _) Hnext). by apply IH.
Qed.

(** With non-negative weights, the entry of [p] at the index found in the
    normalised cumulative sums is positive. *)
Lemma searchsorted_right_positive (L acc u : Qc) (p : list Qc) :
  (0 < L)%Qc → Forall (λ q, (0 <= q)%Qc) p → (acc / L <= u)%Qc →
  ∀ k, searchsorted_right ((λ x, (x / L)%Qc) <$> cumsum_from acc p) u = k →
       k < length p →
       ∃ q, p !! k = Some q ∧ (0 < q)%Qc.
Proof.
  intros HL Hp. revert acc.
  induction Hp as [|q p Hq Hp IH]; intros acc Hacc k Hk Hlen;
    [cbn in Hlen; lia|].
  cbn [cumsum_from fmap list_fmap searchsorted_right] in Hk.
  destruct (Qcleb ((acc + q) / L) u) eqn:Hcmp.
  - destruct k as [|k]; [discriminate|]. injection Hk as Hk.
    apply Qcleb_le in Hcmp.
    destruct (IH (acc + q)%Qc Hcmp k Hk) as (q' & Hq' & Hpos);
      [cbn in Hlen; lia|].
    by exists q'.
  - apply Qcleb_gt in Hcmp.
    rewrite searchsorted_right_above in Hk by done. subst k.
    exists q. split; [done|].
    assert (Hlt : (acc / L < (acc + q) / L)%Qc)
      by (eapply Qcle_lt_trans; eassumption).
    apply Qcdiv_lt_reg in Hlt; [|done]. qc_lra.
Qed.

Lemma last_cumsum_from (acc : Qc) (p : list Qc) :
  p ≠ [] → last (cumsum_from acc p) = Some (acc + sumQc p)%Qc.
Proof.
  revert acc. induction p as [|q p IH]; intros acc Hp; [done|].
  destruct p as [|q' p].
  - cbn. f_equal. ring.
  - cbn [cumsum_from]. cbn [cumsum_from] in IH.
    rewrite last_cons_cons. rewrite IH by done.
    f_equal. cbn. ring.
Qed.

Lemma length_cumsum_from (acc : Qc) (p : list Qc) :
  length (cumsum_from acc p) = length p.
Proof. revert acc. induction p; intros; cbn; auto. Qed.

(** [choice] never returns a candidate of weight zero: the entry of [p] at
    the position of the returned candidate is positive, as soon as the
    uniform draw is not negative. *)
Lemma choice_positive_weight {T : Type} (a : list nat) (p : list Qc)
    (w w' : World T) (x : nat) :
  (0 <= rs_stream (w_rng w) (rs_pos (w_rng w)))%Qc →
  choice a p w = (Ok x, w') →
  ∃ i q, a !! i = Some x ∧ p !! i = Some q ∧ (0 < q)%Qc.
Proof.
  intros Hu. unfold choice, raise.
  case_bool_decide as Ha; [discriminate|].
  destruct (negb _) eqn:Hlen; [discriminate|].
  destruct (existsb _ _) eqn:Hneg; [discriminate|].
  destruct (Qcltb atol _) eqn:Hsum; [discriminate|].
  unfold bind, draw. cbn [fst snd w_rng w_K rs_stream rs_pos].
  set (u := rs_stream (w_rng w) (rs_pos (w_rng w))) in *.
  set (k := searchsorted_right _ u).
  destruct (a !! k) as [y|] eqn:Hk; [|discriminate].
  unfold ret. intros [= -> _].
  apply negb_false_iff, Nat.eqb_eq in Hlen.
  assert (Hp : Forall (λ q, (0 <= q)%Qc) p).
  { apply Forall_forall. intros q Hq.
    apply Qcltb_ge. apply not_true_iff_false. intros Hlt.
    apply not_true_iff_false in Hneg. apply Hneg.
    apply existsb_exists. exists q. split; [by apply list_elem_of_In|done]. }
  assert (Hne : p ≠ []) by (intros ->; destruct a; [done|discriminate]).
  assert (HL : (0 < default 0 (last (cumsum p)))%Qc).
  { unfold cumsum. rewrite last_cumsum_from by done. cbn [default from_option id].
    apply Qcltb_ge in Hsum. apply Qcabs_Qcle_condition in Hsum as [Hlow _].
    assert (Hatol : (atol < 1)%Qc) by (vm_compute; reflexivity).
    qc_lra. }
  destruct (searchsorted_right_positive _ 0 u p HL Hp) with (k := k)
    as (q & Hq & Hpos).
  - unfold Qcdiv. rewrite Qcmult_0_l. exact Hu.
  - reflexivity.
  - apply lookup_lt_Some in Hk. lia.
  - by exists k, q.
Qed.

(** ** The selected index has a non-zero residual *)

Lemma masked_select_lookup_from {A : Type} (o : nat) (rem : list bool)
    (x : list A) (i j : nat) :
  omap id (imap (λ k (b : bool), if b then Some (o + k) else None) rem) !! i
    = Some j →
  ∃ j', j = o + j' ∧ select rem x !! i = x !! j'.
Proof.
  revert o i x. induction rem as [|b rem IH]; intros o i x; [done|].
  rewrite imap_cons.
  rewrite (imap_ext _ (λ k (b : bool), if b then Some (S o + k) else None))
    by (intros k [] _; cbn; f_equal; lia).
  destruct b; cbn [omap id].
  - destruct i as [|i]; cbn [lookup list_lookup].
    + intros [= <-]. exists 0. split; [lia|]. by destruct x.
    + intros (j' & -> & Hsel)%(IH (S o) i (tail x)).
      exists (S j'). split; [lia|]. destruct x as [|v x]; [|exact Hsel].
      cbn. by destruct rem.
  - intros (j' & -> & Hsel)%(IH (S o) i (tail x)).
    exists (S j'). split; [lia|]. destruct x as [|v x]; [|exact Hsel].
    cbn. by destruct rem.
Qed.

(** [x[rem]] lists the entries of [x] at the indices [ground_set[rem]]. *)
Lemma masked_select_lookup {A : Type} (rem : list bool) (x : list A)
    (i j : nat) :
  masked rem !! i = Some j → select rem x !! i = x !! j.
Proof.
  intros (j' & -> & Hsel)%(masked_select_lookup_from 0 rem x). exact Hsel.
Qed.

Lemma weights_positive (rank : Z) (it : nat) (w : list Qc) (i : nat)
    (q : Qc) :
  weights rank it w !! i = Some q → (0 < q)%Qc →
  ∃ v, w !! i = Some v ∧ v ≠ 0%Qc.
Proof.
  unfold weights. rewrite list_lookup_fmap.
  destruct (w !! i) as [v|]; [|discriminate]. cbn. intros [= <-] Hpos.
  exists v. split; [done|]. intros ->.
  apply (Qclt_not_eq _ _ Hpos). unfold Qcdiv. by rewrite Qcabs_pos.
Qed.

Lemma omap_imap_total {A B : Type} (f : nat → A → option B) (l : list A)
    (i : nat) :
  (∀ k y, l !! k = Some y → is_Some (f k y)) →
  omap id (imap f l) !! i = l !! i ≫= f i.
Proof.
  revert f i. induction l as [|y l IH]; intros f i Hf; [done|].
  rewrite imap_cons. destruct (Hf 0 y eq_refl) as [b Hb].
  cbn [omap id]. rewrite Hb. cbn.
  destruct i as [|i]; cbn; [done|].
  apply (IH (f ∘ S)). intros k z Hz. by apply (Hf (S k)).
Qed.

Lemma length_omap_le {A B : Type} (f : A → option B) (l : list A) :
  length (omap f l) ≤ length l.
Proof.
  induction l as [|y l IH]; [done|]. cbn. destruct (f y); cbn; lia.
Qed.

(** On a square array [A.diagonal()[j]] is [A[j, j]]. *)
Lemma diagonal_lookup {T : Type} `{DType T} (N : nat) (A : matrix T)
    (j : nat) :
  square N A → j < N → diagonal A !! j = Some (get2 A j j).
Proof.
  intros [Hlen Hrows] Hj. unfold diagonal.
  assert (Hrow : ∀ k row, A !! k = Some row → length row = N).
  { intros k row Hk. apply Hrows. by eapply list_elem_of_lookup_2. }
  rewrite omap_imap_total.
  - destruct (lookup_lt_is_Some_2 A j ltac:(lia)) as [row Hr].
    rewrite Hr. cbn. unfold get2.
    rewrite (list_lookup_total_correct A j row Hr).
    apply list_lookup_lookup_total_lt. rewrite (Hrow _ _ Hr). lia.
  - intros k row Hk. apply lookup_lt_is_Some_2.
    rewrite (Hrow _ _ Hk). apply lookup_lt_Some in Hk. lia.
Qed.

Lemma masked_lookup_true (rem : list bool) (i j : nat) :
  masked rem !! i = Some j → rem !! j = Some true.
Proof. intros Hi. apply elem_of_masked. by eapply list_elem_of_lookup_2. Qed.

(** X3.  In an iteration of the Gram-Schmidt loop that does not raise, run
    with a generator whose draw is not negative, the index [j] that is
    selected was still un-selected and its residual [norm_2[j]] is not
    zero: the loop never normalises by the square root of zero. *)
Theorem gs_selects_nonzero_residual :
  ∀ (T : Type) (dT : DType T) (np_sqrt : Qc → Qc) (rank size : Z)
    (it : nat) (s : gs_state) (w w' : World T) (c : ctl gs_state),
    uniform_draws (w_rng w) →
    gs_body np_sqrt rank size it s w = (Ok c, w') →
    ∃ j q, gs_sample (ctl_state c) = <[it := j]> (gs_sample s)
           ∧ gs_rem s !! j = Some true
           ∧ norm_2 s !! j = Some q ∧ q ≠ 0%Qc.
Proof.
  intros T dT np_sqrt rank size it s w w' c Hu. unfold gs_body.
  intros (K & w1 & HK & (j & w2 & Hj & Hrest)%bind_ok)%bind_ok.
  unfold read_K in HK. injection HK as _ <-.
  apply choice_positive_weight in Hj as (i & q & Hi & Hq & Hpos);
    [|apply Hu].
  apply weights_positive in Hq as (v & Hv & Hv0); [|done].
  rewrite (masked_select_lookup _ _ _ _ Hi) in Hv.
  exists j, v. split; [|by eauto using masked_lookup_true].
  revert Hrest. unfold ret, raise. case_bool_decide.
  - by intros [= <- _].
  - destruct (gs_deflate _ _ _ _); [|discriminate]. by intros [= <- _].
Qed.

Lemma gs_selects_nonzero_residual_witness :
  let s0 := {| gs_rem := [true; true; true]; gs_sample := [0; 0; 0];
               norm_2 := [qz 1; qz 1; qz 1]; gs_c := zeros 3 3 |} in
  let w0 := {| w_K := K_id3; w_rng := constant_rng (qq 1 2) |} in
  uniform_draws (w_rng w0)
  ∧ ∃ c w', gs_body sqrt_of_square 3 3 0 s0 w0 = (Ok c, w')
            ∧ ∃ j q, gs_sample (ctl_state c) = <[0 := j]> (gs_sample s0)
                     ∧ gs_rem s0 !! j = Some true
                     ∧ norm_2 s0 !! j = Some q ∧ q ≠ 0%Qc.
Proof.
  intros s0 w0. split; [exact constant_rng_uniform|].
  destruct (gs_body sqrt_of_square 3 3 0 s0 w0) as [[c|e] w'] eqn:Hbody.
  - exists c, w'. split; [reflexivity|].
    exact (gs_selects_nonzero_residual Qc float64 sqrt_of_square 3 3 0 s0 w0
             w' c constant_rng_uniform Hbody).
  - exfalso. vm_compute in Hbody. discriminate Hbody.
Defined.

(** X4.  The same for the Schur sampler: the index selected in an iteration
    that does not raise has a non-zero entry in [schur]; in the first
    iteration on a square kernel that entry is the real part of [K[j, j]],
    so [1.0 / K[j, j]] does not divide by zero. *)
Theorem schur_selects_nonzero_residual :
  ∀ (T : Type) (dT : DType T) (rank size : Z) (it : nat) (s : schur_state)
    (w w' : World T) (c : ctl schur_state),
    uniform_draws (w_rng w) →
    schur_body rank size it s w = (Ok c, w') →
    ∃ j q, sc_sample (ctl_state c) = <[it := j]> (sc_sample s)
           ∧ sc_rem s !! j = Some true
           ∧ schur s !! j = Some q ∧ q ≠ 0%Qc
           ∧ (schur s = dt_real <$> diagonal (w_K w) →
              square (length (w_K w)) (w_K w) →
              dt_real (get2 (w_K w) j j) = q).
Proof.
  intros T dT rank size it s w w' c Hu. unfold schur_body.
  intros (K & w1 & HK & (j & w2 & Hj & Hrest)%bind_ok)%bind_ok.
  unfold read_K in HK. injection HK as _ <-.
  apply choice_positive_weight in Hj as (i & q & Hi & Hq & Hpos);
    [|apply Hu].
  apply weights_positive in Hq as (v & Hv & Hv0); [|done].
  rewrite (masked_select_lookup _ _ _ _ Hi) in Hv.
  exists j, v.
  split; [revert Hrest; unfold ret;
          repeat case_decide; try case_bool_decide; by intros [= <- _]|].
  split; [by eauto using masked_lookup_true|].
  split; [done|]. split; [done|].
  intros Hinit Hsq. rewrite Hinit, list_lookup_fmap in Hv.
  assert (Hjlt : j < length (w_K w)).
  { destruct (diagonal (w_K w) !! j) as [z|] eqn:Hz; [|discriminate].
    apply lookup_lt_Some in Hz. unfold diagonal in Hz.
    pose proof (length_omap_le id (imap (λ i row, row !! i) (w_K w))) as Hle.
    rewrite length_imap in Hle. lia. }
  rewrite (diagonal_lookup _ _ _ Hsq Hjlt) in Hv. by injection Hv.
Qed.

Lemma schur_selects_nonzero_residual_witness :
  let s0 := {| sc_rem := [true; true; true]; sc_sample := [0; 0; 0];
               schur := dt_real <$> diagonal K_id3; K1 := zeros 3 3 |} in
  let w0 := {| w_K := K_id3; w_rng := constant_rng (qq 1 2) |} in
  uniform_draws (w_rng w0)
  ∧ ∃ c w', schur_body 3 3 0 s0 w0 = (Ok c, w')
            ∧ ∃ j q, sc_sample (ctl_state c) = <[0 := j]> (sc_sample s0)
                     ∧ sc_rem s0 !! j = Some true
                     ∧ schur s0 !! j = Some q ∧ q ≠ 0%Qc
                     ∧ (schur s0 = dt_real <$> diagonal (w_K w0) →
                        square (length (w_K w0)) (w_K w0) →
                        dt_real (get2 (w_K w0) j j) = q).
Proof.
  intros s0 w0. split; [exact constant_rng_uniform|].
  destruct (schur_body 3 3 0 s0 w0) as [[c|e] w'] eqn:Hbody.
  - exists c, w'. split; [reflexivity|].
    exact (schur_selects_nonzero_residual Qc float64 3 3 0 s0 w0 w' c
             constant_rng_uniform Hbody).
  - exfalso. vm_compute in Hbody. discriminate Hbody.
Defined.

(** X5.  In an iteration of the Cholesky loop that does not raise, run with
    a generator whose draw is not negative, the pivot [t] lies in the
    un-pivoted suffix and its diagonal entry [d[t]] is not zero; after the
    swap it sits at [d[j]], where it stays: the pivot [A[j, j]] is the
    square root of a non-zero number. *)
Theorem chol_selects_nonzero_pivot :
  ∀ (T : Type) (dT : DType T) (np_sqrt : Qc → Qc) (N : nat) (rank size : Z)
    (j : nat) (s : chol_state) (w w' : World T) (c : ctl chol_state),
    uniform_draws (w_rng w) →
    chol_body np_sqrt N rank size j s w = (Ok c, w') →
    ∃ t q, j ≤ t < N
           ∧ ground_set (ctl_state c) = swap_at j t (ground_set s)
           ∧ chol_d s !! t = Some q ∧ q ≠ 0%Qc
           ∧ chol_d (ctl_state c) !! j = Some q.
Proof.
  intros T dT np_sqrt N rank size j s w w' c Hu. unfold chol_body.
  intros (t & w1 & Ht & Hrest)%bind_ok.
  apply choice_positive_weight in Ht as (i & q & Hi & Hq & Hpos);
    [|apply Hu].
  apply weights_positive in Hq as (v & Hv & Hv0); [|done].
  apply lookup_seq in Hi as [-> Hi]. rewrite lookup_drop in Hv.
  pose proof (lookup_lt_Some _ _ _ Hv) as Hlen.
  assert (Hswap : swap_at j (j + i) (chol_d s) !! j = Some v).
  { rewrite swap_at_lookup by lia.
    repeat case_decide; congruence. }
  exists (j + i), v. split; [lia|].
  revert Hrest. unfold ret. case_bool_decide; intros [= <- _]; cbn.
  - by repeat split.
  - repeat split; try done. unfold update_diagonal.
    rewrite list_lookup_imap, Hswap. cbn.
    by rewrite decide_False by lia.
Qed.

Lemma chol_selects_nonzero_pivot_witness :
  let s0 := chol_init K_id3 in
  let w0 := {| w_K := K_id3; w_rng := constant_rng (qq 1 2) |} in
  uniform_draws (w_rng w0)
  ∧ ∃ c w', chol_body sqrt_of_square 3 3 3 0 s0 w0 = (Ok c, w')
            ∧ ∃ t q, 0 ≤ t < 3
                     ∧ ground_set (ctl_state c)
                       = swap_at 0 t (ground_set s0)
                     ∧ chol_d s0 !! t = Some q ∧ q ≠ 0%Qc
                     ∧ chol_d (ctl_state c) !! 0 = Some q.
Proof.
  intros s0 w0. split; [exact constant_rng_uniform|].
  destruct (chol_body sqrt_of_square 3 3 3 0 s0 w0) as [[c|e] w'] eqn:Hbody.
  - exists c, w'. split; [reflexivity|].
    exact (chol_selects_nonzero_pivot Qc float64 sqrt_of_square 3 3 3 0 s0
             w0 w' c constant_rng_uniform Hbody).
  - exfalso. vm_compute in Hbody. discriminate Hbody.
Defined.

(** ** A negative [size] *)

(** X6.  A negative [size] (not above the rank) is no error for the
    Cholesky sampler: its loop [range(size)] is empty and it returns
    [ground_set[:size]], the ground set without its last [-size] items,
    having drawn nothing.  The other two samplers raise the [ValueError] of
    [np.zeros(size)]. *)
Theorem negative_size_slices_ground_set_in_chol_only :
  ∀ (T : Type) (dT : DType T) (np_sqrt : Qc → Qc) (K : matrix T) (n : Z)
    (random_state : seed) (rng : RandomState),
    check_random_state random_state = Ok rng →
    (n < 0)%Z → (n ≤ rank_of K)%Z →
    orthogonal_projection_kernel_sampler_Chol np_sqrt K (Some n) random_state
    = {| o_result := Ok (seq 0 (length K - Z.to_nat (- n)));
         o_K := K; o_draws := 0 |}
    ∧ orthogonal_projection_kernel_sampler_GS np_sqrt K (Some n) random_state
      = {| o_result := Raise ValueError; o_K := K; o_draws := 0 |}
    ∧ projection_kernel_sampler_Schur K (Some n) random_state
      = {| o_result := Raise ValueError; o_K := K; o_draws := 0 |}.
Proof.
  intros T dT np_sqrt K n random_state rng Hrng Hneg Hrank.
  unfold orthogonal_projection_kernel_sampler_Chol,
    orthogonal_projection_kernel_sampler_GS, projection_kernel_sampler_Schur,
    call_sampler.
  rewrite Hrng.
  unfold chol_sampler, chol_loop, gs_sampler, gs_loop, schur_sampler,
    schur_loop, bind, read_K, raise, ret.
  cbn [default from_option id w_K w_rng].
  rewrite !bool_decide_eq_true_2 by lia.
  unfold py_range. rewrite Z2Nat.nonpos by lia. cbn [seq for_in].
  unfold ret. cbn. rewrite Nat.sub_diag. unfold py_take.
  rewrite (proj2 (Z.leb_gt 0 n)) by lia.
  rewrite length_seq, take_seq.
  by rewrite Nat.min_l by lia.
Qed.

Lemma negative_size_slices_ground_set_in_chol_only_witness :
  let rs := SeedInstance (constant_rng (qq 1 2)) in
  orthogonal_projection_kernel_sampler_Chol sqrt_of_square K_id3
    (Some (-1)%Z) rs
  = {| o_result := Ok [0; 1]; o_K := K_id3; o_draws := 0 |}
  ∧ orthogonal_projection_kernel_sampler_GS sqrt_of_square K_id3
      (Some (-1)%Z) rs
    = {| o_result := Raise ValueError; o_K := K_id3; o_draws := 0 |}
  ∧ projection_kernel_sampler_Schur K_id3 (Some (-1)%Z) rs
    = {| o_result := Raise ValueError; o_K := K_id3; o_draws := 0 |}.
Proof.
  intros rs.
  apply (negative_size_slices_ground_set_in_chol_only Qc float64
           sqrt_of_square K_id3 (-1)%Z rs (constant_rng (qq 1 2))).
  - reflexivity.
  - lia.
  - vm_compute. discriminate 1.
Defined.

(** ** The dispatcher, end to end *)

Lemma select_orthogonal_total (mode : pyval) :
  ∃ f, select_orthogonal_projection_kernel_sampler mode = Ok f.
Proof.
  destruct mode as [| | |s]; [| |  |rewrite select_orthogonal_spec; eauto].
  all: unfold select_orthogonal_projection_kernel_sampler, samplers_item.
  all: rewrite lookup_insert_eq; eauto.
Qed.

(** A sample returned by a sampler has no duplicates, lies in the ground
    set and is at least as long as the number of draws made. *)
Lemma sampler_returns_well_formed {T : Type} `{DType T} (np_sqrt : Qc → Qc)
    (K : matrix T) (size : option Z) (random_state : seed) (o : outcome T)
    (sample : list nat) :
  o = orthogonal_projection_kernel_sampler_Chol np_sqrt K size random_state
  ∨ o = orthogonal_projection_kernel_sampler_GS np_sqrt K size random_state
  ∨ o = projection_kernel_sampler_Schur K size random_state →
  o_result o = Ok sample →
  NoDup sample ∧ (∀ x, x ∈ sample → x < length K)
  ∧ o_draws o ≤ length sample.
Proof.
  intros Ho Hres.
  pose proof (sampler_effects np_sqrt K size random_state o Ho)
    as (_ & _ & Hdraws).
  rewrite Hres in Hdraws. specialize (Hdraws eq_refl). rewrite Hdraws.
  destruct Ho as [->|[->| ->]].
  - destruct (decide (0 ≤ default (rank_of K) size)%Z) as [Hpos|Hneg].
    + apply call_sampler_ok in Hres as (rng & w' & Hrun).
      apply chol_sampler_ok in Hrun as (Hlen & Hnodup & Hlt); [|done].
      cbn in *. repeat split; [done|done|lia].
    + rewrite Z2Nat.nonpos by lia.
      apply call_sampler_ok in Hres as (rng & w' & Hrun).
      revert Hrun.
      unfold chol_sampler, chol_loop, bind, read_K, raise, ret.
      cbn [w_K from_option].
      case_bool_decide; [|discriminate].
      unfold py_range. rewrite Z2Nat.nonpos by lia. cbn [seq for_in].
      unfold ret. cbn. intros [= <- _]. unfold py_take.
      destruct (0 <=? default (rank_of K) size)%Z.
      all: repeat split; [|intros x (i & Hi & _)%elem_of_take|lia].
      all: try (eapply sublist_NoDup; [apply NoDup_seq|apply sublist_take]).
      all: apply list_elem_of_lookup_2, elem_of_seq in Hi; lia.
  - apply call_sampler_ok in Hres as (rng & w' & Hrun).
    apply gs_sampler_ok in Hrun as (Hlen & Hnodup & Hlt).
    cbn in *. repeat split; [done|done|lia].
  - apply call_sampler_ok in Hres as (rng & w' & Hrun).
    apply schur_sampler_ok in Hrun as (Hlen & Hnodup & Hlt).
    cbn in *. repeat split; [done|done|lia].
Qed.

Lemma invoke_returns_well_formed {T : Type} `{DType T} (np_sqrt : Qc → Qc)
    (f : sampler) (kernel : matrix T) (size : pyval) (random_state : seed)
    (sample : list nat) :
  o_result (invoke np_sqrt f kernel size random_state) = Ok sample →
  NoDup sample ∧ (∀ x, x ∈ sample → x < length kernel)
  ∧ o_draws (invoke np_sqrt f kernel size random_state) ≤ length sample.
Proof.
  unfold invoke.
  destruct size as [|b|n|s]; cbn;
    [| | |destruct (check_random_state random_state); discriminate].
  all: destruct f; intros Hres.
  all: eapply (sampler_returns_well_formed np_sqrt); [|exact Hres]; auto.
Qed.

(** X7.  A call of the dispatcher that returns a sample has computed
    exactly one kernel ([L] for the kernel type "likelihood", and then
    [size] was truthy; [K] for every other kernel type), selected one
    sampler (Schur when the DPP is not Hermitian) and invoked it with the
    [size] it was given.  The sample has no duplicates, indexes the rows of
    that kernel, and no more uniform draws were made than it has items. *)
Theorem dispatched_sample_is_well_formed :
  ∀ (T : Type) (dT : DType T) (np_sqrt : Qc → Qc) (dpp : FiniteDPP)
    (random_state : seed) (params : gmap string pyval) (sample : list nat),
    let run := projection_kernel_sampler np_sqrt dpp random_state params in
    let size := params_get params "size" in
    d_result run = Ok sample →
    ∃ (kernel : matrix T) (f : sampler),
      projection dpp = true
      ∧ (if String.eqb (kernel_type dpp) "likelihood"
         then truthy size = true ∧ compute_L dpp = Ok kernel
         else compute_K dpp = Ok kernel)
      ∧ d_events run =
        [ if String.eqb (kernel_type dpp) "likelihood"
          then CalledComputeL else CalledComputeK;
          Selected (hermitian dpp) (params_get params "mode") f;
          Invoked f size ]
      ∧ (hermitian dpp = false → f = Schur)
      ∧ NoDup sample
      ∧ (∀ x, x ∈ sample → x < length kernel)
      ∧ d_draws run ≤ length sample.
Proof.
  intros T dT np_sqrt dpp random_state params sample run size.
  unfold run, projection_kernel_sampler. fold size.
  destruct (projection dpp); cbn [negb]; [|discriminate].
  destruct (select_orthogonal_total (params_get params "mode")) as [g Hg].
  rewrite Hg, select_generic_spec.
  destruct (String.eqb (kernel_type dpp) "likelihood").
  - destruct (truthy size); cbn [negb]; [|discriminate].
    destruct (compute_L dpp) as [L|e]; [|discriminate].
    destruct (hermitian dpp); cbn.
    + intros (? & ? & ?)%invoke_returns_well_formed.
      exists L, g. by repeat split.
    + intros (? & ? & ?)%invoke_returns_well_formed.
      exists L, Schur. by repeat split.
  - destruct (compute_K dpp) as [K|e]; [|discriminate].
    destruct (hermitian dpp); cbn.
    + intros (? & ? & ?)%invoke_returns_well_formed.
      exists K, g. by repeat split.
    + intros (? & ? & ?)%invoke_returns_well_formed.
      exists K, Schur. by repeat split.
Qed.

Lemma dispatched_sample_is_well_formed_witness :
  let params : gmap string pyval := {[ "size" := PyInt 1 ]} in
  let run := projection_kernel_sampler sqrt_of_square dpp_L_e0
               (SeedInstance (constant_rng (qq 1 2))) params in
  d_result run = Ok [0]
  ∧ ∃ (kernel : matrix Qc) (f : sampler),
      projection dpp_L_e0 = true
      ∧ (if String.eqb (kernel_type dpp_L_e0) "likelihood"
         then truthy (params_get params "size") = true
              ∧ compute_L dpp_L_e0 = Ok kernel
         else compute_K dpp_L_e0 = Ok kernel)
      ∧ d_events run =
        [ if String.eqb (kernel_type dpp_L_e0) "likelihood"
          then CalledComputeL else CalledComputeK;
          Selected (hermitian dpp_L_e0) (params_get params "mode") f;
          Invoked f (params_get params "size") ]
      ∧ (hermitian dpp_L_e0 = false → f = Schur)
      ∧ NoDup [0]
      ∧ (∀ x, x ∈ [0] → x < length kernel)
      ∧ d_draws run ≤ length [0].
Proof.
  intros params run.
  assert (Hrun : d_result run = Ok [0]) by (vm_compute; reflexivity).
  split; [exact Hrun|].
  exact (dispatched_sample_is_well_formed Qc float64 sqrt_of_square dpp_L_e0
           (SeedInstance (constant_rng (qq 1 2))) params [0] Hrun).
Defined.

(** X8.  [check_random_state] is the first statement of every sampler: on a
    projection DPP whose kernels can be computed, a [random_state] that is
    neither [None], an integer nor a [RandomState] makes the dispatcher
    raise [ValueError] whatever [size] and [mode] are (a size above the
    rank or a size that is a string included), and no uniform draw is
    made. *)
Theorem unusable_seed_raises_value_error :
  ∀ (T : Type) (dT : DType T) (np_sqrt : Qc → Qc) (dpp : FiniteDPP)
    (params : gmap string pyval) (L K : matrix T),
    projection dpp = true →
    compute_L dpp = Ok L → compute_K dpp = Ok K →
    let run := projection_kernel_sampler np_sqrt dpp SeedOther params in
    d_result run = Raise ValueError ∧ d_draws run = 0.
Proof.
  intros T dT np_sqrt dpp params L K Hproj HL HK.
  unfold projection_kernel_sampler. rewrite Hproj, HL, HK. cbn [negb].
  destruct (select_orthogonal_total (params_get params "mode")) as [g Hg].
  rewrite Hg, select_generic_spec.
  destruct (String.eqb (kernel_type dpp) "likelihood");
    [destruct (truthy (params_get params "size")); cbn [negb]; [|done]|].
  all: destruct (hermitian dpp); cbn.
  all: unfold invoke; destruct (params_get params "size"); try done.
  all: destruct g; done.
Qed.

Lemma unusable_seed_raises_value_error_witness :
  let run := projection_kernel_sampler sqrt_of_square dpp_L_e0 SeedOther
               {[ "size" := PyInt 7 ]} in
  d_result run = Raise ValueError ∧ d_draws run = 0.
Proof.
  exact (unusable_seed_raises_value_error Qc float64 sqrt_of_square dpp_L_e0
           {[ "size" := PyInt 7 ]} K_e0 K_e0 eq_refl eq_refl eq_refl).
Defined.

(** ** The first iteration of the Schur and Gram-Schmidt samplers *)

Lemma lookup_total_zip_with_seq {A B C : Type} `{Inhabited C}
    (f : A → B → C) (g : nat → A) (h : nat → B) (N r : nat) :
  r < N →
  zip_with f (g <$> seq 0 N) (h <$> seq 0 N) !!! r = f (g r) (h r).
Proof.
  intros Hr. apply list_lookup_total_correct.
  rewrite lookup_zip_with, !list_lookup_fmap, lookup_seq_lt by done.
  done.
Qed.

Lemma mask_after_first (N j r : nat) :
  r < N →
  (<[j := false]> (replicate N true) !!! r : bool)
  = bool_decide (r ≠ j).
Proof.
  intros Hr. rewrite list_lookup_total_insert, length_replicate.
  rewrite lookup_total_replicate_2 by done.
  case_decide; case_bool_decide; destruct_and?; subst; try done; lia.
Qed.

(** The state of the Schur sampler after its first iteration on a
    [float64] kernel: the item [j] selected, and the residuals. *)
Lemma schur_first_iteration (N : nat) (K : matrix Qc) (size : option Z)
    (rng : RandomState) (s : schur_state) (w' : World Qc) :
  let w := {| w_K := K; w_rng := rng |} in
  let sz := default (rank_of K) size in
  square N K → (1 ≤ sz)%Z →
  schur_loop size (Some 1) w = (Ok s, w') →
  ∃ j, choice (masked (replicate N true))
         (weights (rank_of K) 0 (select (replicate N true) (diagonal K))) w
       = (Ok j, w')
       ∧ j < N
       ∧ sc_rem s = <[j := false]> (replicate N true)
       ∧ sc_sample s = <[0 := j]> (replicate (Z.to_nat sz) 0)
       ∧ schur s
         = imap (λ r x, if decide (r = j) then x
                        else (get2 K r r
                              - get2 K r j * get2 K j r / get2 K j j)%Qc)
                (diagonal K).
Proof.
  intros w sz Hsq Hsz. unfold schur_loop, bind at 1, read_K.
  cbn [w_K w]. fold sz. pose proof Hsq as [Hlen _].
  case_bool_decide; [|discriminate].
  rewrite bool_decide_eq_false_2 by lia.
  cbn [from_option]. unfold py_range.
  destruct (Z.to_nat sz) as [|n] eqn:Hn; [lia|].
  cbn [seq take for_in]. rewrite Hlen.
  intros (c & w1 & Hbody & Hrest)%bind_ok.
  revert Hbody. unfold schur_body, bind at 1, read_K. cbn [w_K w].
  cbn [sc_rem schur sc_sample K1].
  intros (j & w2 & Hchoice & Hfin)%bind_ok.
  rewrite decide_True in Hfin by done. unfold ret in Hfin.
  injection Hfin as <- <-. unfold ret in Hrest. injection Hrest as <- <-.
  cbn [sc_rem schur sc_sample K1].
  assert (Hid : dt_real <$> diagonal K = diagonal K)
    by (apply list_fmap_id).
  rewrite Hid in *.
  pose proof (choice_elem_of _ _ _ _ _ Hchoice) as Hj.
  apply elem_of_masked, lookup_replicate in Hj as [_ Hj].
  exists j. split; [done|]. split; [done|]. split; [done|]. split; [done|].
  change ((λ x : Qc, x) <$> diagonal K) with (id <$> diagonal K).
  rewrite list_fmap_id.
  unfold schur_update. apply imap_ext. intros r x Hx.
  assert (Hr : r < N).
  { apply lookup_lt_Some in Hx.
    pose proof (length_omap_le id (imap (λ i row, row !! i) K)) as Hle.
    unfold diagonal in Hx. rewrite length_imap in Hle. lia. }
  rewrite mask_after_first by done. rewrite Hlen.
  case_decide; case_bool_decide; try done.
  unfold inner1d. rewrite <- list_fmap_compose.
  rewrite lookup_total_zip_with_seq by done.
  cbn [replicate list_insert take fmap list_fmap insert compose].
  unfold schur_first, zeros, block, vec_mat, column, dot, dt_sum, set2.
  cbn. rewrite !take_0. cbn. unfold Qcdiv. ring.
Qed.


(** X9.  Whatever the [float64] kernel, symmetric or not, the residuals
    the Schur sampler holds after its first iteration are the complements
    [K[r, r] - K[r, j] K[j, r] / K[j, j]] with respect to the item [j] it
    selected; the residual of [j] itself is left at [K[j, j]]. *)
Theorem schur_first_update_is_schur_complement :
  ∀ (N : nat) (K : matrix Qc) (size : option Z) (rng : RandomState)
    (s : schur_state) (w' : World Qc),
    square N K → (1 ≤ default (rank_of K) size)%Z →
    schur_loop size (Some 1) {| w_K := K; w_rng := rng |} = (Ok s, w') →
    ∃ j, j < N
         ∧ sc_sample s !! 0 = Some j
         ∧ sc_rem s !! j = Some false
         ∧ schur s !! j = Some (get2 K j j)
         ∧ ∀ r, r < N → r ≠ j →
             sc_rem s !! r = Some true
             ∧ schur s !! r
               = Some (get2 K r r
                       - get2 K r j * get2 K j r / get2 K j j)%Qc.
Proof.
  intros N K size rng s w' Hsq Hsz Hloop.
  destruct (schur_first_iteration N K size rng s w' Hsq Hsz Hloop)
    as (j & _ & Hj & Hrem & Hsample & Hschur).
  exists j. rewrite Hrem, Hsample, Hschur. split; [done|].
  split.
  { destruct (Z.to_nat (default (rank_of K) size)) eqn:Hn; [lia|done]. }
  split.
  { by rewrite list_lookup_insert_eq by (by rewrite length_replicate). }
  split.
  { rewrite list_lookup_imap, (diagonal_lookup N) by done. cbn.
    by rewrite decide_True by done. }
  intros r Hr Hne. split.
  - rewrite list_lookup_insert_ne by done. by apply lookup_replicate_2.
  - rewrite list_lookup_imap, (diagonal_lookup N) by done. cbn.
    by rewrite decide_False by done.
Qed.

Lemma schur_first_update_is_schur_complement_witness :
  square 4 K_oblique ∧ (1 ≤ default (rank_of K_oblique) None)%Z
  ∧ ∃ s w', schur_loop None (Some 1) w_oblique = (Ok s, w')
      ∧ ∃ j, j < 4
          ∧ sc_sample s !! 0 = Some j
          ∧ sc_rem s !! j = Some false
          ∧ schur s !! j = Some (get2 K_oblique j j)
          ∧ ∀ r, r < 4 → r ≠ j →
              sc_rem s !! r = Some true
              ∧ schur s !! r
                = Some (get2 K_oblique r r
                        - get2 K_oblique r j * get2 K_oblique j r
                          / get2 K_oblique j j)%Qc.
Proof.
  assert (Hsq : square 4 K_oblique) by (by apply square_concrete).
  assert (Hsz : (1 ≤ default (rank_of K_oblique) None)%Z)
    by (vm_compute; discriminate 1).
  split; [exact Hsq|]. split; [exact Hsz|].
  destruct (schur_loop None (Some 1) w_oblique) as [[s|e] w'] eqn:Hloop.
  - exists s, w'. split; [reflexivity|].
    exact (schur_first_update_is_schur_complement 4 K_oblique None
             (constant_rng (qz 0)) s w' Hsq Hsz Hloop).
  - exfalso. vm_compute in Hloop. discriminate Hloop.
Defined.



(** * Properties of [dppy/utils.py] *)

(** ** [elementary_symmetric_polynomials] *)

Lemma sumQc_app (l1 l2 : list Qc) :
  sumQc (l1 ++ l2) = (sumQc l1 + sumQc l2)%Qc.
Proof.
  unfold sumQc. induction l1 as [|a l1 IH]; cbn [app foldr]; [ring|].
  rewrite IH. ring.
Qed.

Lemma filter_length_cons {A : Type} (a : A) (i : nat) (L : list (list A)) :
  filter (λ s, length s = S i) (cons a <$> L)
  = cons a <$> filter (λ s, length s = i) L.
Proof.
  induction L as [|s L IH]; [done|]. cbn [fmap list_fmap].
  rewrite !filter_cons. cbn [length].
  repeat case_decide; try lia; cbn; by rewrite IH.
Qed.

Lemma sumQc_prod_cons (a : Qc) (L : list (list Qc)) :
  sumQc (prodQc <$> (cons a <$> L)) = (a * sumQc (prodQc <$> L))%Qc.
Proof.
  unfold sumQc, prodQc.
  induction L as [|s L IH]; cbn [fmap list_fmap foldr]; [ring|].
  cbn [fmap list_fmap foldr] in IH. rewrite IH. ring.
Qed.

Lemma esp_nil (i : nat) : esp (S i) [] = 0%Qc.
Proof. reflexivity. Qed.

Lemma esp_cons (i : nat) (a : Qc) (l : list Qc) :
  esp (S i) (a :: l) = (esp (S i) l + a * esp i l)%Qc.
Proof.
  unfold esp. cbn [sublists].
  by rewrite filter_app, fmap_app, sumQc_app, filter_length_cons,
    sumQc_prod_cons.
Qed.

Lemma filter_length_cons_0 {A : Type} (a : A) (L : list (list A)) :
  filter (λ s, length s = 0) (cons a <$> L) = [].
Proof.
  induction L as [|s L IH]; [done|]. cbn [fmap list_fmap].
  rewrite filter_cons. cbn [length]. by rewrite decide_False by lia.
Qed.

Lemma esp_0 (l : list Qc) : esp 0 l = 1%Qc.
Proof.
  unfold esp. induction l as [|a l IH]; [reflexivity|].
  cbn [sublists]. rewrite filter_app, filter_length_cons_0, app_nil_r.
  exact IH.
Qed.

Lemma esp_snoc (i : nat) (a : Qc) (l : list Qc) :
  esp (S i) (l ++ [a]) = (esp (S i) l + a * esp i l)%Qc.
Proof.
  revert i. induction l as [|b l IH]; intros i.
  - cbn [app]. apply esp_cons.
  - cbn [app]. rewrite !esp_cons, IH. destruct i as [|i].
    + rewrite !esp_0. ring.
    + rewrite IH, esp_cons. ring.
Qed.

Section Set2.
Context {T : Type} `{DType T}.

Lemma get2_set2_at (A : matrix T) (i k r c : nat) (v : T) :
  i < length A → k < length (A !!! i) →
  get2 (set2 A i k v) r c = if decide (i = r ∧ k = c) then v else get2 A r c.
Proof.
  intros Hi Hk. unfold set2. rewrite get2_alter by done.
  destruct (decide (i = r)) as [->|Hne].
  - rewrite list_lookup_total_insert by done. index_cases.
  - index_cases.
Qed.

Lemma length_set2 (A : matrix T) (i k : nat) (v : T) :
  length (set2 A i k v) = length A.
Proof. unfold set2. apply length_alter. Qed.

Lemma length_set2_row (A : matrix T) (i k r : nat) (v : T) :
  length (set2 A i k v !!! r) = length (A !!! r).
Proof.
  unfold set2. rewrite list_lookup_total_alter.
  case_decide; destruct_and?; subst; [apply length_insert|done].
Qed.
End Set2.

(** The inner loop fills row [i] from left to right and touches nothing
    else. *)
Lemma esp_row_prefix (x : list Qc) (i : nat) (E : matrix Qc) (j : nat) :
  0 < i < length E → (∀ r, r < length E → length (E !!! r) = S (length x)) →
  j ≤ length x →
  let f := λ (E : matrix Qc) (m : nat),
             set2 E i (S m)
               (get2 E i m + x !!! m * get2 E (i - 1)%nat m)%Qc in
  let F := foldl f E (seq 0 j) in
  length F = length E
  ∧ (∀ r, length (F !!! r) = length (E !!! r))
  ∧ (∀ r c, r ≠ i ∨ j < c → get2 F r c = get2 E r c)
  ∧ get2 F i 0 = get2 E i 0
  ∧ ∀ m, m < j →
      get2 F i (S m) = (get2 F i m + x !!! m * get2 E (i - 1)%nat m)%Qc.
Proof.
  intros Hi Hrows Hj f. induction j as [|j IH]; cbn zeta.
  { cbn. repeat split; try done. lia. }
  rewrite seq_S, foldl_app. cbn [foldl Nat.add].
  destruct IH as (Hlen & Hrow & Hother & Hzero & Hrec); [lia|].
  set (F := foldl f E (seq 0 j)) in *. unfold f.
  assert (Hget : ∀ r c v,
             get2 (set2 F i (S j) v) r c =
             if decide (i = r ∧ S j = c) then v else get2 F r c).
  { intros r c v. apply get2_set2_at; [lia|].
    rewrite Hrow, Hrows by lia. lia. }
  split; [by rewrite length_set2|].
  split; [intros r; by rewrite length_set2_row|].
  split; [|split].
  - intros r c Hrc. rewrite Hget, decide_False by lia.
    apply Hother. lia.
  - rewrite Hget, decide_False by lia. done.
  - intros m Hm. rewrite !Hget.
    destruct (decide (m = j)) as [->|Hne].
    + rewrite decide_True, decide_False by lia.
      f_equal. f_equal. apply Hother. lia.
    + rewrite !decide_False by lia. apply Hrec. lia.
Qed.

Lemma esp_row_spec (x : list Qc) (i : nat) (E : matrix Qc) :
  0 < i < length E → (∀ r, r < length E → length (E !!! r) = S (length x)) →
  (∀ m, m ≤ length x → get2 E (i - 1) m = esp (i - 1) (take m x)) →
  get2 E i 0 = 0%Qc →
  length (esp_row x i E) = length E
  ∧ (∀ r, length (esp_row x i E !!! r) = length (E !!! r))
  ∧ (∀ r c, r ≠ i → get2 (esp_row x i E) r c = get2 E r c)
  ∧ ∀ m, m ≤ length x → get2 (esp_row x i E) i m = esp i (take m x).
Proof.
  intros Hi Hrows Hprev Hzero.
  destruct (esp_row_prefix x i E (length x) Hi Hrows (le_n _))
    as (Hlen & Hrow & Hother & Hz & Hrec).
  fold (esp_row x i E) in *.
  split; [done|]. split; [done|]. split; [intros; apply Hother; by left|].
  destruct i as [|i]; [lia|]. cbn [Nat.sub] in *.
  rewrite Nat.sub_0_r in *.
  induction m as [|m IH]; intros Hm.
  - by rewrite Hz, Hzero.
  - rewrite Hrec, IH, Hprev by lia.
    destruct (lookup_lt_is_Some_2 x m ltac:(lia)) as [a Ha].
    rewrite (take_S_r _ _ _ Ha), esp_snoc.
    by rewrite (list_lookup_total_correct _ _ _ Ha).
Qed.

Lemma esp_rows (x : list Qc) (R t : nat) :
  t < R →
  let E := foldl (λ E i, esp_row x i E)
                 (<[0 := replicate (S (length x)) 1%Qc]>
                    (zeros R (S (length x))))
                 (seq 1 t) in
  length E = R
  ∧ (∀ r, r < R → length (E !!! r) = S (length x))
  ∧ (∀ r m, r ≤ t → m ≤ length x → get2 E r m = esp r (take m x))
  ∧ (∀ r, t < r → r < R → get2 E r 0 = 0%Qc).
Proof.
  induction t as [|t IH]; intros Ht; cbn zeta.
  - cbn [seq foldl]. unfold zeros.
    split; [by rewrite length_insert, length_replicate|].
    split; [|split].
    + intros r Hr. rewrite list_lookup_total_insert, length_replicate.
      case_decide; [apply length_replicate|].
      rewrite lookup_total_replicate_2 by lia. apply length_replicate.
    + intros r m Hr Hm. assert (r = 0) as -> by lia. unfold get2.
      rewrite list_lookup_total_insert, length_replicate.
      rewrite decide_True by lia.
      rewrite lookup_total_replicate_2 by lia. by rewrite esp_0.
    + intros r Hr HrR. unfold get2.
      rewrite list_lookup_total_insert, length_replicate.
      rewrite decide_False by lia.
      rewrite !lookup_total_replicate_2 by lia. done.
  - rewrite seq_S, foldl_app. cbn [foldl Nat.add].
    destruct IH as (Hlen & Hrows & Hlow & Hzero); [lia|].
    set (E := foldl _ _ (seq 1 t)) in *.
    destruct (esp_row_spec x (S t) E) as (Hlen' & Hrow' & Hother & Hnew).
    + lia.
    + intros r Hr. apply Hrows. lia.
    + cbn [Nat.sub]. rewrite Nat.sub_0_r. intros m Hm. by apply Hlow.
    + apply Hzero; lia.
    + split; [congruence|]. split; [|split].
      * intros r Hr. rewrite Hrow'. by apply Hrows.
      * intros r m Hr Hm. destruct (decide (r = S t)) as [->|Hne].
        -- by apply Hnew.
        -- rewrite Hother by done. apply Hlow; lia.
      * intros r Hr HrR. rewrite Hother by lia. apply Hzero; lia.
Qed.

(** X11.  For a degree [k >= 0] the function returns a table with [k + 1]
    rows and [n + 1] columns ([n] the number of points) whose entry
    [(i, m)] is the elementary symmetric polynomial of degree [i] of the
    first [m] points: the sum over all choices of [i] of these points of
    their product. *)
Theorem elementary_symmetric_polynomials_table :
  ∀ (k : Z) (x : list Qc),
    (0 ≤ k)%Z →
    ∃ E, elementary_symmetric_polynomials k x = Ok E
         ∧ has_shape (Z.to_nat k + 1) (length x + 1) E
         ∧ ∀ i m, i ≤ Z.to_nat k → m ≤ length x →
             get2 E i m = esp i (take m x).
Proof.
  intros k x Hk. unfold elementary_symmetric_polynomials.
  rewrite !bool_decide_eq_false_2 by lia. eexists. split; [reflexivity|].
  replace (Z.to_nat (k + 1)) with (S (Z.to_nat k)) by lia.
  destruct (esp_rows x (S (Z.to_nat k)) (Z.to_nat k) ltac:(lia))
    as (Hlen & Hrows & Hlow & _).
  split; [|done]. split; [lia|].
  intros row (r & Hr)%list_elem_of_lookup_1.
  pose proof (lookup_lt_Some _ _ _ Hr) as Hlt.
  rewrite <- (list_lookup_total_correct _ _ _ Hr), Hrows; lia.
Qed.

Lemma elementary_symmetric_polynomials_table_witness :
  ∃ E, elementary_symmetric_polynomials 2 [qz 1; qz 2; qz 3] = Ok E
       ∧ has_shape (Z.to_nat 2 + 1) (length [qz 1; qz 2; qz 3] + 1) E
       ∧ ∀ i m, i ≤ Z.to_nat 2 → m ≤ length [qz 1; qz 2; qz 3] →
           get2 E i m = esp i (take m [qz 1; qz 2; qz 3]).
Proof.
  apply (elementary_symmetric_polynomials_table 2 [qz 1; qz 2; qz 3]). lia.
Defined.

(** X12.  A negative degree never yields a table: [k = -1] fails with
    [IndexError] at [E[0, :] = 1.0], the array having no row, and
    [k < -1] with the [ValueError] of [np.zeros]. *)
Theorem elementary_symmetric_polynomials_negative_degree :
  ∀ (k : Z) (x : list Qc),
    (k < 0)%Z →
    elementary_symmetric_polynomials k x
    = Raise (if decide (k = -1)%Z then IndexError else ValueError).
Proof.
  intros k x Hk. unfold elementary_symmetric_polynomials.
  case_decide; subst; [done|].
  by rewrite bool_decide_eq_true_2 by lia.
Qed.

Lemma elementary_symmetric_polynomials_negative_degree_witness :
  elementary_symmetric_polynomials (-1) [qz 1; qz 2] = Raise IndexError
  ∧ elementary_symmetric_polynomials (-2) [qz 1; qz 2] = Raise ValueError.
Proof.
  split.
  - apply (elementary_symmetric_polynomials_negative_degree (-1)). lia.
  - apply (elementary_symmetric_polynomials_negative_degree (-2)). lia.
Defined.

(** ** The checks on the entries of an array *)

Lemma forallb_zip_with_fmap {A : Type} (f : bool → bool → bool)
    (g h : A → bool) (a : list A) :
  forallb id (zip_with f (g <$> a) (h <$> a)) = true
  ↔ ∀ v, v ∈ a → f (g v) (h v) = true.
Proof.
  induction a as [|x a IH]; cbn.
  - split; [intros _ v Hv; by apply elem_of_nil in Hv|done].
  - rewrite andb_true_iff, IH. split.
    + intros [Hx Ha] v [->|Hv]%elem_of_cons; [done|by apply Ha].
    + intros Hall. split; [apply Hall; left|intros v Hv; apply Hall; by right].
Qed.

Lemma forallb_fmap {A : Type} (g : A → bool) (a : list A) :
  forallb id (g <$> a) = true ↔ ∀ v, v ∈ a → g v = true.
Proof.
  induction a as [|x a IH]; cbn.
  - split; [intros _ v Hv; by apply elem_of_nil in Hv|done].
  - rewrite andb_true_iff, IH. split.
    + intros [Hx Ha] v [->|Hv]%elem_of_cons; [done|by apply Ha].
    + intros Hall. split; [apply Hall; left|intros v Hv; apply Hall; by right].
Qed.

Lemma check_equal_to_O_or_1_ok (a : list Qc) (tol : Qc) :
  check_equal_to_O_or_1 (Some a) tol = Ok ()
  ↔ ∀ v, v ∈ a →
      xorb (Qcleb (Qcabs v) tol) (Qcleb (Qcabs (1 - v)) tol) = true.
Proof.
  unfold check_equal_to_O_or_1. rewrite <- forallb_zip_with_fmap.
  destruct (forallb _ _); split; done.
Qed.

Lemma check_in_01_ok (a : list Qc) (tol : Qc) :
  check_in_01 (Some a) tol = Ok ()
  ↔ ∀ v, v ∈ a → (- tol <= v)%Qc ∧ (v <= 1 + tol)%Qc.
Proof.
  unfold check_in_01.
  assert (Hall : forallb id
            (zip_with andb ((λ v, Qcleb (- tol) v) <$> a)
                           ((λ v, Qcleb v (1 + tol)) <$> a)) = true
          ↔ ∀ v, v ∈ a → (- tol <= v)%Qc ∧ (v <= 1 + tol)%Qc).
  { rewrite forallb_zip_with_fmap. apply forall_proper. intros v.
    by rewrite andb_true_iff, !Qcleb_le. }
  rewrite <- Hall. destruct (forallb _ _); split; done.
Qed.

Lemma check_geq_0_ok (a : list Qc) (tol : Qc) :
  check_geq_0 (Some a) tol = Ok () ↔ ∀ v, v ∈ a → (- tol <= v)%Qc.
Proof.
  unfold check_geq_0.
  assert (Hall : forallb id ((λ v, Qcleb (- tol) v) <$> a) = true
          ↔ ∀ v, v ∈ a → (- tol <= v)%Qc).
  { rewrite forallb_fmap. apply forall_proper. intros v.
    by rewrite Qcleb_le. }
  rewrite <- Hall. destruct (forallb _ _); split; done.
Qed.

(** X13.  With a tolerance below 1/2, [check_equal_to_O_or_1] accepts an
    array exactly when each entry is within [tol] of 0 or within [tol]
    of 1. *)
Theorem check_equal_to_O_or_1_accepts_near_0_or_1 :
  ∀ (a : list Qc) (tol : Qc),
    (tol < half)%Qc →
    check_equal_to_O_or_1 (Some a) tol = Ok ()
    ↔ ∀ v, v ∈ a → (Qcabs v <= tol)%Qc ∨ (Qcabs (1 - v) <= tol)%Qc.
Proof.
  intros a tol Htol. rewrite check_equal_to_O_or_1_ok.
  apply forall_proper. intros v. apply forall_proper. intros _.
  destruct (Qcleb (Qcabs v) tol) eqn:H0;
    destruct (Qcleb (Qcabs (1 - v)) tol) eqn:H1; cbn.
  - apply Qcleb_le, Qcabs_Qcle_condition in H0, H1.
    exfalso. unfold half in Htol. destruct H0, H1. qc_lra.
  - apply Qcleb_le in H0. split; [by left|done].
  - apply Qcleb_le in H1. split; [by right|done].
  - apply Qcleb_gt in H0, H1. split; [done|].
    intros [H|H]; exfalso;
      [by apply (Qclt_not_le _ _ H0)|by apply (Qclt_not_le _ _ H1)].
Qed.

Lemma check_equal_to_O_or_1_accepts_near_0_or_1_witness :
  (tol_default < half)%Qc
  ∧ (check_equal_to_O_or_1 (Some [qz 0; qz 1; qz 1]) tol_default = Ok ()
     ↔ ∀ v, v ∈ [qz 0; qz 1; qz 1] →
         (Qcabs v <= tol_default)%Qc ∨ (Qcabs (1 - v) <= tol_default)%Qc).
Proof.
  assert (Htol : (tol_default < half)%Qc) by (vm_compute; reflexivity).
  split; [exact Htol|].
  exact (check_equal_to_O_or_1_accepts_near_0_or_1 [qz 0; qz 1; qz 1]
           tol_default Htol).
Defined.

(** X14.  The two tests are combined with [logical_xor]: an entry that is
    within [tol] of 0 and within [tol] of 1 (there are such entries as soon
    as [tol >= 1/2]) makes the check raise, like an entry that is near
    neither. *)
Theorem check_equal_to_O_or_1_rejects_entry_near_both :
  ∀ (a : list Qc) (tol v : Qc),
    v ∈ a → (Qcabs v <= tol)%Qc → (Qcabs (1 - v) <= tol)%Qc →
    check_equal_to_O_or_1 (Some a) tol = Raise ValueError.
Proof.
  intros a tol v Hv H0 H1.
  destruct (check_equal_to_O_or_1 (Some a) tol) as [[]|e] eqn:Hcheck.
  - pose proof (proj1 (check_equal_to_O_or_1_ok a tol) Hcheck v Hv) as Hx.
    apply Qcleb_le in H0, H1. by rewrite H0, H1 in Hx.
  - revert Hcheck. unfold check_equal_to_O_or_1.
    destruct (forallb _ _); congruence.
Qed.

Lemma check_equal_to_O_or_1_rejects_entry_near_both_witness :
  check_equal_to_O_or_1 (Some [qz 0; half; qz 1]) half = Raise ValueError.
Proof.
  apply (check_equal_to_O_or_1_rejects_entry_near_both
           [qz 0; half; qz 1] half half).
  - apply (list_elem_of_lookup_2 _ 1). reflexivity.
  - vm_compute. discriminate 1.
  - vm_compute. discriminate 1.
Defined.

(** X15.  The three checks are ordered: with the same tolerance, an array
    accepted by [check_equal_to_O_or_1] is accepted by [check_in_01], and
    an array accepted by [check_in_01] is accepted by [check_geq_0];
    [None] is accepted by all three. *)
Theorem entry_checks_are_ordered :
  ∀ (array : option (list Qc)) (tol : Qc),
    (check_equal_to_O_or_1 array tol = Ok () →
     check_in_01 array tol = Ok ())
    ∧ (check_in_01 array tol = Ok () → check_geq_0 array tol = Ok ())
    ∧ check_equal_to_O_or_1 None tol = Ok ()
    ∧ check_in_01 None tol = Ok ()
    ∧ check_geq_0 None tol = Ok ().
Proof.
  intros [a|] tol; [|done].
  split; [|split; [|done]].
  - rewrite check_equal_to_O_or_1_ok, check_in_01_ok.
    intros Hall v Hv. specialize (Hall v Hv).
    destruct (Qcleb (Qcabs v) tol) eqn:H0;
      destruct (Qcleb (Qcabs (1 - v)) tol) eqn:H1; try discriminate.
    + apply Qcleb_le, Qcabs_Qcle_condition in H0 as [Ha Hb].
      split; [done|qc_lra].
    + apply Qcleb_le, Qcabs_Qcle_condition in H1 as [Ha Hb].
      split; qc_lra.
  - rewrite check_in_01_ok, check_geq_0_ok.
    intros Hall v Hv. by apply Hall.
Qed.

(** ** [kernel_minimum] *)

Lemma forallb_elem_of {A : Type} (f : A → bool) (l : list A) :
  forallb f l = true ↔ ∀ x, x ∈ l → f x = true.
Proof.
  induction l as [|a l IH]; cbn.
  - split; [intros _ x Hx; by apply elem_of_nil in Hx|done].
  - rewrite andb_true_iff, IH. split.
    + intros [Ha Hl] x [->|Hx]%elem_of_cons; [done|by apply Hl].
    + intros Hall. split; [apply Hall; left|intros x Hx; apply Hall; by right].
Qed.

Lemma existsb_false_elem_of {A : Type} (f : A → bool) (l : list A) :
  existsb f l = false ↔ ∀ x, x ∈ l → f x = false.
Proof.
  induction l as [|a l IH]; cbn.
  - split; [intros _ x Hx; by apply elem_of_nil in Hx|done].
  - rewrite orb_false_iff, IH. split.
    + intros [Ha Hl] x [->|Hx]%elem_of_cons; [done|by apply Hl].
    + intros Hall. split; [apply Hall; left|intros x Hx; apply Hall; by right].
Qed.

Lemma np_minimum_comm (a b : Qc) : np_minimum a b = np_minimum b a.
Proof.
  unfold np_minimum.
  destruct (Qcleb a b) eqn:Hab; destruct (Qcleb b a) eqn:Hba; try done.
  - apply Qcleb_le in Hab, Hba. by apply Qcle_antisym.
  - apply Qcleb_gt in Hab, Hba. exfalso.
    by apply (Qclt_not_le _ _ Hab), Qclt_le_weak.
Qed.

Lemma np_minimum_le_l (a b : Qc) : (np_minimum a b <= a)%Qc.
Proof.
  unfold np_minimum. destruct (Qcleb a b) eqn:Hab; [apply Qcle_refl|].
  apply Qcleb_gt in Hab. by apply Qclt_le_weak.
Qed.

Lemma np_minimum_idem (a : Qc) : np_minimum a a = a.
Proof. unfold np_minimum. by destruct (Qcleb a a). Qed.

Lemma np_minimum_either (a b : Qc) : np_minimum a b = a ∨ np_minimum a b = b.
Proof. unfold np_minimum. destruct (Qcleb a b); auto. Qed.

Lemma get2_outer {A : Type} `{DType T} (f : A → A → T) (x y : list A)
    (i j : nat) (a b : A) :
  x !! i = Some a → y !! j = Some b →
  get2 ((λ a, f a <$> y) <$> x) i j = f a b.
Proof.
  intros Ha Hb. unfold get2.
  rewrite (list_lookup_total_correct _ i (f a <$> y))
    by (by rewrite list_lookup_fmap, Ha).
  apply list_lookup_total_correct. by rewrite list_lookup_fmap, Hb.
Qed.

(** X16.  When [kernel_minimum(x)] returns, every entry of [x] is in
    [[-tol, 1 + tol]] for the default tolerance and the result is the
    [n]x[n] array of the pairwise minima: it is symmetric, its diagonal is
    [x], no entry of a row exceeds the diagonal entry of that row, and
    every entry is one of the two numbers it is the minimum of, hence in
    [[-tol, 1 + tol]] too. *)
Theorem kernel_minimum_is_symmetric_with_diagonal_x :
  ∀ (x : list Qc) (K : matrix Qc),
    kernel_minimum x None = Ok K →
    has_shape (length x) (length x) K
    ∧ ∀ i j, i < length x → j < length x →
        get2 K i j = get2 K j i
        ∧ get2 K i i = x !!! i
        ∧ (get2 K i j <= get2 K i i)%Qc
        ∧ (- tol_default <= get2 K i j)%Qc
        ∧ (get2 K i j <= 1 + tol_default)%Qc.
Proof.
  intros x K. unfold kernel_minimum.
  destruct (check_in_01 (Some x) tol_default) as [[]|e] eqn:Hcheck;
    [|discriminate].
  intros [= <-].
  pose proof (proj1 (check_in_01_ok x tol_default) Hcheck) as Hin.
  split.
  { split; [by rewrite length_fmap|].
    intros row (a & -> & _)%list_elem_of_fmap. by rewrite length_fmap. }
  intros i j Hi Hj.
  destruct (lookup_lt_is_Some_2 x i Hi) as [a Ha].
  destruct (lookup_lt_is_Some_2 x j Hj) as [b Hb].
  rewrite (get2_outer np_minimum x x i j a b),
    (get2_outer np_minimum x x j i b a),
    (get2_outer np_minimum x x i i a a) by done.
  rewrite np_minimum_idem, (list_lookup_total_correct _ _ _ Ha).
  split; [apply np_minimum_comm|]. split; [done|].
  split; [apply np_minimum_le_l|].
  destruct (Hin a) as [Ha1 Ha2]; [by eapply list_elem_of_lookup_2|].
  destruct (Hin b) as [Hb1 Hb2]; [by eapply list_elem_of_lookup_2|].
  by destruct (np_minimum_either a b) as [-> | ->].
Qed.

Lemma kernel_minimum_is_symmetric_with_diagonal_x_witness :
  let x := [qq 1 2; qz 0; qz 1] in
  ∃ K, kernel_minimum x None = Ok K
       ∧ has_shape (length x) (length x) K
       ∧ ∀ i j, i < length x → j < length x →
           get2 K i j = get2 K j i
           ∧ get2 K i i = x !!! i
           ∧ (get2 K i j <= get2 K i i)%Qc
           ∧ (- tol_default <= get2 K i j)%Qc
           ∧ (get2 K i j <= 1 + tol_default)%Qc.
Proof.
  intros x.
  destruct (kernel_minimum x None) as [K|e] eqn:HK.
  - exists K. split; [reflexivity|].
    exact (kernel_minimum_is_symmetric_with_diagonal_x x K HK).
  - exfalso. vm_compute in HK. discriminate HK.
Defined.

(** ** [stable_filter] and [stable_invert_root] *)

Lemma Qc_mul_nonneg (a b : Qc) : (0 <= a)%Qc → (0 <= b)%Qc → (0 <= a * b)%Qc.
Proof.
  intros Ha Hb. unfold Qcle in *.
  change (this (a * b)%Qc) with (Qred (this a * this b)).
  rewrite Qred_correct. by apply Qmult_le_0_compat.
Qed.

Lemma Qc_mul_pos (a b : Qc) : (0 < a)%Qc → (0 < b)%Qc → (0 < a * b)%Qc.
Proof.
  intros Ha Hb. unfold Qclt in *.
  change (this (a * b)%Qc) with (Qred (this a * this b)).
  rewrite Qred_correct. by apply Qmult_lt_0_compat.
Qed.

Lemma Qc_of_nat_pos (n : nat) : 0 < n → (0 < Qc_of_Z (Z.of_nat n))%Qc.
Proof.
  intros Hn. unfold Qclt, Qc_of_Z.
  change (this (Q2Qc (inject_Z (Z.of_nat n))))
    with (Qred (inject_Z (Z.of_nat n))).
  rewrite Qred_correct. change (this 0%Qc) with 0%Q.
  unfold Qlt, inject_Z. cbn [Qnum Qden]. lia.
Qed.

Lemma float64_eps_pos : (0 < float64_eps)%Qc.
Proof. reflexivity. Qed.

Lemma max_abs_nonneg (v : list Qc) : (0 <= max_abs v)%Qc.
Proof.
  induction v as [|a v IH]; cbn; [apply Qcle_refl|].
  destruct (Qcleb _ _); [apply Qcabs_nonneg|done].
Qed.

Lemma max_abs_ge (v : list Qc) (a : Qc) :
  a ∈ v → (Qcabs a <= max_abs v)%Qc.
Proof.
  induction v as [|b v IH]; [by intros ?%elem_of_nil|].
  cbn. intros [->|Ha]%elem_of_cons.
  - destruct (Qcleb _ _) eqn:Hcmp; [apply Qcle_refl|].
    apply Qcleb_gt in Hcmp. by apply Qclt_le_weak.
  - specialize (IH Ha). destruct (Qcleb _ _) eqn:Hcmp; [|done].
    apply Qcleb_le in Hcmp. by eapply Qcle_trans.
Qed.

Lemma stable_thresh_nonneg (v : list Qc) : (0 <= stable_thresh v)%Qc.
Proof.
  unfold stable_thresh. apply Qc_mul_nonneg; [apply Qc_mul_nonneg|].
  - apply max_abs_nonneg.
  - destruct v; [apply Qcle_refl|].
    apply Qclt_le_weak, Qc_of_nat_pos. cbn. lia.
  - apply Qclt_le_weak, float64_eps_pos.
Qed.

(** The threshold is 0 only for a spectrum that is 0 throughout. *)
Lemma stable_thresh_pos (v : list Qc) (a : Qc) :
  a ∈ v → a ≠ 0%Qc → (0 < stable_thresh v)%Qc.
Proof.
  intros Ha Hne. unfold stable_thresh.
  apply Qc_mul_pos; [apply Qc_mul_pos|apply float64_eps_pos].
  - eapply Qclt_le_trans; [|by apply max_abs_ge].
    destruct (Qcle_lt_or_eq _ _ (Qcabs_nonneg a)) as [Hlt|Heq]; [done|].
    exfalso. apply Hne. symmetry in Heq.
    assert (Hle : (Qcabs a <= 0)%Qc) by (rewrite Heq; apply Qcle_refl).
    apply Qcabs_Qcle_condition in Hle as [H1 H2].
    apply Qcle_antisym; [done|exact H1].
  - apply Qc_of_nat_pos. destruct v; [by apply elem_of_nil in Ha|cbn; lia].
Qed.

Lemma select_fmap_filter {A : Type} (f : A → bool) (l : list A) :
  select (f <$> l) l = filter (λ a, f a = true) l.
Proof.
  unfold select. induction l as [|a l IH]; [done|].
  cbn [fmap list_fmap zip_with omap]. rewrite filter_cons.
  destruct (f a) eqn:Hf; cbn.
  - rewrite decide_True by done. by rewrite <- IH.
  - rewrite decide_False by done. exact IH.
Qed.

Lemma filter_ext_elem_of {A : Type} (P Q : A → Prop)
    `{!∀ x, Decision (P x)} `{!∀ x, Decision (Q x)} (l : list A) :
  (∀ x, x ∈ l → P x ↔ Q x) → filter P l = filter Q l.
Proof.
  induction l as [|a l IH]; intros Hext; [done|].
  rewrite !filter_cons.
  rewrite IH by (intros x Hx; apply Hext; by right).
  destruct (decide (P a)) as [HP|HP], (decide (Q a)) as [HQ|HQ]; try done.
  - exfalso. apply HQ, Hext; [left|done].
  - exfalso. apply HP, Hext; [left|done].
Qed.

Lemma length_select {A : Type} (rem : list bool) (x : list A) :
  length x = length rem →
  length (select rem x) = length (filter (λ b : bool, b = true) rem).
Proof.
  unfold select. revert x.
  induction rem as [|b rem IH]; intros [|a x] Hlen; try done.
  cbn [zip_with omap]. rewrite filter_cons. injection Hlen as Hlen.
  destruct b; cbn.
  - rewrite decide_True by done. cbn. f_equal. by apply IH.
  - rewrite decide_False by done. by apply IH.
Qed.

Lemma map_this_inj (x y : list Qc) : map this x = map this y → x = y.
Proof.
  revert y. induction x as [|a x IH]; intros [|b y] E; try discriminate;
    [done|].
  cbn in E. injection E as Eab Exy.
  f_equal; [by apply Qc_this_inj|by apply IH].
Qed.

(** The two ways a call of [stable_filter] ends. *)
Lemma stable_filter_spec (eigenvec : matrix Qc) (eigenval : list Qc) :
  let n := length eigenvec in
  let thresh := stable_thresh eigenval in
  let stable_eig := (λ a, negb (Qcleb (Qcabs a) thresh)) <$> eigenval in
  let accepted :=
    has_shape n n eigenvec ∧ length eigenval = n ∧ eigenval ≠ []
    ∧ ∀ a, a ∈ eigenval → (- thresh < a)%Qc in
  (accepted
   ∧ stable_filter eigenvec eigenval
     = Ok (select stable_eig <$> eigenvec, select stable_eig eigenval))
  ∨ (¬ accepted ∧ stable_filter eigenvec eigenval = Raise ValueError).
Proof.
  intros n thresh stable_eig accepted. unfold accepted, stable_filter.
  fold n thresh stable_eig.
  destruct (forallb (λ row, length row =? n) eigenvec) eqn:Hrows; cbn;
    [|right; split; [|done]].
  2:{ intros ([_ Hsh] & _). apply not_true_iff_false in Hrows.
      apply Hrows, forallb_elem_of. intros row Hrow.
      apply Nat.eqb_eq. by apply Hsh. }
  pose proof (proj1 (forallb_elem_of _ _) Hrows) as Hshape.
  destruct (length eigenval =? n) eqn:Hlen; cbn;
    [|right; split; [|done]].
  2:{ intros (_ & Hl & _). apply Nat.eqb_neq in Hlen. done. }
  apply Nat.eqb_eq in Hlen.
  case_bool_decide as Hnil;
    [right; split; [|done]; by intros (_ & _ & ? & _)|].
  destruct (existsb _ eigenval) eqn:Hneg; [right; split; [|done]|].
  { intros (_ & _ & _ & Hpos). apply not_false_iff_true in Hneg.
    apply Hneg, existsb_false_elem_of. intros a Ha.
    apply Qcleb_gt. by apply Hpos. }
  pose proof (proj1 (existsb_false_elem_of _ _) Hneg) as Hpos.
  left. split.
  { split; [split; [done|]|split; [done|split; [done|]]].
    - intros row Hrow. by apply Nat.eqb_eq, Hshape.
    - intros a Ha. by apply Qcleb_gt, Hpos. }
  set (m := length (filter (λ b : bool, b = true) stable_eig)).
  assert (Hmask : length stable_eig = n)
    by (unfold stable_eig; by rewrite length_fmap).
  assert (Hthin : forallb (λ row, length row =? m)
                    (select stable_eig <$> eigenvec) = true).
  { apply forallb_elem_of. intros row (r & -> & Hr)%list_elem_of_fmap.
    apply Nat.eqb_eq, length_select. rewrite Hmask.
    by apply Nat.eqb_eq, Hshape. }
  rewrite Hthin, length_fmap. fold n. rewrite Nat.eqb_refl.
  rewrite length_select by congruence. fold m. by rewrite Nat.eqb_refl.
Qed.

Lemma stable_filter_kept (eigenval : list Qc) :
  let thresh := stable_thresh eigenval in
  (∀ a, a ∈ eigenval → (- thresh < a)%Qc) →
  select ((λ a, negb (Qcleb (Qcabs a) thresh)) <$> eigenval) eigenval
  = filter (λ a, (thresh < a)%Qc) eigenval.
Proof.
  intros thresh Hpos. rewrite select_fmap_filter.
  apply filter_ext_elem_of. intros a Ha. specialize (Hpos a Ha).
  pose proof (stable_thresh_nonneg eigenval) as Hth. fold thresh in Hth.
  rewrite negb_true_iff, Qcleb_gt. split.
  - intros Habs. apply Qcnot_le_lt. intros Hle.
    apply (Qclt_not_le _ _ Habs), Qcabs_Qcle_condition.
    split; [by apply Qclt_le_weak|done].
  - intros Hlt. apply Qcnot_le_lt.
    intros [_ Hle]%Qcabs_Qcle_condition.
    by apply (Qclt_not_le _ _ Hlt).
Qed.


(** The threshold is positive whenever no eigenvalue is at or below its
    opposite. *)
Lemma stable_thresh_pos_of_accepted (eigenval : list Qc) :
  eigenval ≠ [] →
  (∀ a, a ∈ eigenval → (- stable_thresh eigenval < a)%Qc) →
  (0 < stable_thresh eigenval)%Qc.
Proof.
  intros Hne Hpos. set (thresh := stable_thresh eigenval) in *.
  destruct eigenval as [|a l]; [done|].
  destruct (decide (a = 0%Qc)) as [->|Ha].
  - specialize (Hpos 0%Qc ltac:(left)).
    apply Qcnot_le_lt. intros Hle. apply (Qclt_not_le _ _ Hpos).
    pose proof (stable_thresh_nonneg (0%Qc :: l)) as Hge.
    fold thresh in Hge.
    assert (thresh = 0%Qc) as -> by (by apply Qcle_antisym).
    apply Qcle_refl.
  - apply (stable_thresh_pos _ a); [left|done].
Qed.

Lemma stable_filter_ok_positive (eigenvec eigenvec_thin : matrix Qc)
    (eigenval eigenval_thin : list Qc) :
  stable_filter eigenvec eigenval = Ok (eigenvec_thin, eigenval_thin) →
  ∀ a, a ∈ eigenval_thin → (0 < a)%Qc.
Proof.
  destruct (stable_filter_spec eigenvec eigenval) as [[Hok ->]|[Hno ->]];
    [|discriminate].
  destruct Hok as (_ & _ & Hne & Hpos). intros [= _ <-].
  pose proof (stable_thresh_pos_of_accepted eigenval Hne Hpos) as Hth.
  rewrite (stable_filter_kept eigenval Hpos).
  intros a [Ha _]%list_elem_of_filter. by eapply Qclt_trans.
Qed.



Lemma max_abs_zero (v : list Qc) :
  (∀ a, a ∈ v → a = 0%Qc) → max_abs v = 0%Qc.
Proof.
  induction v as [|a v IH]; intros Hzero; [done|].
  change (max_abs (a :: v))
    with (if Qcleb (max_abs v) (Qcabs a) then Qcabs a else max_abs v).
  rewrite (Hzero a) by left.
  rewrite IH by (intros c Hc; apply Hzero; by right).
  apply Qc_this_inj. reflexivity.
Qed.

(** X19.  A spectrum that is 0 throughout is rejected: the threshold is
    then 0 and [eigenval <= -thresh] holds for each entry, so the function
    raises the [ValueError] about negative eigenvalues (or, for arrays of
    the wrong shapes or without entries, another [ValueError]). *)
Theorem stable_filter_rejects_zero_spectrum :
  ∀ (eigenvec : matrix Qc) (eigenval : list Qc),
    (∀ a, a ∈ eigenval → a = 0%Qc) →
    stable_filter eigenvec eigenval = Raise ValueError.
Proof.
  intros eigenvec eigenval Hzero.
  destruct (stable_filter_spec eigenvec eigenval) as [[Hok _]|[_ ->]];
    [exfalso|done].
  destruct Hok as (_ & _ & Hne & Hpos).
  destruct eigenval as [|a l]; [done|].
  specialize (Hpos a ltac:(left)). cbn zeta in Hpos.
  assert (Hth : stable_thresh (a :: l) = 0%Qc).
  { unfold stable_thresh. rewrite max_abs_zero by done. ring. }
  rewrite Hth, (Hzero a) in Hpos by left.
  by apply (Qclt_not_le _ _ Hpos).
Qed.

Lemma stable_filter_rejects_zero_spectrum_witness :
  stable_filter K_id3 [qz 0; qz 0; qz 0] = Raise ValueError.
Proof.
  apply (stable_filter_rejects_zero_spectrum K_id3 [qz 0; qz 0; qz 0]).
  intros a Ha. repeat (apply elem_of_cons in Ha as [->|Ha]);
    [apply Qc_this_inj; reflexivity..|by apply elem_of_nil in Ha].
Defined.

Lemma sqrt_of_square_pos (a : Qc) : (0 < a)%Qc → (0 < sqrt_of_square a)%Qc.
Proof.
  intros Ha. unfold sqrt_of_square, Qclt in *.
  change (this (Q2Qc (Z.sqrt (Qnum a) # Pos.sqrt (Qden a))))
    with (Qred (Z.sqrt (Qnum a) # Pos.sqrt (Qden a))).
  rewrite Qred_correct. change (this 0%Qc) with 0%Q in *.
  unfold Qlt in *. cbn [Qnum Qden] in *.
  assert (0 < Z.sqrt (Qnum a))%Z by (apply Z.sqrt_pos; lia). lia.
Qed.

(** X20.  [stable_invert_root] raises whenever [stable_filter] does, with
    the same exception.  Otherwise it returns the [eigenvec_thin] of
    [stable_filter] and a column with one row per eigenvalue kept, holding
    [1 / sqrt(a)] for the eigenvalue [a] of that row; [a] is positive, so
    that with a square root that is positive on positive numbers no
    division by zero takes place. *)
Theorem stable_invert_root_inverts_positive_roots :
  ∀ (np_sqrt : Qc → Qc) (eigenvec : matrix Qc) (eigenval : list Qc),
    (∀ a, (0 < a)%Qc → (0 < np_sqrt a)%Qc) →
    match stable_filter eigenvec eigenval with
    | Raise e => stable_invert_root np_sqrt eigenvec eigenval = Raise e
    | Ok (eigenvec_thin, eigenval_thin) =>
        ∃ inv_root,
          stable_invert_root np_sqrt eigenvec eigenval
          = Ok (eigenvec_thin, inv_root)
          ∧ has_shape (length eigenval_thin) 1 inv_root
          ∧ ∀ i a, eigenval_thin !! i = Some a →
              (0 < np_sqrt a)%Qc
              ∧ get2 inv_root i 0 = (1 / np_sqrt a)%Qc
              ∧ (0 < get2 inv_root i 0)%Qc
    end.
Proof.
  intros np_sqrt eigenvec eigenval Hsqrt. unfold stable_invert_root.
  destruct (stable_filter eigenvec eigenval) as [[V L]|e] eqn:Hrun; [|done].
  pose proof (stable_filter_ok_positive _ _ _ _ Hrun) as Hpos.
  eexists. split; [reflexivity|]. split.
  { split; [by rewrite length_fmap|].
    by intros row (a & -> & _)%list_elem_of_fmap. }
  intros i a Ha.
  assert (Hroot : (0 < np_sqrt a)%Qc).
  { apply Hsqrt, Hpos. by eapply list_elem_of_lookup_2. }
  assert (Hget : get2 ((λ a, [(1 / np_sqrt a)%Qc]) <$> L) i 0
                 = (1 / np_sqrt a)%Qc).
  { unfold get2.
    rewrite (list_lookup_total_correct _ i [(1 / np_sqrt a)%Qc]); [done|].
    by rewrite list_lookup_fmap, Ha. }
  rewrite Hget. split; [done|]. split; [done|].
  unfold Qcdiv. rewrite Qcmult_1_l. by apply Qcinv_pos.
Qed.

Lemma stable_invert_root_inverts_positive_roots_witness :
  ∃ inv_root,
    stable_invert_root sqrt_of_square K_id3 [qz 4; qz 0; qq 1 4]
    = Ok ([[qz 1; qz 0]; [qz 0; qz 0]; [qz 0; qz 1]], inv_root)
    ∧ has_shape (length [qz 4; qq 1 4]) 1 inv_root
    ∧ ∀ i a, [qz 4; qq 1 4] !! i = Some a →
        (0 < sqrt_of_square a)%Qc
        ∧ get2 inv_root i 0 = (1 / sqrt_of_square a)%Qc
        ∧ (0 < get2 inv_root i 0)%Qc.
Proof.
  pose proof (stable_invert_root_inverts_positive_roots sqrt_of_square
                K_id3 [qz 4; qz 0; qq 1 4] sqrt_of_square_pos) as Hroot.
  assert (Hrun : stable_filter K_id3 [qz 4; qz 0; qq 1 4]
                 = Ok ([[qz 1; qz 0]; [qz 0; qz 0]; [qz 0; qz 1]],
                       [qz 4; qq 1 4])).
  { destruct (stable_filter_spec K_id3 [qz 4; qz 0; qq 1 4])
      as [[_ ->]|[Hno _]].
    - apply (f_equal Ok), pair_equal_spec.
      split; [apply entries_Q_inj|apply map_this_inj];
        vm_compute; reflexivity.
    - exfalso. apply Hno.
      split; [by apply square_concrete|].
      split; [done|]. split; [done|].
      intros a Ha. repeat (apply elem_of_cons in Ha as [->|Ha]);
        [vm_compute; reflexivity..|by apply elem_of_nil in Ha]. }
  rewrite Hrun in Hroot. exact Hroot.
Defined.

(** ** The checks on matrices *)

Lemma isclose_refl (a : Qc) : isclose a a = true.
Proof.
  unfold isclose. apply Qcleb_le.
  replace (a - a)%Qc with 0%Qc by ring.
  replace (Qcabs 0) with 0%Qc by (apply Qc_this_inj; reflexivity).
  pose proof (Qcabs_nonneg a) as Habs.
  assert (Hmul : (0 <= rtol_default * Qcabs a)%Qc)
    by (apply Qc_mul_nonneg; [discriminate 1|done]).
  assert (Htol : (0 <= tol_default)%Qc) by discriminate 1.
  revert Hmul Htol. generalize (rtol_default * Qcabs a)%Qc tol_default.
  intros u v Hu Hv. qc_lra.
Qed.

Lemma allclose_refl (A : matrix Qc) : allclose A A = true.
Proof.
  unfold allclose. induction A as [|row A IH]; [done|].
  cbn [zip_with forallb]. rewrite IH, andb_true_r. unfold id at 1.
  induction row as [|a row IHrow]; [done|].
  cbn [zip_with forallb]. rewrite IHrow, andb_true_r. apply isclose_refl.
Qed.

Lemma py_index_lt (n : nat) (z : Z) (i : nat) :
  py_index n z = Some i → i < n.
Proof.
  unfold py_index. repeat case_bool_decide; intros [= <-]; lia.
Qed.

Lemma checked_indices_lt (n : nat) (indices : option (list Z))
    (idx : list nat) :
  checked_indices n indices = Ok idx → ∀ i, i ∈ idx → i < n.
Proof.
  unfold checked_indices. destruct indices as [l|].
  - destruct (mapM (py_index n) l) as [k|] eqn:Hk; [|discriminate].
    intros [= <-] i Hi. apply mapM_Some in Hk.
    apply list_elem_of_lookup_1 in Hi as [p Hp].
    destruct (Forall2_lookup_r _ _ _ _ _ Hk Hp) as (z & _ & Hz).
    by eapply py_index_lt.
  - intros Heq i Hi.
    assert (Hidx : idx = seq 0 (Nat.min 10 n)) by congruence.
    rewrite Hidx in Hi. apply elem_of_seq in Hi.
    pose proof (Nat.le_min_r 10 n). lia.
Qed.

Lemma check_square_square (N : nat) (A : matrix Qc) :
  square N A → check_square (Some A) = Ok ().
Proof.
  intros [Hlen Hrows]. unfold check_square.
  rewrite (proj2 (forallb_elem_of _ _)); [done|].
  intros row Hrow. apply Nat.eqb_eq. rewrite Hlen. by apply Hrows.
Qed.

Lemma gram_ext (A B : matrix Qc) (idx : list nat) (f g : nat → nat → Qc) :
  (∀ r c, r ∈ idx → c ∈ idx → f r c = g r c) →
  (λ r, (λ c, f r c) <$> idx) <$> idx = (λ r, (λ c, g r c) <$> idx) <$> idx.
Proof.
  intros Hext. apply list_fmap_ext. intros i r Hr.
  apply list_fmap_ext. intros j c Hc.
  apply Hext; by eapply list_elem_of_lookup_2.
Qed.

(** X21.  [check_hermitian] accepts every symmetric [float64] matrix,
    whatever the indices, as long as these are within bounds (an index out
    of bounds raises [IndexError]). *)
Theorem check_hermitian_accepts_symmetric :
  ∀ (N : nat) (A : matrix Qc) (indices : option (list Z)),
    hermitian_matrix N A →
    check_hermitian (Some A) indices
    = match checked_indices N indices with
      | Ok _ => Ok ()
      | Raise e => Raise e
      end.
Proof.
  intros N A indices [Hsq Hsym]. unfold check_hermitian.
  rewrite (check_square_square N) by done.
  destruct Hsq as [Hlen _]. rewrite Hlen.
  destruct (checked_indices N indices) as [idx|e] eqn:Hidx; [|done].
  pose proof (checked_indices_lt _ _ _ Hidx) as Hlt.
  unfold gram.
  rewrite (gram_ext A A idx (λ r c, get2 A c r) (λ r c, get2 A r c)).
  - by rewrite allclose_refl.
  - intros r c Hr Hc. apply (Hsym c r); by apply Hlt.
Qed.

Lemma check_hermitian_accepts_symmetric_witness :
  hermitian_matrix 5 K_centering
  ∧ check_hermitian (Some K_centering) (Some [0; -1; 2]%Z) = Ok ()
  ∧ check_hermitian (Some K_centering) (Some [0; 5]%Z) = Raise IndexError.
Proof.
  assert (Hherm : hermitian_matrix 5 K_centering).
  { split; [apply square_tabulate|].
    intros r c Hr Hc. unfold K_centering.
    rewrite !get2_tabulate by done. cbn.
    repeat case_decide; try done; lia. }
  split; [exact Hherm|]. split.
  - exact (check_hermitian_accepts_symmetric 5 K_centering
             (Some [0; -1; 2]%Z) Hherm).
  - exact (check_hermitian_accepts_symmetric 5 K_centering
             (Some [0; 5]%Z) Hherm).
Defined.

(** X22.  [check_hermitian] reads the entries [(r, c)] with [r] and [c]
    among the indices only: two square matrices of the same size that
    agree there get the same verdict.  Without [indices] these are the
    leading 10x10 entries, so a matrix that fails to be symmetric only
    outside of them is accepted. *)
Theorem check_hermitian_reads_indexed_block_only :
  ∀ (N : nat) (A B : matrix Qc) (indices : option (list Z)),
    square N A → square N B →
    (∀ idx r c, checked_indices N indices = Ok idx →
       r ∈ idx → c ∈ idx → get2 A r c = get2 B r c) →
    check_hermitian (Some A) indices = check_hermitian (Some B) indices.
Proof.
  intros N A B indices HA HB Hagree. unfold check_hermitian.
  rewrite (check_square_square N A), (check_square_square N B) by done.
  destruct HA as [HlenA _], HB as [HlenB _]. rewrite HlenA, HlenB.
  destruct (checked_indices N indices) as [idx|e] eqn:Hidx; [|done].
  unfold gram.
  rewrite (gram_ext A B idx (λ r c, get2 A c r) (λ r c, get2 B c r)),
    (gram_ext A B idx (λ r c, get2 A r c) (λ r c, get2 B r c)); [done|..].
  - intros r c Hr Hc. by apply (Hagree idx).
  - intros r c Hr Hc. by apply (Hagree idx).
Qed.

Lemma check_hermitian_reads_indexed_block_only_witness :
  let B : matrix Qc :=
    tabulate 11 (λ r c, if decide (r = c) then qz 1 else qz 0) in
  let A : matrix Qc :=
    tabulate 11 (λ r c, if decide (r = c) then qz 1
                        else if decide (r = 10 ∧ c = 0) then qz 7
                        else qz 0) in
  get2 A 10 0 ≠ get2 A 0 10
  ∧ check_hermitian (Some B) None = Ok ()
  ∧ check_hermitian (Some A) None = check_hermitian (Some B) None.
Proof.
  intros B A.
  split; [vm_compute; discriminate 1|].
  split; [vm_compute; reflexivity|].
  apply (check_hermitian_reads_indexed_block_only 11 A B None).
  - apply square_tabulate.
  - apply square_tabulate.
  - intros idx r c Heq Hr Hc.
    assert (idx = seq 0 10) as -> by (by injection Heq).
    apply elem_of_seq in Hr, Hc.
    unfold A, B. rewrite !get2_tabulate by lia.
    repeat case_decide; try done; lia.
Defined.

Lemma get2_mat_mul (N : nat) (A B : matrix Qc) (r c : nat) :
  r < length A → c < N →
  get2 (mat_mul N A B) r c = dot (A !!! r) (column B c).
Proof.
  intros Hr Hc. unfold get2, mat_mul.
  destruct (lookup_lt_is_Some_2 A r Hr) as [row Hrow].
  rewrite (list_lookup_total_correct _ r (vec_mat row B N))
    by (by rewrite list_lookup_fmap, Hrow).
  rewrite (list_lookup_total_correct _ _ _ Hrow). unfold vec_mat.
  apply list_lookup_total_correct.
  rewrite list_lookup_fmap, lookup_seq_lt by done. done.
Qed.

(** X23.  [check_projection] accepts every [float64] matrix with
    [M·M = M], whatever the indices, as long as these are within bounds
    (an index out of bounds raises [IndexError]). *)
Theorem check_projection_accepts_projections :
  ∀ (N : nat) (K : matrix Qc) (indices : option (list Z)),
    projection_kernel N K →
    check_projection (Some K) indices
    = match checked_indices N indices with
      | Ok _ => Ok ()
      | Raise e => Raise e
      end.
Proof.
  intros N K indices [Hsq Hproj]. unfold check_projection.
  rewrite (check_square_square N) by done.
  pose proof Hsq as [Hlen _]. rewrite Hlen.
  destruct (checked_indices N indices) as [idx|e] eqn:Hidx; [|done].
  pose proof (checked_indices_lt _ _ _ Hidx) as Hlt.
  unfold gram.
  rewrite (gram_ext K K idx (λ r c, dot (K !!! r) (column K c))
             (λ r c, get2 K r c)).
  - by rewrite allclose_refl.
  - intros r c Hr Hc. rewrite <- (get2_mat_mul N) by (rewrite ?Hlen; auto).
    by rewrite Hproj.
Qed.

Lemma check_projection_accepts_projections_witness :
  projection_kernel 4 K_oblique
  ∧ check_projection (Some K_oblique) None = Ok ().
Proof.
  split; [exact K_oblique_projection|].
  exact (check_projection_accepts_projections 4 K_oblique None
           K_oblique_projection).
Defined.

(** X24.  [check_orthonormal_columns] accepts a [float64] matrix as soon
    as the columns named by the indices are orthonormal in the order
    given: the product of the columns at positions [p] and [q] of [idx]
    is 1 for [p = q] and 0 otherwise.  The other columns are not read. *)
Theorem check_orthonormal_columns_accepts_orthonormal :
  ∀ (M : matrix Qc) (indices : option (list Z)) (idx : list nat),
    checked_indices (ncols M) indices = Ok idx →
    (∀ p q a b, idx !! p = Some a → idx !! q = Some b →
       dot (column M a) (column M b)
       = if decide (p = q) then 1%Qc else 0%Qc) →
    check_orthonormal_columns (Some M) indices = Ok ().
Proof.
  intros M indices idx Hidx Horth. unfold check_orthonormal_columns.
  rewrite Hidx.
  assert (Heye : (λ a, (λ b, dot (column M a) (column M b)) <$> idx) <$> idx
                 = identity (length idx)).
  { unfold identity. apply list_eq. intros p.
    rewrite !list_lookup_fmap.
    destruct (idx !! p) as [a|] eqn:Ha; cbn.
    - rewrite lookup_seq_lt by (by eapply lookup_lt_Some). cbn. f_equal.
      apply list_eq. intros q. rewrite !list_lookup_fmap.
      destruct (idx !! q) as [b|] eqn:Hb; cbn.
      + rewrite lookup_seq_lt by (by eapply lookup_lt_Some). cbn. f_equal.
        by apply Horth.
      + by rewrite lookup_seq_ge by (by apply lookup_ge_None).
    - by rewrite lookup_seq_ge by (by apply lookup_ge_None). }
  by rewrite Heye, allclose_refl.
Qed.

Lemma check_orthonormal_columns_accepts_orthonormal_witness :
  let M : matrix Qc :=
    [ [qz 1; qz 0; qz 5];
      [qz 0; qz 1; qz 5] ] in
  check_orthonormal_columns (Some M) (Some [0; 1]%Z) = Ok ().
Proof.
  intros M.
  apply (check_orthonormal_columns_accepts_orthonormal M (Some [0; 1]%Z)
           [0; 1]).
  - reflexivity.
  - intros p q a b Hp Hq.
    destruct p as [|[|p]], q as [|[|q]]; simplify_eq/=;
      apply Qc_this_inj; vm_compute; reflexivity.
Defined.

(** ** [kernel_linear] and [kernel_polynomial] *)

Lemma dot_comm (r s : list Qc) : dot r s = dot s r.
Proof.
  unfold dot, dt_sum. revert s.
  induction r as [|a r IH]; intros [|b s]; try done.
  cbn [zip_with foldr]. rewrite IH. cbn. f_equal. ring.
Qed.

Lemma Qc_square_nonneg (a : Qc) : (0 <= a * a)%Qc.
Proof.
  destruct (Qclt_le_dec a 0) as [Hneg|Hpos].
  - replace (a * a)%Qc with ((- a) * (- a))%Qc by ring.
    apply Qc_mul_nonneg; qc_lra.
  - by apply Qc_mul_nonneg.
Qed.

Lemma dot_self_nonneg (r : list Qc) : (0 <= dot r r)%Qc.
Proof.
  unfold dot, dt_sum. induction r as [|a r IH]; [apply Qcle_refl|].
  cbn [zip_with foldr].
  set (u := foldr dt_add dt_zero (zip_with dt_mul r r)) in *.
  change (0 <= a * a + u)%Qc.
  pose proof (Qc_square_nonneg a) as Ha.
  revert Ha IH. generalize (a * a)%Qc u. intros v w Hv Hw. qc_lra.
Qed.

Lemma Qcpower_even_nonneg (v : Qc) (k : nat) : (0 <= v ^ (2 * k))%Qc.
Proof.
  induction k as [|k IH]; [discriminate 1|].
  replace (2 * S k) with (S (S (2 * k))) by lia. cbn [Qcpower].
  replace (v * (v * v ^ (2 * k)))%Qc with ((v * v) * v ^ (2 * k))%Qc by ring.
  apply Qc_mul_nonneg; [apply Qc_square_nonneg|done].
Qed.

(** X25.  Called without [y], [kernel_linear] never raises: it returns the
    [n]x[n] array of the inner products of the [n] points (one point for
    a 1-D [x]), which is symmetric with a non-negative diagonal. *)
Theorem kernel_linear_is_symmetric :
  ∀ x : points,
    let X := atleast_2d x in
    ∃ K, kernel_linear x None = Ok K
         ∧ has_shape (length X) (length X) K
         ∧ ∀ i j, i < length X → j < length X →
             get2 K i j = dot (X !!! i) (X !!! j)
             ∧ get2 K i j = get2 K j i
             ∧ (0 <= get2 K i i)%Qc.
Proof.
  intros x X. unfold kernel_linear. fold X. cbn [from_option].
  rewrite Nat.eqb_refl. eexists. split; [reflexivity|].
  split.
  { split; [by rewrite length_fmap|].
    intros row (r & -> & _)%list_elem_of_fmap. by rewrite length_fmap. }
  intros i j Hi Hj.
  destruct (lookup_lt_is_Some_2 X i Hi) as [r Hr].
  destruct (lookup_lt_is_Some_2 X j Hj) as [s Hs].
  rewrite (get2_outer dot X X i j r s), (get2_outer dot X X j i s r),
    (get2_outer dot X X i i r r) by done.
  rewrite (list_lookup_total_correct _ _ _ Hr),
    (list_lookup_total_correct _ _ _ Hs).
  split; [done|]. split; [apply dot_comm|apply dot_self_nonneg].
Qed.

(** X26.  [kernel_polynomial] raises exactly when [kernel_linear] does.
    Called without [y] it returns the [n]x[n] array of the [p]-th powers
    of the inner products, which is symmetric, and non-negative
    throughout when [p] is even. *)
Theorem kernel_polynomial_is_symmetric :
  ∀ (x : points) (p : nat),
    let X := atleast_2d x in
    (∀ y e, kernel_linear x y = Raise e →
       kernel_polynomial x y p = Raise e)
    ∧ ∃ K, kernel_polynomial x None p = Ok K
           ∧ has_shape (length X) (length X) K
           ∧ ∀ i j, i < length X → j < length X →
               get2 K i j = (dot (X !!! i) (X !!! j) ^ p)%Qc
               ∧ get2 K i j = get2 K j i
               ∧ (Nat.Even p → (0 <= get2 K i j)%Qc).
Proof.
  intros x p X. split.
  { intros y e Hlin. unfold kernel_polynomial. by rewrite Hlin. }
  unfold kernel_polynomial, kernel_linear. fold X. cbn [from_option].
  rewrite Nat.eqb_refl. eexists. split; [reflexivity|].
  rewrite <- list_fmap_compose.
  split.
  { split; [by rewrite length_fmap|].
    intros row (r & -> & _)%list_elem_of_fmap. cbn.
    by rewrite !length_fmap. }
  intros i j Hi Hj.
  destruct (lookup_lt_is_Some_2 X i Hi) as [r Hr].
  destruct (lookup_lt_is_Some_2 X j Hj) as [s Hs].
  assert (Hget : ∀ a b u v, X !! a = Some u → X !! b = Some v →
            get2 ((λ row : list Qc, (λ v, v ^ p)%Qc <$> row)
                    ∘ (λ r, (λ s, dot r s) <$> X) <$> X) a b
            = (dot u v ^ p)%Qc).
  { intros a b u v Hu Hv. unfold get2.
    rewrite (list_lookup_total_correct _ a
               ((λ v, v ^ p)%Qc <$> ((λ s, dot u s) <$> X)))
      by (by rewrite list_lookup_fmap, Hu).
    apply list_lookup_total_correct.
    by rewrite !list_lookup_fmap, Hv. }
  rewrite (Hget i j r s), (Hget j i s r) by done.
  rewrite (list_lookup_total_correct _ _ _ Hr),
    (list_lookup_total_correct _ _ _ Hs).
  split; [done|]. split; [by rewrite dot_comm|].
  intros [k ->]. apply Qcpower_even_nonneg.
Qed.

(** * Edge cases *)

(** ** A pivot that is already in place *)

(** X27.  When the pivot drawn is [t = j], the Hermitian swap exchanges
    nothing: the only entry it rewrites is [A[j, j]], which becomes the
    real part of its conjugate (for a [float64] array, itself). *)
Theorem hermitian_swap_in_place :
  ∀ (T : Type) (dT : DType T) (N : nat) (A : matrix T) (j r c : nat),
    square N A → j < N → r < N → c < N →
    get2 (hermitian_swap j j A) r c
    = if decide (r = j ∧ c = j)
      then dt_of_real (dt_real (dt_conj (get2 A j j)))
      else get2 A r c.
Proof.
  intros T dT N A j r c Hsq Hj Hr Hc.
  pose proof (square_bottom_swap N A j j Hsq) as H1.
  pose proof (square_inner_swap N _ j j H1) as H2.
  pose proof (square_corner_swap N _ j j H2) as H3.
  pose proof (square_diagonal_swap N _ j j H3) as H4.
  unfold hermitian_swap.
  rewrite (left_swap_get N) by (done || lia).
  assert (Htr : transposition j j r = r)
    by (unfold transposition; repeat case_decide; lia).
  rewrite Htr.
  assert (Hrest : get2 (diagonal_swap j j
                          (corner_swap j j
                             (inner_swap j j (bottom_swap j j A)))) r c
                  = if decide (r = j ∧ c = j)
                    then dt_of_real (dt_real (dt_conj (get2 A j j)))
                    else get2 A r c).
  { rewrite (diagonal_swap_get N) by (done || lia).
    rewrite !(corner_swap_get N) by (done || lia).
    rewrite !(inner_swap_get N) by (done || lia).
    rewrite !(bottom_swap_get N) by (done || lia).
    unfold transposition.
    repeat case_decide; destruct_and?; subst; try done;
      exfalso; intuition lia. }
  rewrite Hrest. by destruct (decide (c < j)).
Qed.

Lemma hermitian_swap_in_place_witness :
  square 3 K_complex ∧ 1 < 3
  ∧ get2 (hermitian_swap 1 1 K_complex) 1 1
    = dt_of_real (dt_real (dt_conj (get2 K_complex 1 1)))
  ∧ get2 (hermitian_swap 1 1 K_complex) 1 0 = get2 K_complex 1 0.
Proof.
  assert (Hsq : square 3 K_complex) by (by apply square_concrete).
  split; [exact Hsq|]. split; [lia|]. split.
  - exact (hermitian_swap_in_place complex complex128 3 K_complex 1 1 1 Hsq
             ltac:(lia) ltac:(lia) ltac:(lia)).
  - exact (hermitian_swap_in_place complex complex128 3 K_complex 1 1 0 Hsq
             ltac:(lia) ltac:(lia) ltac:(lia)).
Defined.

(** ** A mode that is no string *)

(** X28.  A [mode] that is absent, [None] or any value that is not a string
    is found in no [samplers] dictionary: the dispatcher then invokes the
    default sampler, Gram-Schmidt for a Hermitian DPP and Schur
    otherwise. *)
Theorem mode_that_is_no_string_selects_default :
  ∀ (T : Type) (dT : DType T) (np_sqrt : Qc → Qc) (dpp : FiniteDPP)
    (random_state : seed) (params : gmap string pyval) (f : sampler)
    (size : pyval),
    (∀ s, params !! "mode" ≠ Some (PyStr s)) →
    Invoked f size
      ∈ d_events (projection_kernel_sampler np_sqrt dpp random_state params) →
    f = if hermitian dpp then GS else Schur.
Proof.
  intros T dT np_sqrt dpp random_state params f size Hmode.
  assert (Hsel : select_orthogonal_projection_kernel_sampler
                   (params_get params "mode") = Ok GS).
  { unfold params_get.
    destruct (params !! "mode") as [[| | |s]|] eqn:Hm; cbn [default];
      try (by destruct (Hmode s)).
    all: unfold select_orthogonal_projection_kernel_sampler, samplers_item.
    all: by rewrite lookup_insert_eq. }
  unfold projection_kernel_sampler. rewrite Hsel, select_generic_spec.
  destruct (projection dpp); cbn [negb]; [|cbn; by intros ?%elem_of_nil].
  intros Hin.
  repeat case_match; simplify_eq; cbn in Hin;
    rewrite ?elem_of_app, ?elem_of_cons, ?elem_of_nil in Hin;
    intuition (try discriminate; congruence).
Qed.

Lemma mode_that_is_no_string_selects_default_witness :
  let params : gmap string pyval :=
    <[ "mode" := PyInt 3 ]> {[ "size" := PyInt 1 ]} in
  let run := projection_kernel_sampler sqrt_of_square dpp_L_e0
               (SeedInstance (constant_rng (qq 1 2))) params in
  Invoked GS (PyInt 1) ∈ d_events run
  ∧ GS = (if hermitian dpp_L_e0 then GS else Schur).
Proof.
  intros params run.
  assert (Hin : Invoked GS (PyInt 1) ∈ d_events run).
  { apply (list_elem_of_lookup_2 _ 2). vm_compute. reflexivity. }
  split; [exact Hin|].
  apply (mode_that_is_no_string_selects_default Qc float64 sqrt_of_square
           dpp_L_e0 (SeedInstance (constant_rng (qq 1 2))) params GS
           (PyInt 1)); [|exact Hin].
  intros s. unfold params. rewrite lookup_insert_eq. discriminate.
Defined.

(** ** Landmarks of the table of elementary symmetric polynomials *)

Lemma esp_above_length (i : nat) (l : list Qc) :
  length l < i → esp i l = 0%Qc.
Proof.
  revert i. induction l as [|a l IH]; intros i Hi.
  - destruct i; [cbn in Hi; lia|reflexivity].
  - destruct i as [|i]; [lia|]. cbn in Hi.
    rewrite esp_cons, !IH by lia. ring.
Qed.

Lemma esp_1 (l : list Qc) : esp 1 l = sumQc l.
Proof.
  induction l as [|a l IH]; [reflexivity|].
  rewrite esp_cons, esp_0, IH. unfold sumQc. cbn [foldr]. ring.
Qed.

Lemma esp_full (l : list Qc) : esp (length l) l = prodQc l.
Proof.
  induction l as [|a l IH]; [reflexivity|].
  cbn [length]. rewrite esp_cons, IH, esp_above_length by lia.
  unfold prodQc. cbn [foldr]. ring.
Qed.

(** X29.  In the table returned for a degree [k >= 0], row 0 is 1
    throughout, row 1 holds the running sums of the points, the diagonal
    holds their running products, and every entry whose degree exceeds the
    number of points taken is 0. *)
Theorem elementary_symmetric_polynomials_landmarks :
  ∀ (k : Z) (x : list Qc),
    (0 ≤ k)%Z →
    ∃ E, elementary_symmetric_polynomials k x = Ok E
         ∧ ∀ i m, i ≤ Z.to_nat k → m ≤ length x →
             (i = 0 → get2 E i m = 1%Qc)
             ∧ (i = 1 → get2 E i m = sumQc (take m x))
             ∧ (i = m → get2 E i m = prodQc (take m x))
             ∧ (m < i → get2 E i m = 0%Qc).
Proof.
  intros k x Hk. unfold elementary_symmetric_polynomials.
  rewrite !bool_decide_eq_false_2 by lia. eexists. split; [reflexivity|].
  replace (Z.to_nat (k + 1)) with (S (Z.to_nat k)) by lia.
  destruct (esp_rows x (S (Z.to_nat k)) (Z.to_nat k) ltac:(lia))
    as (_ & _ & Hlow & _).
  intros i m Hi Hm. rewrite Hlow by done.
  split; [intros ->; apply esp_0|].
  split; [intros ->; apply esp_1|].
  split.
  - intros ->. rewrite <- (length_take_le x m) at 1 by done.
    apply esp_full.
  - intros Hlt. apply esp_above_length. rewrite length_take_le; lia.
Qed.

Lemma elementary_symmetric_polynomials_landmarks_witness :
  ∃ E, elementary_symmetric_polynomials 3 [qz 2; qz 3] = Ok E
       ∧ ∀ i m, i ≤ Z.to_nat 3 → m ≤ length [qz 2; qz 3] →
           (i = 0 → get2 E i m = 1%Qc)
           ∧ (i = 1 → get2 E i m = sumQc (take m [qz 2; qz 3]))
           ∧ (i = m → get2 E i m = prodQc (take m [qz 2; qz 3]))
           ∧ (m < i → get2 E i m = 0%Qc).
Proof.
  apply (elementary_symmetric_polynomials_landmarks 3 [qz 2; qz 3]). lia.
Defined.
